(** * CloudBib: synchronisation and conflict-resolution engine

    A shallow embedding of the TypeScript services of CloudBib
    ([annotation.service.ts], [library.service.ts], [sync.service.ts],
    [drive.service.ts], the schema of [db/schema.ts] and the entities of
    [models/types.ts]) together with the properties of the engine that the
    design document states about them.

    Conventions of the embedding.
    - JavaScript [number]s that the code uses as counters, versions, page
      numbers and coordinates are integers of [Z]; the comparator of the
      annotation sort only uses the sign of a difference.
    - JavaScript strings are [string]s; [<] and [>] on strings are the
      lexicographic order of [String.compare], which is also SQLite's BINARY
      collation on ASCII text.
    - [T | null] and optional fields are [option T].
    - A SQLite table with a [PRIMARY KEY] is a finite map from the key to
      the row; a JavaScript [Map] is an association list in insertion order.
    - Code that awaits, throws and mutates the database runs in the monad
      [M]: a state transformer over the world that returns a value or the
      thrown exception. Nothing is rolled back by an exception, except
      inside [db.transaction].
    - The collaborators that the services receive by injection (the Drive
      client, the PDF cache, the backend API, the clock, the identifier
      source, the file system, the JSON codec) are interfaces: type classes
      over an arbitrary state of the outside world. *)

From Stdlib Require Import ZArith String Ascii List Lia Bool.
From Stdlib Require Import Sorting.Sorted Sorting.Permutation.
From stdpp Require Import base option strings list gmap pretty.

Local Set Warnings "-register-all".
Local Open Scope string_scope.
Local Open Scope Z_scope.

(** ** models/types.ts: annotations *)

Inductive AnnotationType := highlight | note | area.

Module Rect.
Record t := mk { x1 : Z; y1 : Z; x2 : Z; y2 : Z }.
End Rect.
Abbreviation Rect := Rect.t.

Module Position.
Record t := mk { x : Z; y : Z }.
End Position.
Abbreviation Position := Position.t.

Module Annotation.
Record t := mk {
  id : string;
  type : AnnotationType;
  page : Z;
  rects : option (list Rect);
  position : option Position;
  color : option string;
  text : option string;
  content : option string;
  comment : option string;
  createdBy : string;
  createdAt : string;
  modifiedAt : string }.
End Annotation.
Abbreviation Annotation := Annotation.t.

Module AnnotationSidecar.
Record t := mk {
  schemaVersion : Z;
  attachmentId : string;
  lastModified : string;
  version : Z;
  createdBy : string;
  annotations : list Annotation }.
End AnnotationSidecar.
Abbreviation AnnotationSidecar := AnnotationSidecar.t.

(** ** JavaScript primitives used by the services *)

(** [a > b] on two strings. *)
Definition str_gt (a b : string) : bool :=
  match String.compare a b with Gt => true | _ => false end.

(** Truthiness of a [string | null]: [null] and the empty string are falsy. *)
Definition truthy (s : option string) : bool :=
  match s with
  | Some EmptyString | None => false
  | Some _ => true
  end.

(** The string of a truthy [string | null]. *)
Definition as_truthy (s : option string) : option string :=
  if truthy s then s else None.

(** A [Map<string, V>]: keys in insertion order; [set] on a key that is
    present replaces the value in place, on a new key appends. *)
Definition JsMap (V : Type) : Type := list (string * V).

Fixpoint map_get {V} (k : string) (m : JsMap V) : option V :=
  match m with
  | [] => None
  | (k', v) :: m' => if String.eqb k k' then Some v else map_get k m'
  end.

Fixpoint map_set {V} (k : string) (v : V) (m : JsMap V) : JsMap V :=
  match m with
  | [] => [(k, v)]
  | (k', v') :: m' =>
      if String.eqb k k' then (k, v) :: m' else (k', v') :: map_set k v m'
  end.

Definition map_values {V} (m : JsMap V) : list V := List.map snd m.

(** [Array.prototype.sort(cmp)]: the sort is stable and, for a consistent
    comparator, its result is the stable sorted arrangement, which is what
    insertion from the right computes. [cmp a b <= 0] keeps [a] before [b]. *)
Fixpoint sort_insert {A} (cmp : A -> A -> Z) (a : A) (l : list A) : list A :=
  match l with
  | [] => [a]
  | b :: l' => if cmp a b <=? 0 then a :: b :: l' else b :: sort_insert cmp a l'
  end.

Fixpoint array_sort {A} (cmp : A -> A -> Z) (l : list A) : list A :=
  match l with
  | [] => []
  | a :: l' => sort_insert cmp a (array_sort cmp l')
  end.

(** ** annotation.service.ts: merge strategy *)

(** [a.rects?.[0]?.y1 ?? a.position?.y ?? 0] *)
Definition vertical_position (a : Annotation) : Z :=
  match Annotation.rects a with
  | Some (r :: _) => Rect.y1 r
  | _ =>
      match Annotation.position a with
      | Some p => Position.y p
      | None => 0
      end
  end.

(** The comparator handed to [sort]. *)
Definition compare_annotations (a b : Annotation) : Z :=
  if negb (Annotation.page a =? Annotation.page b)
  then Annotation.page a - Annotation.page b
  else vertical_position b - vertical_position a.

(** First loop: [merged.set(ann.id, ann)] for every local annotation. *)
Definition seed_local (local : list Annotation) : JsMap Annotation :=
  fold_left (fun merged ann => map_set (Annotation.id ann) ann merged) local [].

(** Body of the second loop. *)
Definition merge_remote (merged : JsMap Annotation) (ann : Annotation)
  : JsMap Annotation :=
  match map_get (Annotation.id ann) merged with
  | None => map_set (Annotation.id ann) ann merged
  | Some existing =>
      if str_gt (Annotation.modifiedAt ann) (Annotation.modifiedAt existing)
      then map_set (Annotation.id ann) ann merged
      else merged
  end.

Definition merged_map (local remote : list Annotation) : JsMap Annotation :=
  fold_left merge_remote remote (seed_local local).

Definition mergeAnnotations (local remote : list Annotation) : list Annotation :=
  array_sort compare_annotations (map_values (merged_map local remote)).

(** [buildSidecar]; [now] is the value of [new Date().toISOString()]. *)
Definition buildSidecar (now : string) (attachmentId : string)
    (annotations : list Annotation) (version : Z) (createdBy : string)
  : AnnotationSidecar :=
  AnnotationSidecar.mk 1 attachmentId now version createdBy annotations.

(** ** Exceptions *)

(** What a collaborator (Drive, backend, cache, file system) rejects a call
    with: the [status] property of the thrown value, when it has one, and
    its message. *)
Record Rejection := { rej_status : option Z; rej_message : string }.

(** The exceptions the services throw or let through. The first three are
    the classes of [library.service.ts]; [Error] is [new Error(message)]. *)
Inductive Exn :=
| DuplicateError (message : string)
| NotFoundError (message : string)
| IntegrityError (message : string)
| Error (message : string)
| SyntaxError (message : string)
| TypeError (message : string)
| SqliteError (message : string)
| Rejected (r : Rejection).

(** [err instanceof Error ? err.message : String(err)] *)
Definition exn_message (e : Exn) : string :=
  match e with
  | DuplicateError m | NotFoundError m | IntegrityError m | Error m
  | SyntaxError m | TypeError m | SqliteError m => m
  | Rejected r => rej_message r
  end.

(** [(err as { status?: number }).status] *)
Definition exn_status (e : Exn) : option Z :=
  match e with
  | Rejected r => rej_status r
  | _ => None
  end.

Inductive result (A : Type) :=
| Returns (a : A)
| Throws (e : Exn).
Arguments Returns {A} a.
Arguments Throws {A} e.

Definition of_rejection {A} (r : A + Rejection) : result A :=
  match r with
  | inl a => Returns a
  | inr j => Throws (Rejected j)
  end.

(** ** JSON *)

(** The value [JSON.parse] builds. *)
Inductive JsonValue :=
| JNull
| JBool (b : bool)
| JNumber (n : Z)
| JString (s : string)
| JArray (elements : list JsonValue)
| JObject (fields : list (string * JsonValue)).

(** [JSON.stringify(value, null, space)] and [JSON.parse(text) as A] at the
    type [A] the code casts to; [parse] answers with the message of the
    [SyntaxError] when the text is not JSON. *)
Class JSON (A : Type) := {
  stringify : Z -> A -> string;
  parse : string -> A + string }.

Definition JSON_parse {A} `{!JSON A} (text : string) : result A :=
  match parse text with
  | inl a => Returns a
  | inr m => Throws (SyntaxError m)
  end.

(** Pure built-ins whose output format the code does not depend on. *)
Class Formats := {
  (** [Number.prototype.toString] *)
  Number_toString : Z -> string;
  (** [new Date(ms).toISOString()] *)
  Date_toISOString : Z -> string;
  (** SQLite's [datetime] of the instant [ms] *)
  sqlite_datetime : Z -> string;
  (** [path.basename] *)
  path_basename : string -> string }.

(** The value of a property read: [undefined] is [None]. *)
Definition JsValue : Type := option JsonValue.

Fixpoint assoc_get {V} (k : string) (l : list (string * V)) : option V :=
  match l with
  | [] => None
  | (k', v) :: l' => if String.eqb k k' then Some v else assoc_get k l'
  end.

(** [data.key] on a parsed value: reading a property of [null] throws, an
    object answers with its own property, every other value has neither
    [schemaVersion] nor [annotations]. *)
Definition get_property (data : JsonValue) (key : string) : result JsValue :=
  match data with
  | JNull =>
      Throws (TypeError ("Cannot read properties of null (reading '" ++ key ++ "')"))
  | JObject fields => Returns (assoc_get key fields)
  | _ => Returns None
  end.

(** [v !== 1] *)
Definition strict_ne_one (v : JsValue) : bool :=
  match v with
  | Some (JNumber 1) => false
  | _ => true
  end.

(** [Array.isArray(v)] *)
Definition Array_isArray (v : JsValue) : bool :=
  match v with
  | Some (JArray _) => true
  | _ => false
  end.

Section TemplateLiteral.
Context `{!Formats}.

(** String conversion of a parsed value inside a template literal. *)
Fixpoint js_string (v : JsonValue) : string :=
  match v with
  | JNull => "null"
  | JBool true => "true"
  | JBool false => "false"
  | JNumber n => Number_toString n
  | JString s => s
  | JArray l =>
      let element v :=
        match v with
        | JNull => ""
        | _ => js_string v
        end in
      String.concat "," (List.map element l)
  | JObject _ => "[object Object]"
  end.

Definition template (v : JsValue) : string :=
  match v with
  | None => "undefined"
  | Some v => js_string v
  end.
End TemplateLiteral.

(** ** annotation.service.ts: parseSidecar *)

Definition schema_version_message : string :=
  "Unsupported annotation schema version: ".
Definition malformed_envelope_message : string :=
  "Invalid sidecar: annotations must be an array".

Section ParseSidecar.
Context `{!Formats, !JSON JsonValue}.

Definition parseSidecar (json : string) : result JsonValue :=
  match JSON_parse json with
  | Throws e => Throws e
  | Returns data =>
      match get_property data "schemaVersion" with
      | Throws e => Throws e
      | Returns schemaVersion =>
          if strict_ne_one schemaVersion
          then Throws (Error (schema_version_message ++ template schemaVersion))
          else
            match get_property data "annotations" with
            | Throws e => Throws e
            | Returns annotations =>
                if negb (Array_isArray annotations)
                then Throws (Error malformed_envelope_message)
                else Returns data
            end
      end
  end.
End ParseSidecar.

(** The two failures of [parseSidecar], told apart by their messages. *)
Definition is_SchemaVersionError (e : Exn) : Prop :=
  exists shown, e = Error (schema_version_message ++ shown).
Definition is_MalformedEnvelopeError (e : Exn) : Prop :=
  e = Error malformed_envelope_message.

(** ** models/types.ts: entities and database rows *)

Inductive LibraryType := personal | group.
Inductive UploadStatus := pending | uploading | failed | completed.
Inductive UploadType := pdf | annotation | metadata.

Module Library.
Record t := mk {
  id : string;
  name : string;
  type : LibraryType;
  groupId : option string;
  driveRootId : option string;
  createdAt : string;
  modifiedAt : string }.
End Library.
Abbreviation Library := Library.t.

Module Author.
Record t := mk { given : string; family : string }.
End Author.
Abbreviation Author := Author.t.

(** [ItemType] is a union of string literals and [row.itemType as ItemType]
    checks nothing: the tag stays a string. *)
Module Item.
Record t := mk {
  id : string;
  libraryId : string;
  itemType : string;
  title : option string;
  authors : list Author;
  year : option string;
  journal : option string;
  volume : option string;
  issue : option string;
  pages : option string;
  doi : option string;
  isbn : option string;
  abstract : option string;
  tags : list string;
  extra : JsonValue;
  createdBy : option string;
  createdAt : string;
  modifiedAt : string;
  version : Z;
  deleted : bool }.
End Item.
Abbreviation Item := Item.t.

(** [Partial<Item>]: a field that is absent, [undefined] or [null] is [None]. *)
Module PartialItem.
Record t := mk {
  id : option string;
  libraryId : option string;
  itemType : option string;
  title : option string;
  authors : option (list Author);
  year : option string;
  journal : option string;
  volume : option string;
  issue : option string;
  pages : option string;
  doi : option string;
  isbn : option string;
  abstract : option string;
  tags : option (list string);
  extra : option JsonValue;
  createdBy : option string;
  createdAt : option string;
  modifiedAt : option string;
  version : option Z;
  deleted : option bool }.
End PartialItem.
Abbreviation PartialItem := PartialItem.t.

(** The [data] argument of [createItem]. *)
Module NewItem.
Record t := mk {
  title : option string;
  itemType : option string;
  authors : option (list Author);
  year : option string;
  journal : option string;
  volume : option string;
  issue : option string;
  pages : option string;
  doi : option string;
  isbn : option string;
  abstract : option string;
  tags : option (list string) }.
End NewItem.
Abbreviation NewItem := NewItem.t.

Module ItemRow.
Record t := mk {
  id : string;
  libraryId : string;
  itemType : string;
  title : option string;
  authors : option string;
  year : option string;
  journal : option string;
  volume : option string;
  issue : option string;
  pages : option string;
  doi : option string;
  isbn : option string;
  abstract : option string;
  tags : option string;
  extra : option string;
  createdBy : option string;
  createdAt : string;
  modifiedAt : string;
  version : Z;
  deleted : Z }.
End ItemRow.
Abbreviation ItemRow := ItemRow.t.

Module Attachment.
Record t := mk {
  id : string;
  itemId : string;
  filename : string;
  mime : string;
  size : option Z;
  checksum : string;
  driveFileId : option string;
  parentFolderId : option string;
  sharedDriveId : option string;
  driveWebLink : option string;
  driveRevision : option string;
  createdBy : option string;
  createdAt : string;
  modifiedAt : string;
  version : Z }.
End Attachment.
Abbreviation Attachment := Attachment.t.

Module AnnotationSet.
Record t := mk {
  id : string;
  attachmentId : string;
  annotations : list Annotation;
  driveFileId : option string;
  driveRevision : option string;
  localVersion : Z;
  remoteVersion : Z;
  isDirty : bool;
  createdBy : option string;
  createdAt : string;
  modifiedAt : string }.
End AnnotationSet.
Abbreviation AnnotationSet := AnnotationSet.t.

Module AnnotationSetRow.
Record t := mk {
  id : string;
  attachmentId : string;
  annotations : string;
  driveFileId : option string;
  driveRevision : option string;
  localVersion : Z;
  remoteVersion : Z;
  isDirty : Z;
  createdBy : option string;
  createdAt : string;
  modifiedAt : string }.
End AnnotationSetRow.
Abbreviation AnnotationSetRow := AnnotationSetRow.t.

Module UploadQueueEntry.
Record t := mk {
  id : string;
  type : UploadType;
  targetId : string;
  localPath : option string;
  status : UploadStatus;
  retryCount : Z;
  maxRetries : Z;
  errorMsg : option string;
  createdAt : string;
  nextRetryAt : option string }.
End UploadQueueEntry.
Abbreviation UploadQueueEntry := UploadQueueEntry.t.

Module SyncResult.
Record t := mk { pushed : Z; pulled : Z; conflicts : Z; errors : Z }.
End SyncResult.
Abbreviation SyncResult := SyncResult.t.

(** A row of [sync_state], keyed by [key]. *)
Module SyncState.
Record t := mk { value : string; updatedAt : string }.
End SyncState.
Abbreviation SyncState := SyncState.t.

Module DriveUploadOptions.
Record t := mk {
  name : string;
  mimeType : string;
  parents : list string;
  localPath : option string;
  content : option string }.
End DriveUploadOptions.
Abbreviation DriveUploadOptions := DriveUploadOptions.t.

Module DriveFileMetadata.
Record t := mk {
  id : string;
  name : string;
  mimeType : string;
  size : Z;
  headRevisionId : string;
  webViewLink : string;
  parents : list string }.
End DriveFileMetadata.
Abbreviation DriveFileMetadata := DriveFileMetadata.t.

(** ** db/schema.ts: the local database *)

Record Db := {
  libraries : gmap string Library;
  items : gmap string ItemRow;
  attachments : gmap string Attachment;
  annotation_sets : gmap string AnnotationSetRow;
  upload_queue : gmap string UploadQueueEntry;
  sync_state : gmap string SyncState }.

(** The rows of a table, for a [SELECT] that scans it. SQL leaves the
    order of the rows of such a query open where no [ORDER BY] decides it,
    and SQLite follows the insertion of the rows or an index; the
    embedding lists the rows by key. Where several rows qualify, which of
    them comes first is therefore the embedding's choice. *)
Definition rows {R} (table : gmap string R) : list R := (map_to_list table).*2.

(** Column defaults of the schema. *)
Definition default_itemType : string := "journalArticle".
Definition default_mime : string := "application/pdf".
Definition default_annotations : string := "[]".
Definition default_version : Z := 1.
Definition default_maxRetries : Z := 5.

(** ** The collaborators the services are constructed with *)

(** The calls made on the Drive client, in the order they were made. *)
Inductive DriveCall :=
| EnsureFolder (parentId : option string) (folderName : string)
| UploadResumable (options : DriveUploadOptions)
| DownloadFile (fileId destPath : string)
| DownloadJSON (fileId : string)
| GetFileMetadata (fileId : string)
| CreateFile (options : DriveUploadOptions)
| UpdateFile (fileId content mimeType : string)
| IsOnline.

(** [IDriveService] of [drive.service.ts], over the state [X] of the world
    outside the process. A rejected promise is a [Rejection]. The parent of
    [ensureFolder] is optional because [addPdfToGroup] passes
    [library.driveRootId!] without a check. *)
Class IDriveService (X : Type) := {
  ensureFolder : option string -> string -> X -> (string + Rejection) * X;
  uploadResumable : DriveUploadOptions -> X -> (DriveFileMetadata + Rejection) * X;
  downloadFile : string -> string -> X -> (unit + Rejection) * X;
  downloadJSON : string -> X -> (AnnotationSidecar + Rejection) * X;
  getFileMetadata : string -> X -> (DriveFileMetadata + Rejection) * X;
  createFile : DriveUploadOptions -> X -> (DriveFileMetadata + Rejection) * X;
  updateFile : string -> string -> string -> X -> (DriveFileMetadata + Rejection) * X;
  isOnline : X -> (bool + Rejection) * X }.

(** [ICacheService] of [cache.service.ts]. *)
Class ICacheService (X : Type) := {
  getPdfPath : string -> X -> option string;
  allocatePath : string -> X -> string;
  storePdf : string -> string -> X -> (string + Rejection) * X }.

(** [IBackendApi] of [sync.service.ts]. *)
Class IBackendApi (X : Type) := {
  getChanges : string -> X -> (list ItemRow + Rejection) * X;
  pushItem : ItemRow -> X -> (unit + Rejection) * X }.

(** What the services take from their platform: the clock ([Date.now()],
    which SQLite's [datetime('now')] reads too), [uuid()], the injected
    [currentUserId], the file system and [computeSHA256]. *)
Class Platform (X : Type) := {
  Date_now : X -> Z * X;
  uuid : X -> string * X;
  currentUserId : X -> string;
  fs_existsSync : string -> X -> bool;
  fs_statSync_size : string -> X -> Z + Rejection;
  computeSHA256 : string -> X -> (string + Rejection) * X }.

(** ** The state the services run on *)

Record World (X : Type) := mkWorld {
  db : Db;
  ext : X;
  drive_calls : list DriveCall }.
Arguments mkWorld {X} db ext drive_calls.
Arguments db {X} w.
Arguments ext {X} w.
Arguments drive_calls {X} w.

(** Computations that read and write a state [S] and return or throw. *)
Definition ST (S A : Type) : Type := S -> result A * S.

Definition ret {S A} (a : A) : ST S A := fun s => (Returns a, s).

Definition throw {S A} (e : Exn) : ST S A := fun s => (Throws e, s).

Definition bind {S A B} (m : ST S A) (k : A -> ST S B) : ST S B :=
  fun s =>
    match m s with
    | (Returns a, s') => k a s'
    | (Throws e, s') => (Throws e, s')
    end.

Declare Scope st_scope.
Delimit Scope st_scope with st.
Notation "x <- m ;; k" := (bind m (fun x => k))
  (at level 100, m at next level, right associativity) : st_scope.
Notation "m ;;; k" := (bind m (fun _ => k))
  (at level 100, right associativity) : st_scope.
Local Open Scope st_scope.

(** [try { m } catch (err) { handler err }] *)
Definition try_catch {S A} (m : ST S A) (handler : Exn -> ST S A) : ST S A :=
  fun s =>
    match m s with
    | (Returns a, s') => (Returns a, s')
    | (Throws e, s') => handler e s'
    end.

(** The settled state of a promise, as a value. *)
Definition settle {S A} (m : ST S A) : ST S (result A) :=
  fun s => let '(r, s') := m s in (Returns r, s').

Definition gets {S A} (f : S -> A) : ST S A := fun s => (Returns (f s), s).

Definition modify {S} (f : S -> S) : ST S unit := fun s => (Returns tt, f s).

Definition lift_result {S A} (r : result A) : ST S A := fun s => (r, s).

(** [for (const x of l) { body x }] *)
Fixpoint for_each {S A} (l : list A) (body : A -> ST S unit) : ST S unit :=
  match l with
  | [] => ret tt
  | a :: l' => body a ;;; for_each l' body
  end.

(** A computation on a part of the state. *)
Definition on_snd {R S A} (m : ST S A) : ST (R * S) A :=
  fun rs =>
    let '(a, s') := m (snd rs) in (a, (fst rs, s')).

Definition on_fst {R S} (f : R -> R) : ST (R * S) unit :=
  fun rs => (Returns tt, (f (fst rs), snd rs)).

Section WorldOps.
Context {X : Type}.
Context `{!IDriveService X, !ICacheService X, !IBackendApi X, !Platform X}.
Context `{!Formats}.

Definition set_db (d : Db) (w : World X) : World X :=
  mkWorld d (ext w) (drive_calls w).

(** A call that changes the outside world and may be rejected. *)
Definition external {A} (op : X -> (A + Rejection) * X) : ST (World X) A :=
  fun w =>
    let '(r, x') := op (ext w) in
    (of_rejection r, mkWorld (db w) x' (drive_calls w)).

(** A call on the Drive client: recorded, then performed. *)
Definition drive {A} (call : DriveCall) (op : X -> (A + Rejection) * X)
  : ST (World X) A :=
  fun w =>
    let '(r, x') := op (ext w) in
    (of_rejection r, mkWorld (db w) x' (drive_calls w ++ [call])).

Definition now_ms : ST (World X) Z :=
  fun w =>
    let '(t, x') := Date_now (ext w) in
    (Returns t, mkWorld (db w) x' (drive_calls w)).

(** [new Date().toISOString()] *)
Definition now_iso : ST (World X) string :=
  t <- now_ms ;; ret (Date_toISOString t).

(** [datetime('now')] *)
Definition now_sql : ST (World X) string :=
  t <- now_ms ;; ret (sqlite_datetime t).

Definition new_uuid : ST (World X) string :=
  fun w =>
    let '(u, x') := uuid (ext w) in
    (Returns u, mkWorld (db w) x' (drive_calls w)).

Definition current_user : ST (World X) string :=
  gets (fun w => currentUserId (ext w)).

(** [db.transaction(fn)()]: the writes of [fn] are rolled back when it
    throws; what it did outside the database is not. *)
Definition transaction {A} (fn : ST (World X) A) : ST (World X) A :=
  fun w =>
    match fn w with
    | (Returns a, w') => (Returns a, w')
    | (Throws e, w') => (Throws e, set_db (db w) w')
    end.

(** *** Tables *)

Definition with_libraries (f : gmap string Library -> gmap string Library) (d : Db) : Db :=
  Build_Db (f (libraries d)) (items d) (attachments d) (annotation_sets d)
           (upload_queue d) (sync_state d).
Definition with_items (f : gmap string ItemRow -> gmap string ItemRow) (d : Db) : Db :=
  Build_Db (libraries d) (f (items d)) (attachments d) (annotation_sets d)
           (upload_queue d) (sync_state d).
Definition with_attachments (f : gmap string Attachment -> gmap string Attachment) (d : Db) : Db :=
  Build_Db (libraries d) (items d) (f (attachments d)) (annotation_sets d)
           (upload_queue d) (sync_state d).
Definition with_annotation_sets
    (f : gmap string AnnotationSetRow -> gmap string AnnotationSetRow) (d : Db) : Db :=
  Build_Db (libraries d) (items d) (attachments d) (f (annotation_sets d))
           (upload_queue d) (sync_state d).
Definition with_upload_queue
    (f : gmap string UploadQueueEntry -> gmap string UploadQueueEntry) (d : Db) : Db :=
  Build_Db (libraries d) (items d) (attachments d) (annotation_sets d)
           (f (upload_queue d)) (sync_state d).
Definition with_sync_state (f : gmap string SyncState -> gmap string SyncState) (d : Db) : Db :=
  Build_Db (libraries d) (items d) (attachments d) (annotation_sets d)
           (upload_queue d) (f (sync_state d)).

Definition write (f : Db -> Db) : ST (World X) unit :=
  modify (fun w => set_db (f (db w)) w).

Definition unique_failed (column : string) : Exn :=
  SqliteError ("UNIQUE constraint failed: " ++ column).
Definition foreign_key_failed : Exn :=
  SqliteError "FOREIGN KEY constraint failed".

(** [INSERT INTO items]: [id] is the primary key and [libraryId]
    references [libraries(id)] (foreign keys are switched on when the
    database is opened). *)
Definition insert_item (row : ItemRow) : ST (World X) unit :=
  d <- gets db ;;
  match items d !! ItemRow.id row with
  | Some _ => throw (unique_failed "items.id")
  | None =>
      match libraries d !! ItemRow.libraryId row with
      | None => throw foreign_key_failed
      | Some _ => write (with_items (insert (ItemRow.id row) row))
      end
  end.

Definition insert_attachment (row : Attachment) : ST (World X) unit :=
  d <- gets db ;;
  match attachments d !! Attachment.id row with
  | Some _ => throw (unique_failed "attachments.id")
  | None =>
      match items d !! Attachment.itemId row with
      | None => throw foreign_key_failed
      | Some _ => write (with_attachments (insert (Attachment.id row) row))
      end
  end.

Definition insert_annotation_set (row : AnnotationSetRow) : ST (World X) unit :=
  d <- gets db ;;
  match annotation_sets d !! AnnotationSetRow.id row with
  | Some _ => throw (unique_failed "annotation_sets.id")
  | None =>
      match attachments d !! AnnotationSetRow.attachmentId row with
      | None => throw foreign_key_failed
      | Some _ =>
          write (with_annotation_sets (insert (AnnotationSetRow.id row) row))
      end
  end.

Definition insert_upload (row : UploadQueueEntry) : ST (World X) unit :=
  d <- gets db ;;
  match upload_queue d !! UploadQueueEntry.id row with
  | Some _ => throw (unique_failed "upload_queue.id")
  | None => write (with_upload_queue (insert (UploadQueueEntry.id row) row))
  end.

(** [UPDATE table SET ... WHERE id = ?]: no row, no change. *)
Definition update_item (id : string) (f : ItemRow -> ItemRow) : ST (World X) unit :=
  write (with_items (alter f id)).
Definition update_attachment (id : string) (f : Attachment -> Attachment)
  : ST (World X) unit :=
  write (with_attachments (alter f id)).
Definition update_annotation_set (id : string)
    (f : AnnotationSetRow -> AnnotationSetRow) : ST (World X) unit :=
  write (with_annotation_sets (alter f id)).
Definition update_upload (id : string) (f : UploadQueueEntry -> UploadQueueEntry)
  : ST (World X) unit :=
  write (with_upload_queue (alter f id)).

(** [.get()] of a query that is not on the key: the first row found;
    the row found, when exactly one row qualifies. *)
Definition first_row {R} (p : R -> bool) (table : gmap string R) : option R :=
  List.find p (rows table).
End WorldOps.

(** ** drive.service.ts: names of uploaded files

    Names are sequences of code units below 256. *)

(** The white space of [\s] among the code units below 256: tab, line
    feed, vertical tab, form feed, carriage return, space and the
    no-break space. *)
Definition white_space (c : ascii) : bool :=
  let n := nat_of_ascii c in
  ((9 <=? n) && (n <=? 13) || (n =? 32) || (n =? 160))%nat.

Definition illegal_in_filename (c : ascii) : bool :=
  (nat_of_ascii c <=? 31)%nat
  || List.existsb (Ascii.eqb c)
       ["<"; ">"; ":"; ascii_of_nat 34; "/"; "\"; "|"; "?"; "*"]%char.

(** The first [replace] of [sanitizeFilename]: the characters that are
    illegal in a Drive file name, and the control characters, become an
    underscore. *)
Fixpoint replace_illegal (s : string) : string :=
  match s with
  | EmptyString => EmptyString
  | String c s' =>
      String (if illegal_in_filename c then "_"%char else c) (replace_illegal s')
  end.

(** [.replace(/\s+/g, '_')]: every run of white space becomes one
    underscore; [in_run] tells that the previous character was white
    space. *)
Fixpoint collapse_spaces (in_run : bool) (s : string) : string :=
  match s with
  | EmptyString => EmptyString
  | String c s' =>
      if white_space c
      then if in_run then collapse_spaces true s'
           else String "_"%char (collapse_spaces true s')
      else String c (collapse_spaces false s')
  end.

Definition sanitizeFilename (name : string) : string :=
  String.substring 0 200 (collapse_spaces false (replace_illegal name)).

Definition buildDriveFileName (checksum originalName : string) : string :=
  String.substring 0 8 checksum ++ "_" ++ sanitizeFilename originalName.

Definition lower_ascii (c : ascii) : ascii :=
  let n := nat_of_ascii c in
  if ((65 <=? n) && (n <=? 90))%nat then ascii_of_nat (n + 32) else c.

Fixpoint lower_string (s : string) : string :=
  match s with
  | EmptyString => EmptyString
  | String c s' => String (lower_ascii c) (lower_string s')
  end.

(** [filename.replace(/\.pdf$/i, '')] *)
Definition strip_pdf_extension (filename : string) : string :=
  let n := String.length filename in
  if ((4 <=? n)%nat
      && String.eqb (lower_string (String.substring (n - 4) 4 filename)) ".pdf")
  then String.substring 0 (n - 4) filename
  else filename.

(** ** annotation.service.ts and library.service.ts: rows to entities *)

Section Rows.
Context `{!JSON (list Author), !JSON (list string), !JSON JsonValue}.
Context `{!JSON (list Annotation)}.

(** [text ? (JSON.parse(text) as A) : fallback] *)
Definition parse_or {A} `{!JSON A} (text : option string) (fallback : A)
  : result A :=
  if truthy text
  then match text with
       | Some t => JSON_parse t
       | None => Returns fallback
       end
  else Returns fallback.

Definition rowToItem (row : ItemRow) : result Item :=
  match parse_or (ItemRow.authors row) [] with
  | Throws e => Throws e
  | Returns authors =>
      match parse_or (ItemRow.tags row) [] with
      | Throws e => Throws e
      | Returns tags =>
          match parse_or (ItemRow.extra row) (JObject []) with
          | Throws e => Throws e
          | Returns extra =>
              Returns
                (Item.mk (ItemRow.id row) (ItemRow.libraryId row)
                   (ItemRow.itemType row) (ItemRow.title row) authors
                   (ItemRow.year row) (ItemRow.journal row)
                   (ItemRow.volume row) (ItemRow.issue row)
                   (ItemRow.pages row) (ItemRow.doi row) (ItemRow.isbn row)
                   (ItemRow.abstract row) tags extra (ItemRow.createdBy row)
                   (ItemRow.createdAt row) (ItemRow.modifiedAt row)
                   (ItemRow.version row) (ItemRow.deleted row =? 1))
          end
      end
  end.

Definition rowToAnnotationSet (row : AnnotationSetRow) : result AnnotationSet :=
  match JSON_parse (AnnotationSetRow.annotations row) with
  | Throws e => Throws e
  | Returns annotations =>
      Returns
        (AnnotationSet.mk (AnnotationSetRow.id row)
           (AnnotationSetRow.attachmentId row) annotations
           (AnnotationSetRow.driveFileId row)
           (AnnotationSetRow.driveRevision row)
           (AnnotationSetRow.localVersion row)
           (AnnotationSetRow.remoteVersion row)
           (AnnotationSetRow.isDirty row =? 1)
           (AnnotationSetRow.createdBy row)
           (AnnotationSetRow.createdAt row)
           (AnnotationSetRow.modifiedAt row))
  end.
End Rows.

(** [a ?? b] *)
Definition coalesce {A} (a b : option A) : option A :=
  match a with
  | Some _ => a
  | None => b
  end.

(** ** library.service.ts: LibraryService *)

Section LibraryService.
Context {X : Type}.
Context `{!IDriveService X, !ICacheService X, !IBackendApi X, !Platform X}.
Context `{!Formats}.
Context `{!JSON (list Author), !JSON (list string), !JSON JsonValue}.
Context `{!JSON (list Annotation), !JSON AnnotationSidecar}.

Abbreviation M := (ST (World X)).

Definition getLibrary (id : string) : M (option Library) :=
  gets (fun w => libraries (db w) !! id).

Definition getItem (id : string) : M (option Item) :=
  row <- gets (fun w => items (db w) !! id) ;;
  match row with
  | Some row => item <- lift_result (rowToItem row) ;; ret (Some item)
  | None => ret None
  end.

(** The row [createItem] inserts: the columns it lists, the others at
    their defaults. *)
Definition new_item_row (id libraryId : string) (data : NewItem)
    (user now : string) : ItemRow :=
  ItemRow.mk id libraryId
    (default default_itemType (NewItem.itemType data))
    (NewItem.title data)
    (stringify 0 <$> NewItem.authors data)
    (NewItem.year data) (NewItem.journal data) (NewItem.volume data)
    (NewItem.issue data) (NewItem.pages data) (NewItem.doi data)
    (NewItem.isbn data) (NewItem.abstract data)
    (stringify 0 <$> NewItem.tags data)
    None (Some user) now now default_version 0.

(** [return this.getItem(id)!]: the assertion is erased, the value may
    still be [null]. *)
Definition createItem (libraryId : string) (data : NewItem) : M (option Item) :=
  id <- new_uuid ;;
  user <- current_user ;;
  now <- now_sql ;;
  insert_item (new_item_row id libraryId data user now) ;;;
  getItem id.

(** The assignments of the [UPDATE] of [updateItem]. *)
Definition updated_item_row (data : PartialItem) (existing : Item)
    (now : string) (row : ItemRow) : ItemRow :=
  ItemRow.mk (ItemRow.id row) (ItemRow.libraryId row) (ItemRow.itemType row)
    (coalesce (PartialItem.title data) (Item.title existing))
    (Some (stringify 0 (default (Item.authors existing) (PartialItem.authors data))))
    (coalesce (PartialItem.year data) (Item.year existing))
    (coalesce (PartialItem.journal data) (Item.journal existing))
    (coalesce (PartialItem.volume data) (Item.volume existing))
    (coalesce (PartialItem.issue data) (Item.issue existing))
    (coalesce (PartialItem.pages data) (Item.pages existing))
    (coalesce (PartialItem.doi data) (Item.doi existing))
    (coalesce (PartialItem.isbn data) (Item.isbn existing))
    (coalesce (PartialItem.abstract data) (Item.abstract existing))
    (Some (stringify 0 (default (Item.tags existing) (PartialItem.tags data))))
    (ItemRow.extra row) (ItemRow.createdBy row) (ItemRow.createdAt row)
    now (ItemRow.version row + 1) (ItemRow.deleted row).

Definition updateItem (id : string) (data : PartialItem) : M (option Item) :=
  existing <- getItem id ;;
  match existing with
  | None => throw (NotFoundError ("Item not found: " ++ id))
  | Some existing =>
      now <- now_sql ;;
      update_item id (updated_item_row data existing now) ;;;
      getItem id
  end.

(** [SET deleted = 1, modifiedAt = datetime('now'), version = version + 1] *)
Definition deleted_item_row (now : string) (row : ItemRow) : ItemRow :=
  ItemRow.mk (ItemRow.id row) (ItemRow.libraryId row) (ItemRow.itemType row)
    (ItemRow.title row) (ItemRow.authors row) (ItemRow.year row)
    (ItemRow.journal row) (ItemRow.volume row) (ItemRow.issue row)
    (ItemRow.pages row) (ItemRow.doi row) (ItemRow.isbn row)
    (ItemRow.abstract row) (ItemRow.tags row) (ItemRow.extra row)
    (ItemRow.createdBy row) (ItemRow.createdAt row)
    now (ItemRow.version row + 1) 1.

Definition deleteItem (id : string) : M unit :=
  now <- now_sql ;;
  update_item id (deleted_item_row now).

Definition getAttachment (id : string) : M (option Attachment) :=
  gets (fun w => attachments (db w) !! id).

(** *** addPdfToGroup *)

(** [SELECT * FROM libraries WHERE groupId = ?]: the library of the
    group; with several libraries of one group, the first of them in the
    order of [rows]. *)
Definition library_of_group (groupId : string) (d : Db) : option Library :=
  first_row (fun l => bool_decide (Library.groupId l = Some groupId)) (libraries d).

(** The duplicate check:
    [SELECT a.* FROM attachments a JOIN items i ON a.itemId = i.id
     WHERE a.checksum = ? AND i.libraryId = ? AND i.deleted = 0] *)
Definition is_duplicate (d : Db) (checksum libraryId : string) (a : Attachment) : bool :=
  String.eqb (Attachment.checksum a) checksum
  && match items d !! Attachment.itemId a with
     | Some i => String.eqb (ItemRow.libraryId i) libraryId && (ItemRow.deleted i =? 0)
     | None => false
     end.

Definition find_duplicate (checksum libraryId : string) (d : Db) : option Attachment :=
  first_row (is_duplicate d checksum libraryId) (attachments d).

(** The stub item of a new PDF:
    [INSERT INTO items (id, libraryId, title, createdBy, itemType)]. *)
Definition pdf_item_row (id libraryId filename user now : string) : ItemRow :=
  ItemRow.mk id libraryId default_itemType
    (Some (strip_pdf_extension filename))
    None None None None None None None None None None None
    (Some user) now now default_version 0.

(** [INSERT INTO annotation_sets (id, attachmentId, createdBy)] *)
Definition new_annotation_set_row (id attachmentId user now : string)
  : AnnotationSetRow :=
  AnnotationSetRow.mk id attachmentId default_annotations None None 1 0 0
    (Some user) now now.

(** [INSERT INTO upload_queue (id, type, targetId, localPath, status)] *)
Definition new_upload_row (id : string) (type : UploadType) (targetId : string)
    (localPath : option string) (now : string) : UploadQueueEntry :=
  UploadQueueEntry.mk id type targetId localPath pending 0 default_maxRetries
    None now None.

Definition insert_pdf_item (itemId libraryId filename : string) : M unit :=
  user <- current_user ;;
  now <- now_sql ;;
  insert_item (pdf_item_row itemId libraryId filename user now).

Definition insert_new_annotation_set (attachmentId : string) : M unit :=
  id <- new_uuid ;;
  user <- current_user ;;
  now <- now_sql ;;
  insert_annotation_set (new_annotation_set_row id attachmentId user now).

(** The [catch] branch of the upload: item, attachment without Drive
    identifiers, annotation set and a queued upload, in one transaction. *)
Definition add_pdf_queued (library : Library) (localPdfPath filename checksum : string)
    (size : Z) : M (option Item) :=
  queueId <- new_uuid ;;
  itemId <- new_uuid ;;
  attachmentId <- new_uuid ;;
  transaction
    (insert_pdf_item itemId (Library.id library) filename ;;;
     (user <- current_user ;;
      now <- now_sql ;;
      insert_attachment
        (Attachment.mk attachmentId itemId filename default_mime (Some size)
           checksum None None None None None (Some user) now now
           default_version)) ;;;
     insert_new_annotation_set attachmentId ;;;
     (now <- now_sql ;;
      insert_upload (new_upload_row queueId pdf attachmentId (Some localPdfPath) now))) ;;;
  external (storePdf checksum localPdfPath) ;;;
  getItem itemId.

(** Steps 6 and 7: the upload succeeded. A bound parameter that is
    [undefined] ([driveFile.parents[0]] of an empty array) makes the
    statement throw. *)
Definition add_pdf_uploaded (library : Library) (localPdfPath filename checksum : string)
    (size : Z) (driveFile : DriveFileMetadata) : M (option Item) :=
  itemId <- new_uuid ;;
  attachmentId <- new_uuid ;;
  transaction
    (insert_pdf_item itemId (Library.id library) filename ;;;
     (user <- current_user ;;
      match head (DriveFileMetadata.parents driveFile) with
      | None => throw (TypeError "SQLite3 can only bind numbers, strings, bigints, buffers, and null")
      | Some parent =>
          now <- now_sql ;;
          insert_attachment
            (Attachment.mk attachmentId itemId filename default_mime (Some size)
               checksum (Some (DriveFileMetadata.id driveFile)) (Some parent)
               (Library.driveRootId library)
               (Some (DriveFileMetadata.webViewLink driveFile))
               (Some (DriveFileMetadata.headRevisionId driveFile))
               (Some user) now now default_version)
      end) ;;;
     insert_new_annotation_set attachmentId) ;;;
  external (storePdf checksum localPdfPath) ;;;
  getItem itemId.

(** Step 5, inside the [try]. *)
Definition upload_pdf (library : Library) (localPdfPath filename checksum : string)
  : M DriveFileMetadata :=
  pdfsFolderId <- drive (EnsureFolder (Library.driveRootId library) "pdfs")
                    (ensureFolder (Library.driveRootId library) "pdfs") ;;
  let options :=
    DriveUploadOptions.mk (buildDriveFileName checksum filename)
      "application/pdf" [pdfsFolderId] (Some localPdfPath) None in
  drive (UploadResumable options) (uploadResumable options).

Definition addPdfToGroup (groupId localPdfPath : string) : M (option Item) :=
  present <- gets (fun w => fs_existsSync localPdfPath (ext w)) ;;
  if negb present
  then throw (NotFoundError ("File not found: " ++ localPdfPath))
  else
    checksum <- external (computeSHA256 localPdfPath) ;;
    size <- (x <- gets ext ;; lift_result (of_rejection (fs_statSync_size localPdfPath x))) ;;
    let filename := path_basename localPdfPath in
    library <- gets (fun w => library_of_group groupId (db w)) ;;
    match library with
    | None => throw (NotFoundError ("Group library not found for group: " ++ groupId))
    | Some library =>
        existing <- gets (fun w => find_duplicate checksum (Library.id library) (db w)) ;;
        match existing with
        | Some existing =>
            throw (DuplicateError ("PDF already exists in this group library: "
                                   ++ Attachment.filename existing))
        | None =>
            uploaded <- settle (upload_pdf library localPdfPath filename checksum) ;;
            match uploaded with
            | Throws _ => add_pdf_queued library localPdfPath filename checksum size
            | Returns driveFile =>
                add_pdf_uploaded library localPdfPath filename checksum size driveFile
            end
        end
    end.

(** *** saveAnnotations *)

(** [SELECT * FROM annotation_sets WHERE attachmentId = ?] *)
Definition annotation_set_of (attachmentId : string) (d : Db) : option AnnotationSetRow :=
  first_row (fun r => String.eqb (AnnotationSetRow.attachmentId r) attachmentId)
    (annotation_sets d).

(** [SET annotations = ?, localVersion = ?, isDirty = 1, modifiedAt = datetime('now')] *)
Definition saved_locally (annotations : string) (newVersion : Z) (now : string)
    (r : AnnotationSetRow) : AnnotationSetRow :=
  AnnotationSetRow.mk (AnnotationSetRow.id r) (AnnotationSetRow.attachmentId r)
    annotations (AnnotationSetRow.driveFileId r) (AnnotationSetRow.driveRevision r)
    newVersion (AnnotationSetRow.remoteVersion r) 1
    (AnnotationSetRow.createdBy r) (AnnotationSetRow.createdAt r) now.

(** [SET driveRevision = ?, remoteVersion = ?, isDirty = 0, localVersion = ?] *)
Definition synced_update (revision : string) (version : Z) (r : AnnotationSetRow)
  : AnnotationSetRow :=
  AnnotationSetRow.mk (AnnotationSetRow.id r) (AnnotationSetRow.attachmentId r)
    (AnnotationSetRow.annotations r) (AnnotationSetRow.driveFileId r) (Some revision)
    version version 0
    (AnnotationSetRow.createdBy r) (AnnotationSetRow.createdAt r)
    (AnnotationSetRow.modifiedAt r).

(** [SET driveFileId = ?, driveRevision = ?, remoteVersion = ?, isDirty = 0] *)
Definition synced_create (fileId revision : string) (version : Z)
    (r : AnnotationSetRow) : AnnotationSetRow :=
  AnnotationSetRow.mk (AnnotationSetRow.id r) (AnnotationSetRow.attachmentId r)
    (AnnotationSetRow.annotations r) (Some fileId) (Some revision)
    (AnnotationSetRow.localVersion r) version 0
    (AnnotationSetRow.createdBy r) (AnnotationSetRow.createdAt r)
    (AnnotationSetRow.modifiedAt r).

(** [SET driveRevision = ?, remoteVersion = ?, isDirty = 0] *)
Definition synced_queue_update (revision : string) (version : Z)
    (r : AnnotationSetRow) : AnnotationSetRow :=
  AnnotationSetRow.mk (AnnotationSetRow.id r) (AnnotationSetRow.attachmentId r)
    (AnnotationSetRow.annotations r) (AnnotationSetRow.driveFileId r) (Some revision)
    (AnnotationSetRow.localVersion r) version 0
    (AnnotationSetRow.createdBy r) (AnnotationSetRow.createdAt r)
    (AnnotationSetRow.modifiedAt r).

(** The sidecar [saveAnnotations] sends when it updates an existing file:
    the local one, or the merge with the remote one when the revision of
    the file is not the recorded one. *)
Definition reconcile (sidecarData : AnnotationSidecar) (fileId : string)
    (driveRevision : option string) : M AnnotationSidecar :=
  remoteMeta <- drive (GetFileMetadata fileId) (getFileMetadata fileId) ;;
  if bool_decide (Some (DriveFileMetadata.headRevisionId remoteMeta) <> driveRevision)
  then
    remoteData <- drive (DownloadJSON fileId) (downloadJSON fileId) ;;
    let merged :=
      mergeAnnotations (AnnotationSidecar.annotations sidecarData)
        (AnnotationSidecar.annotations remoteData) in
    ret (AnnotationSidecar.mk
           (AnnotationSidecar.schemaVersion sidecarData)
           (AnnotationSidecar.attachmentId sidecarData)
           (AnnotationSidecar.lastModified sidecarData)
           (Z.max (AnnotationSidecar.version sidecarData)
                  (AnnotationSidecar.version remoteData) + 1)
           (AnnotationSidecar.createdBy sidecarData)
           merged)
  else ret sidecarData.

(** The body of the [try] of [saveAnnotations]. *)
Definition upload_annotations (attachmentId : string) (annotations : list Annotation)
    (annotationSet : AnnotationSet) (newVersion : Z) : M unit :=
  attachment <- getAttachment attachmentId ;;
  match attachment with
  | None => throw (NotFoundError "Attachment not found")
  | Some attachment =>
      item <- getItem (Attachment.itemId attachment) ;;
      match item with
      | None => throw (NotFoundError "Item not found")
      | Some item =>
          library <- getLibrary (Item.libraryId item) ;;
          let driveRootId := library ≫= Library.driveRootId in
          if negb (truthy driveRootId)
          then ret tt
          else
            lastModified <- now_iso ;;
            user <- current_user ;;
            let sidecarData :=
              AnnotationSidecar.mk 1 attachmentId lastModified newVersion user
                annotations in
            annotationsFolderId <-
              drive (EnsureFolder driveRootId "annotations")
                (ensureFolder driveRootId "annotations") ;;
            match as_truthy (AnnotationSet.driveFileId annotationSet) with
            | Some fileId =>
              sidecarData <- reconcile sidecarData fileId
                               (AnnotationSet.driveRevision annotationSet) ;;
              let content := stringify 2 sidecarData in
              updated <- drive (UpdateFile fileId content "application/json")
                           (updateFile fileId content "application/json") ;;
              update_annotation_set (AnnotationSet.id annotationSet)
                (synced_update (DriveFileMetadata.headRevisionId updated)
                   (AnnotationSidecar.version sidecarData))
            | None =>
              let options :=
                DriveUploadOptions.mk (attachmentId ++ ".json") "application/json"
                  [annotationsFolderId] None (Some (stringify 2 sidecarData)) in
              driveFile <- drive (CreateFile options) (createFile options) ;;
              update_annotation_set (AnnotationSet.id annotationSet)
                (synced_create (DriveFileMetadata.id driveFile)
                   (DriveFileMetadata.headRevisionId driveFile) newVersion)
            end
      end
  end.

Definition saveAnnotations (attachmentId : string) (annotations : list Annotation)
  : M unit :=
  annRow <- gets (fun w => annotation_set_of attachmentId (db w)) ;;
  match annRow with
  | None => throw (NotFoundError "Annotation set not found")
  | Some annRow =>
      annotationSet <- lift_result (rowToAnnotationSet annRow) ;;
      let newVersion := AnnotationSet.localVersion annotationSet + 1 in
      now <- now_sql ;;
      update_annotation_set (AnnotationSet.id annotationSet)
        (saved_locally (stringify 0 annotations) newVersion now) ;;;
      try_catch
        (upload_annotations attachmentId annotations annotationSet newVersion)
        (fun _ =>
           id <- new_uuid ;;
           now <- now_sql ;;
           insert_upload
             (new_upload_row id annotation (AnnotationSet.id annotationSet) None now))
  end.
End LibraryService.


(** ** library.service.ts: libraries, listings and the viewer *)

(** [isValid] of [ICacheService], which only [openPdfForAnnotate] calls. *)
Class ICacheValidation (X : Type) := {
  isValid : string -> string -> X -> (bool + Rejection) * X }.

Module ViewerSession.
Record t := mk {
  pdfPath : string;
  annotations : list Annotation;
  annotationSetId : string;
  attachmentId : string }.
End ViewerSession.
Abbreviation ViewerSession := ViewerSession.t.

(** The sign of the comparison of two strings, as a comparator. *)
Definition compare_strings (a b : string) : Z :=
  match String.compare a b with
  | Lt => -1
  | Eq => 0
  | Gt => 1
  end.

(** [ORDER BY] on a column that may be [NULL]: [NULL] sorts first. *)
Definition compare_nullable (a b : option string) : Z :=
  match a, b with
  | None, None => 0
  | None, Some _ => -1
  | Some _, None => 1
  | Some a, Some b => compare_strings a b
  end.

(** [rows.map(f)] for an [f] that may throw: the first throw ends it. *)
Fixpoint map_result {A B} (f : A -> result B) (l : list A) : result (list B) :=
  match l with
  | [] => Returns []
  | a :: l' =>
      match f a with
      | Throws e => Throws e
      | Returns b =>
          match map_result f l' with
          | Throws e => Throws e
          | Returns bs => Returns (b :: bs)
          end
      end
  end.

(** [WHERE libraryId = ? AND deleted = 0] *)
Definition is_listed (libraryId : string) (row : ItemRow) : bool :=
  String.eqb (ItemRow.libraryId row) libraryId && (ItemRow.deleted row =? 0).

(** [SELECT * FROM items WHERE libraryId = ? AND deleted = 0 ORDER BY title];
    rows of the same title keep the order of the scan. *)
Definition listed_rows (libraryId : string) (d : Db) : list ItemRow :=
  array_sort (fun a b => compare_nullable (ItemRow.title a) (ItemRow.title b))
    (List.filter (is_listed libraryId) (rows (items d))).

(** [SET annotations = ?, driveRevision = ?, remoteVersion = ?] *)
Definition merged_on_open (annotations revision : string) (version : Z)
    (r : AnnotationSetRow) : AnnotationSetRow :=
  AnnotationSetRow.mk (AnnotationSetRow.id r) (AnnotationSetRow.attachmentId r)
    annotations (AnnotationSetRow.driveFileId r) (Some revision)
    (AnnotationSetRow.localVersion r) version (AnnotationSetRow.isDirty r)
    (AnnotationSetRow.createdBy r) (AnnotationSetRow.createdAt r)
    (AnnotationSetRow.modifiedAt r).

Section LibraryServiceMore.
Context {X : Type}.
Context `{!IDriveService X, !ICacheService X, !IBackendApi X, !Platform X}.
Context `{!ICacheValidation X}.
Context `{!Formats}.
Context `{!JSON (list Author), !JSON (list string), !JSON JsonValue}.
Context `{!JSON (list Annotation), !JSON AnnotationSidecar}.

Abbreviation M := (ST (World X)).

(** [INSERT INTO libraries (id, name, type, groupId)]: no Drive root, the
    dates at their defaults. *)
Definition new_library_row (id name : string) (type : LibraryType)
    (groupId : option string) (now : string) : Library :=
  Library.mk id name type groupId None now now.

Definition insert_library (row : Library) : M unit :=
  d <- gets db ;;
  match libraries d !! Library.id row with
  | Some _ => throw (unique_failed "libraries.id")
  | None => write (with_libraries (insert (Library.id row) row))
  end.

Definition createLibrary (name : string) (type : LibraryType)
    (groupId : option string) : M (option Library) :=
  id <- new_uuid ;;
  now <- now_sql ;;
  insert_library (new_library_row id name type groupId now) ;;;
  getLibrary id.

(** [SELECT * FROM libraries ORDER BY name] *)
Definition listLibraries : M (list Library) :=
  gets (fun w =>
          array_sort (fun a b => compare_strings (Library.name a) (Library.name b))
            (rows (libraries (db w)))).

Definition listItems (libraryId : string) : M (list Item) :=
  rows <- gets (fun w => listed_rows libraryId (db w)) ;;
  lift_result (map_result rowToItem rows).

(** *** openPdfForAnnotate *)

(** Step 1: the path of the PDF in the cache, after a download when the
    cache has no valid copy. *)
Definition ensure_cached (attachment : Attachment) : M string :=
  localPath <- gets (fun w => getPdfPath (Attachment.checksum attachment) (ext w)) ;;
  usable <-
    match as_truthy localPath with
    | None => ret None
    | Some path =>
        valid <- external (isValid path (Attachment.checksum attachment)) ;;
        ret (if valid then Some path else None)
    end ;;
  match usable with
  | Some path => ret path
  | None =>
      match as_truthy (Attachment.driveFileId attachment) with
      | None => throw (NotFoundError "PDF not uploaded to Drive yet and not in cache")
      | Some fileId =>
          localPath <- gets (fun w => allocatePath (Attachment.checksum attachment) (ext w)) ;;
          drive (DownloadFile fileId localPath) (downloadFile fileId localPath) ;;;
          downloadedHash <- external (computeSHA256 localPath) ;;
          if negb (String.eqb downloadedHash (Attachment.checksum attachment))
          then throw (IntegrityError "Downloaded file checksum mismatch")
          else ret localPath
      end
  end.

(** Step 3, inside the [try]: the annotations to show, merged with the
    remote ones and stored when the file on the Drive has moved on. *)
Definition refresh_annotations (annotationSet : AnnotationSet) (fileId : string)
  : M (list Annotation) :=
  remoteMeta <- drive (GetFileMetadata fileId) (getFileMetadata fileId) ;;
  if bool_decide (Some (DriveFileMetadata.headRevisionId remoteMeta)
                  <> AnnotationSet.driveRevision annotationSet)
  then
    remoteData <- drive (DownloadJSON fileId) (downloadJSON fileId) ;;
    let annotations :=
      mergeAnnotations (AnnotationSet.annotations annotationSet)
        (AnnotationSidecar.annotations remoteData) in
    update_annotation_set (AnnotationSet.id annotationSet)
      (merged_on_open (stringify 0 annotations)
         (DriveFileMetadata.headRevisionId remoteMeta)
         (AnnotationSidecar.version remoteData)) ;;;
    ret annotations
  else ret (AnnotationSet.annotations annotationSet).

Definition openPdfForAnnotate (attachmentId : string) : M ViewerSession :=
  attachment <- getAttachment attachmentId ;;
  match attachment with
  | None => throw (NotFoundError "Attachment not found")
  | Some attachment =>
      localPath <- ensure_cached attachment ;;
      annRow <- gets (fun w => annotation_set_of attachmentId (db w)) ;;
      match annRow with
      | None => throw (NotFoundError "Annotation set not found")
      | Some annRow =>
          annotationSet <- lift_result (rowToAnnotationSet annRow) ;;
          annotations <-
            match as_truthy (AnnotationSet.driveFileId annotationSet) with
            | None => ret (AnnotationSet.annotations annotationSet)
            | Some fileId =>
                try_catch (refresh_annotations annotationSet fileId)
                  (fun _ => ret (AnnotationSet.annotations annotationSet))
            end ;;
          ret (ViewerSession.mk localPath annotations
                 (AnnotationSet.id annotationSet) attachmentId)
      end
  end.
End LibraryServiceMore.

(** ** drive.service.ts: withRetry *)

Definition MAX_RETRIES : Z := 5.
Definition BASE_DELAY_MS : Z := 1000.

(** What [withRetry] rejects with: the last error, or [undefined] when
    the loop made no attempt. *)
Inductive Thrown :=
| ThrownError (e : Exn)
| ThrownUndefined.

Section WithRetry.
Context {St A : Type}.
(** [fn], on the state it works on. *)
Variable fn : St -> result A * St.
(** The passing of [delay] milliseconds:
    [await new Promise((resolve) => setTimeout(resolve, delay))]. *)
Variable wait : Z -> St -> St.
(** Whether a value a collaborator rejected with is an [Error]. *)
Variable instanceof_Error : Rejection -> bool.

(** [err instanceof Error ? err : new Error(String(err))] *)
Definition as_Error (err : Exn) : Exn :=
  match err with
  | Rejected r => if instanceof_Error r then err else Error (rej_message r)
  | _ => err
  end.

(** The [for] loop with [n] iterations to go, the next of them with the
    counter at [attempt], and the [throw] after it. *)
Fixpoint retry_from (maxRetries : Z) (n : nat) (attempt : Z)
    (lastError : option Exn) (s : St) : (A + Thrown) * St :=
  match n with
  | O =>
      (inr match lastError with
           | Some e => ThrownError e
           | None => ThrownUndefined
           end, s)
  | S n' =>
      match fn s with
      | (Returns a, s') => (inl a, s')
      | (Throws err, s') =>
          let s'' :=
            if attempt <? maxRetries
            then wait (BASE_DELAY_MS * 2 ^ attempt) s'
            else s' in
          retry_from maxRetries n' (attempt + 1) (Some (as_Error err)) s''
      end
  end.

(** [attempt] runs from 0 while [attempt <= maxRetries]: that is
    [maxRetries + 1] iterations, none when [maxRetries] is negative. *)
Definition withRetry (maxRetries : option Z) (s : St) : (A + Thrown) * St :=
  let maxRetries := default MAX_RETRIES maxRetries in
  retry_from maxRetries (Z.to_nat (maxRetries + 1)) 0 None s.
End WithRetry.

(** ** citation.service.ts: BibTeX export

    Strings are sequences of code units below 256. *)

(** The item types that are keys of the table. *)
Definition ITEM_TYPE_TO_BIBTEX : list (string * string) :=
  [("journalArticle", "article"); ("book", "book"); ("bookSection", "incollection");
   ("conferencePaper", "inproceedings"); ("thesis", "phdthesis");
   ("report", "techreport"); ("webpage", "misc"); ("preprint", "unpublished");
   ("patent", "misc"); ("other", "misc")].

Definition backslash : ascii := "\"%char.
Definition newline : string := String (ascii_of_nat 10) "".

(** The class [[&%$#_{}~^]]. *)
Definition bibtex_special (c : ascii) : bool :=
  List.existsb (Ascii.eqb c) ["&"; "%"; "$"; "#"; "_"; "{"; "}"; "~"; "^"]%char.

(** [.replace(/\\/g, '\\textbackslash{}')] *)
Fixpoint replace_backslashes (s : string) : string :=
  match s with
  | EmptyString => EmptyString
  | String c s' =>
      if Ascii.eqb c backslash
      then String backslash "textbackslash{}" ++ replace_backslashes s'
      else String c (replace_backslashes s')
  end.

(** The second [replace]: a backslash goes in front of every character of
    the class. *)
Fixpoint escape_specials (s : string) : string :=
  match s with
  | EmptyString => EmptyString
  | String c s' =>
      if bibtex_special c
      then String backslash (String c (escape_specials s'))
      else String c (escape_specials s')
  end.

Definition escapeBibtex (value : string) : string :=
  escape_specials (replace_backslashes value).

(** [.replace(/\s+/g, '')] *)
Fixpoint remove_white_space (s : string) : string :=
  match s with
  | EmptyString => EmptyString
  | String c s' =>
      if white_space c then remove_white_space s' else String c (remove_white_space s')
  end.

(** [String.fromCharCode(n)], for the code units below 256. *)
Definition fromCharCode (n : Z) : option string :=
  if (0 <=? n) && (n <? 256) then Some (String (ascii_of_N (Z.to_N n)) "") else None.

(** [base] of [generateCiteKey]. *)
Definition cite_key_base (item : Item) : string :=
  let firstAuthor :=
    match Item.authors item with
    | a :: _ => Author.family a
    | [] => "Unknown"
    end in
  let year := default "nd" (Item.year item) in
  remove_white_space firstAuthor ++ year.

(** The [while] loop of [generateCiteKey], entered with [key] and
    [suffix], with [n] suffixes left to try. The loop ends when it finds
    a key that is free; the embedding follows it as long as the letter of
    the suffix is a code unit below 256 and answers [None] beyond. *)
Fixpoint next_free_key (n : nat) (base : string) (suffix : Z) (key : string)
    (existingKeys : gset string) : option string :=
  if bool_decide (key ∈ existingKeys)
  then
    match n with
    | O => None
    | S n' =>
        match fromCharCode (96 + (suffix + 1)) with
        | None => None
        | Some letter =>
            next_free_key n' base (suffix + 1) (base ++ letter) existingKeys
        end
    end
  else Some key.

(** The key, and the set of keys with the key added. The loop is given
    as many suffixes as the set has keys: one more key than that cannot
    all be taken. *)
Definition generateCiteKey (item : Item) (existingKeys : gset string)
  : option (string * gset string) :=
  let base := cite_key_base item in
  match next_free_key (size existingKeys) base 0 base existingKeys with
  | None => None
  | Some key => Some (key, {[ key ]} ∪ existingKeys)
  end.

Definition bibtex_field (name value : string) : string :=
  "  " ++ name ++ " = {" ++ value ++ "}".

(** [if (value) fields.push(...)] *)
Definition field_if (name : string) (value : option string)
    (shown : string -> string) : list string :=
  match as_truthy value with
  | Some v => [bibtex_field name (shown v)]
  | None => []
  end.

Definition bibtex_author (a : Author) : string :=
  escapeBibtex (Author.family a) ++ ", " ++ escapeBibtex (Author.given a).

Definition bibtex_fields (item : Item) : list string :=
  field_if "title" (Item.title item) escapeBibtex
  ++ match Item.authors item with
     | [] => []
     | authors =>
         [bibtex_field "author" (String.concat " and " (List.map bibtex_author authors))]
     end
  ++ field_if "year" (Item.year item) id
  ++ field_if "journal" (Item.journal item) escapeBibtex
  ++ field_if "volume" (Item.volume item) id
  ++ field_if "number" (Item.issue item) id
  ++ field_if "pages" (Item.pages item) escapeBibtex
  ++ field_if "doi" (Item.doi item) id
  ++ field_if "isbn" (Item.isbn item) id.

(** The names that every object answers to. An [itemType] is whatever
    string the row holds: for one of these names the lookup in the table
    finds a member of [Object.prototype], which is neither an entry type
    nor [undefined]. *)
Definition OBJECT_MEMBERS : list string :=
  ["constructor"; "hasOwnProperty"; "isPrototypeOf"; "propertyIsEnumerable";
   "toLocaleString"; "toString"; "valueOf"; "__proto__"; "__defineGetter__";
   "__defineSetter__"; "__lookupGetter__"; "__lookupSetter__"].

(** [ITEM_TYPE_TO_BIBTEX[itemType] ?? 'misc']; the embedding does not
    follow the lookup of an inherited member and answers [None] there. *)
Definition bibtex_entry_type (itemType : string) : option string :=
  if List.existsb (String.eqb itemType) OBJECT_MEMBERS then None
  else Some (default "misc" (assoc_get itemType ITEM_TYPE_TO_BIBTEX)).

(** The template literal that [itemToBibtex] returns. *)
Definition bibtex_entry (entryType : string) (item : Item) (citeKey : string) : string :=
  "@" ++ entryType ++ "{" ++ citeKey ++ "," ++ newline
  ++ String.concat ("," ++ newline) (bibtex_fields item) ++ newline ++ "}".

Definition itemToBibtex (item : Item) (citeKey : string) : option string :=
  match bibtex_entry_type (Item.itemType item) with
  | None => None
  | Some entryType => Some (bibtex_entry entryType item citeKey)
  end.

(** The [map] of [exportBibtex], which threads the set of keys. *)
Fixpoint export_entries (items : list Item) (keys : gset string)
  : option (list string) :=
  match items with
  | [] => Some []
  | item :: rest =>
      match generateCiteKey item keys with
      | None => None
      | Some (key, keys') =>
          match itemToBibtex item key with
          | None => None
          | Some entry =>
              match export_entries rest keys' with
              | None => None
              | Some entries => Some (entry :: entries)
              end
          end
      end
  end.

Definition is_live (item : Item) : bool := negb (Item.deleted item).

Definition exportBibtex (items : list Item) : option string :=
  match export_entries (List.filter is_live items) ∅ with
  | None => None
  | Some entries => Some (String.concat (newline ++ newline) entries)
  end.
(** ** sync.service.ts: SyncService *)

Definition epoch : string := "1970-01-01T00:00:00Z".
Definition lastSyncTimestamp : string := "lastSyncTimestamp".

Definition count_pushed (r : SyncResult) : SyncResult :=
  SyncResult.mk (SyncResult.pushed r + 1) (SyncResult.pulled r)
    (SyncResult.conflicts r) (SyncResult.errors r).
Definition count_pulled (r : SyncResult) : SyncResult :=
  SyncResult.mk (SyncResult.pushed r) (SyncResult.pulled r + 1)
    (SyncResult.conflicts r) (SyncResult.errors r).
Definition count_conflict (r : SyncResult) : SyncResult :=
  SyncResult.mk (SyncResult.pushed r) (SyncResult.pulled r)
    (SyncResult.conflicts r + 1) (SyncResult.errors r).
Definition count_error (r : SyncResult) : SyncResult :=
  SyncResult.mk (SyncResult.pushed r) (SyncResult.pulled r)
    (SyncResult.conflicts r) (SyncResult.errors r + 1).

(** The row the pull inserts for a remote item that is new: the nineteen
    columns it lists, [deleted] at its default. *)
Definition pulled_row (remote : ItemRow) : ItemRow :=
  ItemRow.mk (ItemRow.id remote) (ItemRow.libraryId remote)
    (ItemRow.itemType remote) (ItemRow.title remote) (ItemRow.authors remote)
    (ItemRow.year remote) (ItemRow.journal remote) (ItemRow.volume remote)
    (ItemRow.issue remote) (ItemRow.pages remote) (ItemRow.doi remote)
    (ItemRow.isbn remote) (ItemRow.abstract remote) (ItemRow.tags remote)
    (ItemRow.extra remote) (ItemRow.createdBy remote)
    (ItemRow.createdAt remote) (ItemRow.modifiedAt remote)
    (ItemRow.version remote) 0.

(** The assignments of the overwriting [UPDATE] of the pull. *)
Definition overwritten_by (remote : ItemRow) (local : ItemRow) : ItemRow :=
  ItemRow.mk (ItemRow.id local) (ItemRow.libraryId local)
    (ItemRow.itemType local) (ItemRow.title remote) (ItemRow.authors remote)
    (ItemRow.year remote) (ItemRow.journal remote) (ItemRow.volume remote)
    (ItemRow.issue remote) (ItemRow.pages remote) (ItemRow.doi remote)
    (ItemRow.isbn remote) (ItemRow.abstract remote) (ItemRow.tags remote)
    (ItemRow.extra remote) (ItemRow.createdBy local)
    (ItemRow.createdAt local) (ItemRow.modifiedAt remote)
    (ItemRow.version remote) (ItemRow.deleted remote).

(** Updates of [upload_queue] made by the drain. *)
Definition mark_completed (u : UploadQueueEntry) : UploadQueueEntry :=
  UploadQueueEntry.mk (UploadQueueEntry.id u) (UploadQueueEntry.type u)
    (UploadQueueEntry.targetId u) (UploadQueueEntry.localPath u) completed
    (UploadQueueEntry.retryCount u) (UploadQueueEntry.maxRetries u)
    (UploadQueueEntry.errorMsg u) (UploadQueueEntry.createdAt u)
    (UploadQueueEntry.nextRetryAt u).

(** [SET status = 'failed', errorMsg = ?, retryCount = ?] *)
Definition mark_failed (errMsg : string) (newRetry : Z) (u : UploadQueueEntry)
  : UploadQueueEntry :=
  UploadQueueEntry.mk (UploadQueueEntry.id u) (UploadQueueEntry.type u)
    (UploadQueueEntry.targetId u) (UploadQueueEntry.localPath u) failed
    newRetry (UploadQueueEntry.maxRetries u)
    (Some errMsg) (UploadQueueEntry.createdAt u)
    (UploadQueueEntry.nextRetryAt u).

(** [SET retryCount = ?, nextRetryAt = ?, errorMsg = ?] *)
Definition schedule_retry (newRetry : Z) (nextRetry errMsg : string)
    (u : UploadQueueEntry) : UploadQueueEntry :=
  UploadQueueEntry.mk (UploadQueueEntry.id u) (UploadQueueEntry.type u)
    (UploadQueueEntry.targetId u) (UploadQueueEntry.localPath u)
    (UploadQueueEntry.status u)
    newRetry (UploadQueueEntry.maxRetries u)
    (Some errMsg) (UploadQueueEntry.createdAt u) (Some nextRetry).

(** [SET driveFileId = ?, parentFolderId = ?, sharedDriveId = ?,
     driveWebLink = ?, driveRevision = ?] *)
Definition uploaded_attachment (driveFile : DriveFileMetadata)
    (pdfsFolderId : string) (driveRootId : option string) (a : Attachment)
  : Attachment :=
  Attachment.mk (Attachment.id a) (Attachment.itemId a) (Attachment.filename a)
    (Attachment.mime a) (Attachment.size a) (Attachment.checksum a)
    (Some (DriveFileMetadata.id driveFile)) (Some pdfsFolderId)
    driveRootId
    (Some (DriveFileMetadata.webViewLink driveFile))
    (Some (DriveFileMetadata.headRevisionId driveFile))
    (Attachment.createdBy a) (Attachment.createdAt a)
    (Attachment.modifiedAt a) (Attachment.version a).

Definition compare_createdAt (a b : UploadQueueEntry) : Z :=
  match String.compare (UploadQueueEntry.createdAt a) (UploadQueueEntry.createdAt b) with
  | Lt => -1
  | Eq => 0
  | Gt => 1
  end.

Definition is_pending (u : UploadQueueEntry) : bool :=
  match UploadQueueEntry.status u with
  | pending => true
  | _ => false
  end.

(** [SELECT * FROM upload_queue WHERE status = 'pending' ORDER BY createdAt];
    rows created at the same instant keep the order of the scan. *)
Definition pending_uploads (d : Db) : list UploadQueueEntry :=
  array_sort compare_createdAt (List.filter is_pending (rows (upload_queue d))).

(** [SELECT * FROM items WHERE modifiedAt > ?] *)
Definition local_changes (lastSync : string) (d : Db) : list ItemRow :=
  List.filter (fun r => str_gt (ItemRow.modifiedAt r) lastSync) (rows (items d)).

Section SyncService.
Context {X : Type}.
Context `{!IDriveService X, !ICacheService X, !IBackendApi X, !Platform X}.
Context `{!Formats}.
Context `{!JSON (list Author), !JSON (list string), !JSON JsonValue}.
Context `{!JSON (list Annotation), !JSON AnnotationSidecar}.

Abbreviation M := (ST (World X)).
(** The methods that count into the [result] object they share. *)
Abbreviation MR := (ST (SyncResult * World X)).

Definition last_sync (d : Db) : string :=
  match sync_state d !! lastSyncTimestamp with
  | Some row => SyncState.value row
  | None => epoch
  end.

(** *** Upload handlers *)

Definition processPdfUpload (upload : UploadQueueEntry) : M unit :=
  attachment <- gets (fun w => attachments (db w) !! UploadQueueEntry.targetId upload) ;;
  match attachment with
  | None => ret tt
  | Some attachment =>
      if truthy (Attachment.driveFileId attachment) then ret tt
      else
        item <- gets (fun w => items (db w) !! Attachment.itemId attachment) ;;
        match item with
        | None => ret tt
        | Some item =>
            library <- gets (fun w => libraries (db w) !! ItemRow.libraryId item) ;;
            let driveRootId := library ≫= Library.driveRootId in
            if negb (truthy driveRootId) then ret tt
            else
              localPath <-
                gets (fun w =>
                        coalesce (UploadQueueEntry.localPath upload)
                          (getPdfPath (Attachment.checksum attachment) (ext w))) ;;
              if negb (truthy localPath) then ret tt
              else
                pdfsFolderId <- drive (EnsureFolder driveRootId "pdfs")
                                  (ensureFolder driveRootId "pdfs") ;;
                let options :=
                  DriveUploadOptions.mk
                    (buildDriveFileName (Attachment.checksum attachment)
                       (Attachment.filename attachment))
                    "application/pdf" [pdfsFolderId] localPath None in
                driveFile <- drive (UploadResumable options) (uploadResumable options) ;;
                update_attachment (Attachment.id attachment)
                  (uploaded_attachment driveFile pdfsFolderId driveRootId)
        end
  end.

Definition processAnnotationUpload (upload : UploadQueueEntry) : M unit :=
  annRow <- gets (fun w => annotation_sets (db w) !! UploadQueueEntry.targetId upload) ;;
  match annRow with
  | None => ret tt
  | Some annRow =>
      annotationSet <- lift_result (rowToAnnotationSet annRow) ;;
      attachment <-
        gets (fun w => attachments (db w) !! AnnotationSet.attachmentId annotationSet) ;;
      match attachment with
      | None => ret tt
      | Some attachment =>
          item <- gets (fun w => items (db w) !! Attachment.itemId attachment) ;;
          match item with
          | None => ret tt
          | Some item =>
              library <- gets (fun w => libraries (db w) !! ItemRow.libraryId item) ;;
              let driveRootId := library ≫= Library.driveRootId in
              if negb (truthy driveRootId) then ret tt
              else
                annotationsFolderId <-
                  drive (EnsureFolder driveRootId "annotations")
                    (ensureFolder driveRootId "annotations") ;;
                user <- current_user ;;
                now <- now_iso ;;
                let sidecar :=
                  buildSidecar now (AnnotationSet.attachmentId annotationSet)
                    (AnnotationSet.annotations annotationSet)
                    (AnnotationSet.localVersion annotationSet) user in
                let content := stringify 2 sidecar in
                match as_truthy (AnnotationSet.driveFileId annotationSet) with
                | Some fileId =>
                  updated <- drive (UpdateFile fileId content "application/json")
                               (updateFile fileId content "application/json") ;;
                  update_annotation_set (AnnotationSet.id annotationSet)
                    (synced_queue_update (DriveFileMetadata.headRevisionId updated)
                       (AnnotationSet.localVersion annotationSet))
                | None =>
                  let options :=
                    DriveUploadOptions.mk
                      (AnnotationSet.attachmentId annotationSet ++ ".json")
                      "application/json" [annotationsFolderId] None (Some content) in
                  driveFile <- drive (CreateFile options) (createFile options) ;;
                  update_annotation_set (AnnotationSet.id annotationSet)
                    (synced_create (DriveFileMetadata.id driveFile)
                       (DriveFileMetadata.headRevisionId driveFile)
                       (AnnotationSet.localVersion annotationSet))
                end
          end
      end
  end.

(** *** processUploadQueue *)

(** The handler of an entry: nothing is done for [metadata]. *)
Definition run_handler (upload : UploadQueueEntry) : M unit :=
  match UploadQueueEntry.type upload with
  | pdf => processPdfUpload upload
  | annotation => processAnnotationUpload upload
  | metadata => ret tt
  end.

(** The [catch] branch of the drain. *)
Definition record_failure (upload : UploadQueueEntry) (err : Exn) : MR unit :=
  let newRetry := UploadQueueEntry.retryCount upload + 1 in
  let errMsg := exn_message err in
  (if UploadQueueEntry.maxRetries upload <=? newRetry
   then on_snd (update_upload (UploadQueueEntry.id upload) (mark_failed errMsg newRetry))
   else
     now <- on_snd now_ms ;;
     let nextRetry := Date_toISOString (now + 2 ^ newRetry * 1000) in
     on_snd (update_upload (UploadQueueEntry.id upload)
               (schedule_retry newRetry nextRetry errMsg))) ;;;
  on_fst count_error.

(** The body of the loop of the drain. *)
Definition process_upload (upload : UploadQueueEntry) : MR unit :=
  try_catch
    (on_snd (run_handler upload) ;;;
     on_snd (update_upload (UploadQueueEntry.id upload) mark_completed))
    (record_failure upload).

Definition processUploadQueue : MR unit :=
  pendingUploads <- on_snd (gets (fun w => pending_uploads (db w))) ;;
  for_each pendingUploads process_upload.

(** *** syncLoop *)

(** The body of the loop over the pulled items. *)
Definition pull_item (lastSync : string) (remote : ItemRow) : MR unit :=
  local <- on_snd (gets (fun w => items (db w) !! ItemRow.id remote)) ;;
  match local with
  | None =>
      on_snd (insert_item (pulled_row remote)) ;;;
      on_fst count_pulled
  | Some local =>
      if ItemRow.version local <? ItemRow.version remote
      then
        let localDirty := str_gt (ItemRow.modifiedAt local) lastSync in
        if localDirty
        then on_fst count_conflict
        else
          on_snd (update_item (ItemRow.id remote) (overwritten_by remote)) ;;;
          on_fst count_pulled
      else ret tt
  end.

Definition pull (lastSync : string) : MR unit :=
  try_catch
    (remoteChanges <- on_snd (external (getChanges lastSync)) ;;
     for_each remoteChanges (pull_item lastSync))
    (fun _ => on_fst count_error).

Definition push_item (item : ItemRow) : MR unit :=
  try_catch
    (on_snd (external (pushItem item)) ;;;
     on_fst count_pushed)
    (fun err =>
       if bool_decide (exn_status err = Some 409)
       then on_fst count_conflict
       else on_fst count_error).

Definition push (lastSync : string) : MR unit :=
  localChanges <- on_snd (gets (fun w => local_changes lastSync (db w))) ;;
  for_each localChanges push_item.

(** [INSERT OR REPLACE INTO sync_state (key, value, updatedAt)] *)
Definition commit_cursor : M unit :=
  value <- now_iso ;;
  updatedAt <- now_sql ;;
  write (with_sync_state (insert lastSyncTimestamp (SyncState.mk value updatedAt))).

Definition sync_pass : MR unit :=
  try_catch
    (lastSync <- on_snd (gets (fun w => last_sync (db w))) ;;
     pull lastSync ;;;
     push lastSync ;;;
     processUploadQueue ;;;
     on_snd commit_cursor)
    (fun _ => on_fst count_error).

Definition syncLoop : M SyncResult :=
  fun w =>
    let '(_, (result, w')) := sync_pass (SyncResult.mk 0 0 0 0, w) in
    (Returns result, w').
End SyncService.

(** ** A reference platform and test doubles

    The formats of a real platform, and in-memory collaborators in the
    style of the mocks of the test suite. The theorems below hold for every
    implementation of the interfaces; these instances run them on concrete
    inputs. *)

Definition pad2 (n : Z) : string :=
  if n <? 10 then "0" ++ pretty n else pretty n.
Definition pad3 (n : Z) : string :=
  if n <? 10 then "00" ++ pretty n
  else if n <? 100 then "0" ++ pretty n else pretty n.
Definition pad4 (n : Z) : string :=
  if n <? 1000 then "0" ++ pad3 n else pretty n.

(** Year, month and day of a day number counted from 1970-01-01
    (proleptic Gregorian calendar). *)
Definition civil_of_days (days : Z) : Z * Z * Z :=
  let z := days + 719468 in
  let era := z / 146097 in
  let doe := z - era * 146097 in
  let yoe := (doe - doe / 1460 + doe / 36524 - doe / 146096) / 365 in
  let doy := doe - (365 * yoe + yoe / 4 - yoe / 100) in
  let mp := (5 * doy + 2) / 153 in
  let d := doy - (153 * mp + 2) / 5 + 1 in
  let m := if mp <? 10 then mp + 3 else mp - 9 in
  let y := yoe + era * 400 + (if m <=? 2 then 1 else 0) in
  (y, m, d).

Definition date_part (ms : Z) : string :=
  let '(y, m, d) := civil_of_days (ms / 86400000) in
  pad4 y ++ "-" ++ pad2 m ++ "-" ++ pad2 d.

Definition time_part (ms : Z) : string :=
  let s := (ms mod 86400000) / 1000 in
  pad2 (s / 3600) ++ ":" ++ pad2 (s / 60 mod 60) ++ ":" ++ pad2 (s mod 60).

(** The text after the last slash. *)
Fixpoint basename_from (acc : string) (s : string) : string :=
  match s with
  | EmptyString => acc
  | String c s' =>
      if Ascii.eqb c "/"%char then basename_from s' s' else basename_from acc s'
  end.

(** The formats of Node and SQLite, for the years 0 to 9999 and for
    the integers that print in digits, without an exponent: those below
    10^21 in absolute value. *)
Definition reference_formats : Formats := {|
  Number_toString := pretty;
  Date_toISOString ms :=
    date_part ms ++ "T" ++ time_part ms ++ "." ++ pad3 (ms mod 1000) ++ "Z";
  sqlite_datetime ms := date_part ms ++ " " ++ time_part ms;
  path_basename p := basename_from p p |}.

(** A codec that prints with [print] and reads the texts of the values of
    [known]. *)
Definition printed_codec {A} (print : A -> string) (known : list A) : JSON A := {|
  stringify _ a := print a;
  parse text :=
    match List.find (fun a => String.eqb (print a) text) known with
    | Some a => inl a
    | None => inr ("Unexpected token in JSON: " ++ text)
    end |}.

(** A codec for parsed values, which the services never print. *)
Definition reading_codec (table : list (string * JsonValue)) : JSON JsonValue := {|
  stringify _ _ := "?";
  parse text :=
    match assoc_get text table with
    | Some a => inl a
    | None => inr ("Unexpected token in JSON: " ++ text)
    end |}.

Module Mock.
Record LocalFile := { sha256 : string; size : Z }.
Record DriveFile := { revision : string; text : string }.

(** The world outside the process. *)
Record t := mk {
  clock : Z;
  uuids : list string;
  user : string;
  local_files : list (string * LocalFile);
  cached : list string;
  online : bool;
  drive_files : list (string * DriveFile);
  backend_up : bool;
  remote_changes : list ItemRow;
  push_rejection : option Rejection }.

Definition unreachable : Rejection :=
  {| rej_status := None; rej_message := "network unreachable" |}.
Definition not_found : Rejection :=
  {| rej_status := Some 404; rej_message := "file not found" |}.

Definition with_clock (c : Z) (x : t) : t :=
  mk c (uuids x) (user x) (local_files x) (cached x) (online x)
     (drive_files x) (backend_up x) (remote_changes x) (push_rejection x).
Definition with_uuids (u : list string) (x : t) : t :=
  mk (clock x) u (user x) (local_files x) (cached x) (online x)
     (drive_files x) (backend_up x) (remote_changes x) (push_rejection x).
Definition with_cached (c : list string) (x : t) : t :=
  mk (clock x) (uuids x) (user x) (local_files x) c (online x)
     (drive_files x) (backend_up x) (remote_changes x) (push_rejection x).
Definition with_online (b : bool) (x : t) : t :=
  mk (clock x) (uuids x) (user x) (local_files x) (cached x) b
     (drive_files x) (backend_up x) (remote_changes x) (push_rejection x).
Definition with_drive_files (f : list (string * DriveFile)) (x : t) : t :=
  mk (clock x) (uuids x) (user x) (local_files x) (cached x) (online x)
     f (backend_up x) (remote_changes x) (push_rejection x).

(** When the Drive is reachable the call goes through. *)
Definition reach {A} (x : t) (r : (A + Rejection) * t) : (A + Rejection) * t :=
  if online x then r else (inr unreachable, x).

Definition metadata (fileId name : string) (revision : string) (parents : list string)
  : DriveFileMetadata :=
  DriveFileMetadata.mk fileId name "application/json" 0 revision
    ("https://drive.example/" ++ fileId) parents.

(** Writing a file gives it the next revision. *)
Definition next_revision (revision : string) : string := revision ++ "+".

Definition cache_path (checksum : string) : string :=
  "/cache/pdfs/" ++ checksum ++ ".pdf".

Section Doubles.
Context `{!JSON AnnotationSidecar}.

Definition drive_double : IDriveService t := {|
  ensureFolder parentId folderName x :=
    reach x (inl (default "null" parentId ++ "/" ++ folderName), x);
  uploadResumable options x :=
    reach x
      (inl (DriveFileMetadata.mk
              ("drive:" ++ DriveUploadOptions.name options)
              (DriveUploadOptions.name options)
              (DriveUploadOptions.mimeType options) 0 "rev-1"
              ("https://drive.example/" ++ DriveUploadOptions.name options)
              (DriveUploadOptions.parents options)), x);
  downloadFile fileId destPath x := reach x (inl tt, x);
  downloadJSON fileId x :=
    reach x
      (match assoc_get fileId (drive_files x) with
       | Some f =>
           match parse (text f) with
           | inl sidecar => inl sidecar
           | inr m => inr {| rej_status := None; rej_message := m |}
           end
       | None => inr not_found
       end, x);
  getFileMetadata fileId x :=
    reach x
      (match assoc_get fileId (drive_files x) with
       | Some f => inl (metadata fileId fileId (revision f) [])
       | None => inr not_found
       end, x);
  createFile options x :=
    let fileId := "drive:" ++ DriveUploadOptions.name options in
    reach x
      (inl (metadata fileId (DriveUploadOptions.name options) "rev-1"
              (DriveUploadOptions.parents options)),
       with_drive_files
         (map_set fileId
            {| revision := "rev-1";
               text := default "" (DriveUploadOptions.content options) |}
            (drive_files x)) x);
  updateFile fileId content mimeType x :=
    reach x
      (match assoc_get fileId (drive_files x) with
       | Some f =>
           (inl (metadata fileId fileId (next_revision (revision f)) []),
            with_drive_files
              (map_set fileId
                 {| revision := next_revision (revision f); text := content |}
                 (drive_files x)) x)
       | None => (inr not_found, x)
       end);
  isOnline x := (inl (online x), x) |}.
End Doubles.

Definition cache_double : ICacheService t := {|
  getPdfPath checksum x :=
    if bool_decide (checksum ∈ cached x) then Some (cache_path checksum) else None;
  allocatePath checksum x := cache_path checksum;
  storePdf checksum sourcePath x :=
    (inl (cache_path checksum),
     if bool_decide (checksum ∈ cached x) then x
     else with_cached (checksum :: cached x) x) |}.

Definition backend_double : IBackendApi t := {|
  getChanges since x :=
    if backend_up x then (inl (remote_changes x), x) else (inr unreachable, x);
  pushItem item x :=
    match push_rejection x with
    | Some r => (inr r, x)
    | None => (inl tt, x)
    end |}.

(** Every reading of the clock is a millisecond later than the one
    before; identifiers come from a prepared list. *)
Definition platform_double : Platform t := {|
  Date_now x := (clock x, with_clock (clock x + 1) x);
  uuid x :=
    match uuids x with
    | u :: rest => (u, with_uuids rest x)
    | [] => ("00000000-0000-4000-8000-000000000000", x)
    end;
  currentUserId x := user x;
  fs_existsSync path x :=
    match assoc_get path (local_files x) with
    | Some _ => true
    | None => false
    end;
  fs_statSync_size path x :=
    match assoc_get path (local_files x) with
    | Some f => inl (size f)
    | None => inr {| rej_status := None; rej_message := "ENOENT" |}
    end;
  computeSHA256 path x :=
    (match assoc_get path (local_files x) with
     | Some f => inl (sha256 f)
     | None => inr {| rej_status := None; rej_message := "ENOENT" |}
     end, x) |}.
End Mock.

(** ** Notions used by the statements below *)

(** The annotation carries the id [k]. *)
Definition has_id (k : string) (a : Annotation) : bool :=
  String.eqb (Annotation.id a) k.

(** [a] comes before or level with [b] in the order of the output: an
    earlier page, or the same page and a vertical position at least as
    high. *)
Definition in_reading_order (a b : Annotation) : Prop :=
  Annotation.page a < Annotation.page b
  \/ (Annotation.page a = Annotation.page b
      /\ vertical_position b <= vertical_position a).

(** Every entry of the map is filed under the id of its annotation, and no
    key occurs twice. *)
Definition keyed_by_id (m : JsMap Annotation) : Prop :=
  List.NoDup (List.map fst m) /\ Forall (fun kv => Annotation.id (snd kv) = fst kv) m.

(** The winner of the comparison between the local-seeded [a] and the
    remote [b]. *)
Definition winner (a b : Annotation) : Annotation :=
  if str_gt (Annotation.modifiedAt b) (Annotation.modifiedAt a) then b else a.

(** [JSON.parse(JSON.stringify(a))] gives [a] back, and the text is not
    empty. *)
Definition round_trips {A} `{!JSON A} (a : A) : Prop :=
  stringify 0 a <> "" /\ parse (stringify 0 a) = inl a.

(** The item a caller expects from [createItem]: the fields given, the
    others empty, version 1, not deleted. *)
Definition created_item (id libraryId : string) (data : NewItem)
    (user now : string) : Item :=
  Item.mk id libraryId (default default_itemType (NewItem.itemType data))
    (NewItem.title data) (default [] (NewItem.authors data))
    (NewItem.year data) (NewItem.journal data) (NewItem.volume data)
    (NewItem.issue data) (NewItem.pages data) (NewItem.doi data)
    (NewItem.isbn data) (NewItem.abstract data)
    (default [] (NewItem.tags data)) (JObject []) (Some user) now now 1 false.

(** The item a caller expects from [updateItem]: the fields given replace
    the prior ones, the fields not given keep their prior value, the
    version is one more. *)
Definition updated_item (data : PartialItem) (existing : Item) (now : string) : Item :=
  Item.mk (Item.id existing) (Item.libraryId existing) (Item.itemType existing)
    (coalesce (PartialItem.title data) (Item.title existing))
    (default (Item.authors existing) (PartialItem.authors data))
    (coalesce (PartialItem.year data) (Item.year existing))
    (coalesce (PartialItem.journal data) (Item.journal existing))
    (coalesce (PartialItem.volume data) (Item.volume existing))
    (coalesce (PartialItem.issue data) (Item.issue existing))
    (coalesce (PartialItem.pages data) (Item.pages existing))
    (coalesce (PartialItem.doi data) (Item.doi existing))
    (coalesce (PartialItem.isbn data) (Item.isbn existing))
    (coalesce (PartialItem.abstract data) (Item.abstract existing))
    (default (Item.tags existing) (PartialItem.tags data))
    (Item.extra existing) (Item.createdBy existing) (Item.createdAt existing)
    now (Item.version existing + 1) (Item.deleted existing).

(** The computation never throws a [DuplicateError]. *)
Definition never_duplicate {S A} (m : ST S A) : Prop :=
  forall s message, fst (m s) <> Throws (DuplicateError message).

(** The rows of the table are filed under their own id. *)
Definition keyed {R} (id_of : R -> string) (table : gmap string R) : Prop :=
  map_Forall (fun k r => id_of r = k) table.

(** The computation only adds to the record of the calls on the Drive. *)
Definition extends_calls {X A} (m : ST (World X) A) : Prop :=
  forall w, exists calls, drive_calls (snd (m w)) = (drive_calls w ++ calls)%list.

(** The computation leaves a part of the database as it was. *)
Definition keeps {X A T} (part : Db -> T) (m : ST (World X) A) : Prop :=
  forall w, part (db (snd (m w))) = part (db w).

(** The same, for a computation that also counts into a [SyncResult]. *)
Definition keeps_counting {X A T} (part : Db -> T) (m : ST (SyncResult * World X) A)
  : Prop :=
  forall s, part (db (snd (snd (m s)))) = part (db (snd s)).

(** ** Drains of the upload queue, as the statements below speak of them *)

Section QueueSpec.
Context {X : Type}.
Context `{!IDriveService X, !ICacheService X, !IBackendApi X, !Platform X}.
Context `{!Formats}.
Context `{!JSON (list Author), !JSON (list string), !JSON JsonValue}.
Context `{!JSON (list Annotation), !JSON AnnotationSidecar}.

(** The world after one drain. *)
Definition drain (w : World X) : World X :=
  snd (snd (processUploadQueue (SyncResult.mk 0 0 0 0, w))).

(** How the handler of the entry [id] ends when the loop of a drain over
    [uploads] reaches it, and the world it leaves: the loop is run up to
    that entry. *)
Fixpoint handler_outcome (id : string) (uploads : list UploadQueueEntry)
    (s : SyncResult * World X) : option (result unit * World X) :=
  match uploads with
  | [] => None
  | upload :: rest =>
      if String.eqb (UploadQueueEntry.id upload) id
      then Some (run_handler upload (snd s))
      else handler_outcome id rest (snd (process_upload upload s))
  end.

(** The same for the drain that starts in [w]; [None] when the entry is
    not pending. *)
Definition drain_outcome (id : string) (w : World X) : option (result unit * World X) :=
  handler_outcome id (pending_uploads (db w)) (SyncResult.mk 0 0 0 0, w).

(** What a drain writes to the row of an entry, given how its handler
    ended. *)
Definition recorded (upload : UploadQueueEntry) (out : result unit * World X)
  : UploadQueueEntry -> UploadQueueEntry :=
  match fst out with
  | Returns _ => mark_completed
  | Throws err =>
      let newRetry := UploadQueueEntry.retryCount upload + 1 in
      if UploadQueueEntry.maxRetries upload <=? newRetry
      then mark_failed (exn_message err) newRetry
      else
        schedule_retry newRetry
          (Date_toISOString (fst (Date_now (ext (snd out))) + 2 ^ newRetry * 1000))
          (exn_message err)
  end.

(** [drains id w outs w']: a sequence of drains leads from [w] to [w'],
    and [outs] lists how the handler of the entry [id] ended in each.
    Between two drains anything may happen, as long as the row of the
    entry is not touched and the rows of the queue stay filed under their
    ids. *)
Inductive drains (id : string) : World X -> list (result unit) -> World X -> Prop :=
| drains_done w : drains id w [] w
| drains_next w out wh w' outs w'' :
    drain_outcome id w = Some (out, wh) ->
    upload_queue (db w') !! id = upload_queue (db (drain w)) !! id ->
    keyed UploadQueueEntry.id (upload_queue (db w')) ->
    drains id w' outs w'' ->
    drains id w (out :: outs) w''.

Definition throws {A} (r : result A) : Prop :=
  match r with
  | Throws _ => True
  | Returns _ => False
  end.
End QueueSpec.


(** ** Further notions used by the statements below *)

(** A character that [sanitizeFilename] leaves in a name: it is neither
    replaced by the first pass nor white space. *)
Definition allowed_in_filename (c : ascii) : Prop :=
  illegal_in_filename c = false /\ white_space c = false.

(** The characters of a string. *)
Fixpoint characters (s : string) : list ascii :=
  match s with
  | EmptyString => []
  | String c s' => c :: characters s'
  end.

(** What an observer of [withRetry] notes down: how each call of [fn]
    ended and each delay that was waited for. *)
Record RetryLog (A : Type) := {
  outcomes : list (result A);
  delays : list Z }.
Arguments outcomes {A} _.
Arguments delays {A} _.

Definition observed_fn {St A} (fn : St -> result A * St)
  : St * RetryLog A -> result A * (St * RetryLog A) :=
  fun sl =>
    let '(r, s') := fn (fst sl) in
    (r, (s', {| outcomes := outcomes (snd sl) ++ [r]; delays := delays (snd sl) |})).

Definition observed_wait {St A} (wait : Z -> St -> St)
  : Z -> St * RetryLog A -> St * RetryLog A :=
  fun delay sl =>
    (wait delay (fst sl),
     {| outcomes := outcomes (snd sl); delays := delays (snd sl) ++ [delay] |}).

(** The first [n] delays of the backoff: 1 s, 2 s, 4 s, ... *)
Definition backoff (n : nat) : list Z :=
  List.map (fun i => BASE_DELAY_MS * 2 ^ Z.of_nat i) (seq 0 n).

(** From [d] to [d'] no item disappears and no version decreases. *)
Definition items_grow (d d' : Db) : Prop :=
  forall id row,
    items d !! id = Some row ->
    exists row', items d' !! id = Some row'
                 /\ ItemRow.version row <= ItemRow.version row'.

(** The sum of the counters a push counts into. *)
Definition push_total (r : SyncResult) : Z :=
  SyncResult.pushed r + SyncResult.conflicts r + SyncResult.errors r.

(** The database after the computation stands in the relation [R] to the
    database before it. *)
Definition moves {X A} (R : Db -> Db -> Prop) (m : ST (World X) A) : Prop :=
  forall w, R (db w) (db (snd (m w))).

(** The annotation set [id] is still there, with the annotations and the
    attachment it had. *)
Definition set_content_stays (id : string) (d d' : Db) : Prop :=
  forall row,
    annotation_sets d !! id = Some row ->
    exists row',
      annotation_sets d' !! id = Some row'
      /\ AnnotationSetRow.annotations row' = AnnotationSetRow.annotations row
      /\ AnnotationSetRow.attachmentId row' = AnnotationSetRow.attachmentId row.

(** The order of a listing by title. *)
Definition by_title (a b : Item) : Prop :=
  compare_nullable (Item.title a) (Item.title b) <= 0.
(** ** Fixtures, after those of the test suite *)

Module Fixtures.
(** [makeHighlight] of [annotation.test.ts], with the fields the tests
    override as arguments. *)
Definition makeHighlight (id : string) (page y1 : Z) (comment modifiedAt : string)
  : Annotation :=
  Annotation.mk id highlight page (Some [Rect.mk 72 y1 540 (y1 + 12)]) None
    (Some "#FFFF00") (Some "highlighted text") None (Some comment)
    "alice@example.com" "2024-01-01T10:00:00Z" modifiedAt.

(** [makeNote] *)
Definition makeNote (id : string) (page y : Z) (content modifiedAt : string)
  : Annotation :=
  Annotation.mk id note page None (Some (Position.mk 100 y)) None None
    (Some content) None "bob@example.com" "2024-01-01T11:00:00Z" modifiedAt.

(** One annotation edited on both sides, and one added remotely. *)
Definition shared_local : Annotation :=
  makeHighlight "shared" 1 700 "local edit" "2024-01-02T00:00:00Z".
Definition shared_remote : Annotation :=
  makeHighlight "shared" 1 700 "remote edit" "2024-01-03T00:00:00Z".
Definition h1 : Annotation :=
  makeHighlight "h1" 1 700 "Alice highlight" "2024-01-01T10:00:00Z".
Definition n1 : Annotation :=
  makeNote "n1" 2 500 "Bob note" "2024-01-01T11:00:00Z".

(** Pages 2, 1, 1 with y 100, 500, 700. *)
Definition page2_y100 : Annotation :=
  makeHighlight "a" 2 100 "" "2024-01-01T10:00:00Z".
Definition page1_y500 : Annotation :=
  makeHighlight "b" 1 500 "" "2024-01-01T10:00:00Z".
Definition page1_y700 : Annotation :=
  makeHighlight "c" 1 700 "" "2024-01-01T10:00:00Z".
End Fixtures.


Module SidecarTexts.
(** The envelopes of the tests of [parseSidecar], and one that is wrong on
    both counts; the texts are given by the values [JSON.parse] builds
    from them. *)
Definition valid : JsonValue :=
  JObject [("schemaVersion", JNumber 1); ("attachmentId", JString "att-1");
           ("lastModified", JString "2024-01-01T00:00:00Z");
           ("version", JNumber 2); ("createdBy", JString "user@example.com");
           ("annotations", JArray [])].
Definition version_99 : JsonValue :=
  JObject [("schemaVersion", JNumber 99); ("attachmentId", JString "att-1");
           ("annotations", JArray [])].
Definition not_an_array : JsonValue :=
  JObject [("schemaVersion", JNumber 1); ("attachmentId", JString "att-1");
           ("annotations", JString "not-an-array")].
Definition version_99_not_an_array : JsonValue :=
  JObject [("schemaVersion", JNumber 99); ("attachmentId", JString "att-1");
           ("annotations", JString "not-an-array")].

Definition codec : JSON JsonValue :=
  reading_codec
    [("valid.json", valid); ("version-99.json", version_99);
     ("not-an-array.json", not_an_array);
     ("version-99-not-an-array.json", version_99_not_an_array)].
End SidecarTexts.

(** The collaborators and the data of the examples. *)
Module Scenario.
Import Fixtures.

Definition print_annotation (a : Annotation) : string :=
  Annotation.id a ++ "@" ++ Annotation.modifiedAt a.
Definition print_annotations (l : list Annotation) : string :=
  "[" ++ String.concat "," (List.map print_annotation l) ++ "]".
Definition print_sidecar (s : AnnotationSidecar) : string :=
  "{schemaVersion:" ++ pretty (AnnotationSidecar.schemaVersion s)
  ++ ",attachmentId:" ++ AnnotationSidecar.attachmentId s
  ++ ",lastModified:" ++ AnnotationSidecar.lastModified s
  ++ ",version:" ++ pretty (AnnotationSidecar.version s)
  ++ ",createdBy:" ++ AnnotationSidecar.createdBy s
  ++ ",annotations:" ++ print_annotations (AnnotationSidecar.annotations s) ++ "}".
Definition print_authors (l : list Author) : string :=
  "[" ++ String.concat "," (List.map (fun a => Author.family a ++ " " ++ Author.given a) l)
  ++ "]".
Definition print_tags (l : list string) : string :=
  "[" ++ String.concat "," l ++ "]".

Definition jane_doe : Author := Author.mk "Jane" "Doe".

(** Bob's sidecar on the Drive: the note [n1], version 3. *)
Definition remote_sidecar : AnnotationSidecar :=
  AnnotationSidecar.mk 1 "att-1" "2024-01-01T11:00:00.000Z" 3 "bob" [n1].

#[export] Instance formats : Formats := reference_formats.
#[export] Instance authors_codec : JSON (list Author) :=
  printed_codec print_authors [[]; [jane_doe]].
#[export] Instance tags_codec : JSON (list string) :=
  printed_codec print_tags [[]; ["nlp"]].
#[export] Instance extra_codec : JSON JsonValue :=
  reading_codec [("{}", JObject [])].
#[export] Instance annotations_codec : JSON (list Annotation) :=
  printed_codec print_annotations [[]; [h1]; [n1]; [h1; n1]].
#[export] Instance sidecar_codec : JSON AnnotationSidecar :=
  printed_codec print_sidecar [remote_sidecar].
#[export] Instance drive : IDriveService Mock.t := Mock.drive_double.
#[export] Instance cache : ICacheService Mock.t := Mock.cache_double.
#[export] Instance backend : IBackendApi Mock.t := Mock.backend_double.
#[export] Instance platform : Platform Mock.t := Mock.platform_double.

(** 2024-01-01T10:00:00.000Z *)
Definition ten_o_clock : Z := 1704103200000.

Definition outside : Mock.t :=
  Mock.mk ten_o_clock ["uuid-1"; "uuid-2"; "uuid-3"; "uuid-4"; "uuid-5"] "test-user"
    [("/home/alice/paper.pdf", {| Mock.sha256 := "abcdef1234567890"; Mock.size := 1000 |})]
    [] true [] true [] None.

Definition group_library : Library :=
  Library.mk "lib-1" "Team Lib" group (Some "group-1") (Some "root")
    "2024-01-01 09:00:00" "2024-01-01 09:00:00".

Definition empty_db : Db :=
  Build_Db {[ "lib-1" := group_library ]} ∅ ∅ ∅ ∅ ∅.

Definition start : World Mock.t := mkWorld empty_db outside [].
End Scenario.

(** Create a paper, update its title, delete it. *)
Module ItemScenario.
Import Scenario.

Definition test_paper : NewItem :=
  NewItem.mk (Some "Test Paper") (Some "journalArticle") (Some [jane_doe])
    (Some "2024") None None None None None None None None.

Definition new_title : PartialItem :=
  PartialItem.mk None None None (Some "Updated") None None None None None None
    None None None None None None None None None None.

Definition created_row : ItemRow :=
  new_item_row "uuid-1" "lib-1" test_paper "test-user" "2024-01-01 10:00:00".
Definition created : Item :=
  created_item "uuid-1" "lib-1" test_paper "test-user" "2024-01-01 10:00:00".
Definition updated_row : ItemRow :=
  updated_item_row new_title created "2024-01-01 10:00:00" created_row.

Definition after_create : World Mock.t := snd (createItem "lib-1" test_paper start).
Definition after_update : World Mock.t := snd (updateItem "uuid-1" new_title after_create).
End ItemScenario.

(** Alice and Bob annotate the same PDF offline. Bob synced first: the
    sidecar on the Drive is at revision [rev-2] and holds his note [n1].
    Alice's set still records [rev-1] and holds her highlight [h1]; her
    upload was queued while she was offline. *)
Module ConflictScenario.
Import Fixtures Scenario.

Definition paper : ItemRow :=
  pdf_item_row "item-1" "lib-1" "paper.pdf" "alice" "2024-01-01 09:00:00".

Definition paper_pdf : Attachment :=
  Attachment.mk "att-1" "item-1" "paper.pdf" default_mime (Some 1000)
    "abcdef1234567890" (Some "drive:paper.pdf") (Some "root/pdfs") (Some "root")
    (Some "https://drive.example/paper.pdf") (Some "rev-1") (Some "alice")
    "2024-01-01 09:00:00" "2024-01-01 09:00:00" 1.

Definition alice_set : AnnotationSetRow :=
  AnnotationSetRow.mk "as-1" "att-1" (print_annotations [h1]) (Some "f1")
    (Some "rev-1") 3 2 1 (Some "alice")
    "2024-01-01 09:00:00" "2024-01-01 09:30:00".

Definition queued_upload : UploadQueueEntry :=
  new_upload_row "q-1" annotation "as-1" None "2024-01-01 09:30:00".

Definition local_db : Db :=
  Build_Db {[ "lib-1" := group_library ]} {[ "item-1" := paper ]}
    {[ "att-1" := paper_pdf ]} {[ "as-1" := alice_set ]}
    {[ "q-1" := queued_upload ]} ∅.

Definition bobs_file : Mock.DriveFile :=
  {| Mock.revision := "rev-2"; Mock.text := print_sidecar remote_sidecar |}.

Definition online_again : Mock.t :=
  Mock.mk ten_o_clock ["uuid-1"; "uuid-2"] "alice" [] [] true
    [("f1", bobs_file)] true [] None.

Definition world : World Mock.t := mkWorld local_db online_again [].

(** What the drain sends: Alice's annotations alone, at her local
    version. *)
Definition sent_by_drain : AnnotationSidecar :=
  AnnotationSidecar.mk 1 "att-1" "2024-01-01T10:00:00.000Z" 3 "alice" [h1].

(** What the save path sends for the same set: the merge, at version
    [max (3 + 1) 3 + 1]. *)
Definition sent_by_save : AnnotationSidecar :=
  AnnotationSidecar.mk 1 "att-1" "2024-01-01T10:00:00.001Z" 5 "alice" [h1; n1].

Definition no_counts : SyncResult := SyncResult.mk 0 0 0 0.
End ConflictScenario.

(** Alice adds to the group a PDF whose checksum an attachment of the
    library already carries: once while the item of that attachment is
    live, once after it was soft-deleted. *)
Module DuplicateScenario.
Import Scenario ConflictScenario.

Definition path : string := "/home/alice/paper.pdf".

Definition deleted_paper : ItemRow := deleted_item_row "2024-01-01 09:45:00" paper.

Definition live_world : World Mock.t :=
  mkWorld
    (Build_Db {[ "lib-1" := group_library ]} {[ "item-1" := paper ]}
       {[ "att-1" := paper_pdf ]} ∅ ∅ ∅)
    outside [].

Definition deleted_world : World Mock.t :=
  mkWorld
    (Build_Db {[ "lib-1" := group_library ]} {[ "item-1" := deleted_paper ]}
       {[ "att-1" := paper_pdf ]} ∅ ∅ ∅)
    outside [].

(** The same world with the Drive out of reach. *)
Definition deleted_offline : World Mock.t :=
  mkWorld (db deleted_world) (Mock.with_online false (ext deleted_world)) [].
End DuplicateScenario.

(** A local item at version 2, edited on 2 January, after the last sync
    of 1 January; the backend holds version 3 of it and accepts pushes. *)
Module SyncScenario.
Import Scenario.

Definition local_item : ItemRow :=
  ItemRow.mk "item-1" "lib-1" "journalArticle" (Some "Local title")
    None (Some "2024") None None None None None None None None None
    (Some "alice") "2024-01-01T08:00:00.000Z" "2024-01-02T09:00:00.000Z" 2 0.

Definition remote_item : ItemRow :=
  ItemRow.mk "item-1" "lib-1" "journalArticle" (Some "Remote title")
    None (Some "2023") None None None None None None None None None
    (Some "alice") "2024-01-01T08:00:00.000Z" "2024-01-02T08:00:00.000Z" 3 0.

Definition last_synced : SyncState :=
  SyncState.mk "2024-01-01T00:00:00.000Z" "2024-01-01 00:00:00".

Definition local_db : Db :=
  Build_Db {[ "lib-1" := group_library ]} {[ "item-1" := local_item ]}
    ∅ ∅ ∅ {[ lastSyncTimestamp := last_synced ]}.

Definition backend_ahead : Mock.t :=
  Mock.mk 1704186000000 [] "alice" [] [] true [] true [remote_item] None.

Definition world : World Mock.t := mkWorld local_db backend_ahead [].
End SyncScenario.

(** Alice's queued upload, drained while the Drive is unreachable. *)
Module QueueScenario.
Import Scenario ConflictScenario.

Definition offline_world : World Mock.t :=
  mkWorld local_db (Mock.with_online false online_again) [].

(** The Drive is reachable again. *)
Definition reconnect (w : World Mock.t) : World Mock.t :=
  mkWorld (db w) (Mock.with_online true (ext w)) (drive_calls w).

Definition unreachable : Exn := Rejected Mock.unreachable.

Definition after_drains (n : nat) : World Mock.t := Nat.iter n drain offline_world.
End QueueScenario.

(** Texts that are no sidecar envelope. *)
Module GarbageTexts.
Definition codec : JSON JsonValue :=
  reading_codec [("null", JNull); ("42", JNumber 42); ("{}", JObject [])].
End GarbageTexts.

(** The backend reports two items that are unknown locally: one of a
    library that is unknown too, and one that was deleted remotely. *)
Module PullScenario.
Import Scenario SyncScenario.

Definition deleted_elsewhere : ItemRow :=
  ItemRow.mk "item-2" "lib-1" "book" (Some "Gone") None None None None None None
    None None None None None (Some "bob") "2024-01-01T08:00:00.000Z"
    "2024-01-02T08:00:00.000Z" 4 1.

Definition orphan : ItemRow :=
  ItemRow.mk "item-3" "lib-9" "book" (Some "Orphan") None None None None None None
    None None None None None (Some "bob") "2024-01-01T08:00:00.000Z"
    "2024-01-02T08:00:00.000Z" 1 0.

Definition since : string := "2024-01-01T00:00:00.000Z".

Definition reporting (changes : list ItemRow) : World Mock.t :=
  mkWorld local_db
    (Mock.mk 1704186000000 [] "alice" [] [] true [] true changes None) [].
End PullScenario.

(** Alice adds her paper to the group while the Drive cannot be reached,
    and the queue is drained once it can. *)
Module OfflineAddScenario.
Import Scenario.

Definition path : string := "/home/alice/paper.pdf".

Definition offline_start : World Mock.t :=
  mkWorld empty_db (Mock.with_online false outside) [].

Definition added : World Mock.t := snd (addPdfToGroup "group-1" path offline_start).

Definition queued : UploadQueueEntry :=
  new_upload_row "uuid-1" pdf "uuid-3" (Some path) "2024-01-01 10:00:00".

Definition back_online : World Mock.t :=
  mkWorld (db added) (Mock.with_online true (ext added)) (drive_calls added).

(** An entry for an attachment that does not exist. *)
Definition stray : UploadQueueEntry :=
  new_upload_row "q-9" pdf "att-9" None "2024-01-01 10:00:00".
End OfflineAddScenario.

(** Alice's queued upload after five drains without the Drive. *)
Module SettledScenario.
Definition given_up : UploadQueueEntry :=
  UploadQueueEntry.mk "q-1" annotation "as-1" None failed 5 5
    (Some "network unreachable") "2024-01-01 09:30:00"
    (Some "2024-01-01T10:00:16.003Z").
End SettledScenario.

(** Two papers in the library, the first of them then deleted. *)
Module ListingScenario.
Import Scenario ItemScenario.

Definition another_paper : NewItem :=
  NewItem.mk (Some "Another Paper") None None (Some "2023") None None None None
    None None None None.

Definition two_papers : World Mock.t := snd (createItem "lib-1" another_paper after_create).

Definition another : Item :=
  created_item "uuid-2" "lib-1" another_paper "test-user" "2024-01-01 10:00:00".

Definition one_deleted : World Mock.t := snd (deleteItem "uuid-1" two_papers).
End ListingScenario.

(** Alice's paper in a personal library, which has no Drive root. *)
Module PersonalScenario.
Import Fixtures Scenario ConflictScenario.

Definition personal_library : Library :=
  Library.mk "lib-1" "Mine" personal None None
    "2024-01-01 09:00:00" "2024-01-01 09:00:00".

Definition world : World Mock.t :=
  mkWorld
    (Build_Db {[ "lib-1" := personal_library ]} {[ "item-1" := paper ]}
       {[ "att-1" := paper_pdf ]} {[ "as-1" := alice_set ]} ∅ ∅)
    online_again [].
End PersonalScenario.

(** Opening Alice's paper in the viewer. *)
Module ViewerScenario.
Import Fixtures Scenario ConflictScenario.

(** A cached file is valid when it is the file the cache keeps for the
    checksum. *)
#[export] Instance validation : ICacheValidation Mock.t := {|
  isValid localPath expectedChecksum x :=
    (inl (String.eqb localPath (Mock.cache_path expectedChecksum)
          && bool_decide (expectedChecksum ∈ Mock.cached x)), x) |}.

Definition checksum : string := "abcdef1234567890".

(** The paper is in the cache; the Drive holds Bob's [n1]. *)
Definition cached : World Mock.t :=
  mkWorld local_db (Mock.with_cached [checksum] online_again) [].

Definition cached_offline : World Mock.t :=
  mkWorld local_db (Mock.with_online false (Mock.with_cached [checksum] online_again)) [].

(** The paper is not in the cache and what the download leaves at its
    place has another checksum. *)
Definition tampered : World Mock.t :=
  mkWorld local_db
    (Mock.mk ten_o_clock [] "alice"
       [(Mock.cache_path checksum, {| Mock.sha256 := "0000"; Mock.size := 1000 |})]
       [] true [("f1", bobs_file)] true [] None) [].

(** The paper was added offline and is gone from the cache. *)
Definition nowhere : World Mock.t :=
  mkWorld (db OfflineAddScenario.added)
    (Mock.with_cached [] (ext OfflineAddScenario.added)) [].
End ViewerScenario.

(** ** Further notions for the BibTeX export *)

(** The key that [generateCiteKey] tries after [j] keys were taken: the
    base itself, then the base with the [j]-th letter. *)
Definition candidate (base : string) (j : Z) : option string :=
  if j =? 0 then Some base
  else match fromCharCode (96 + j) with
       | Some letter => Some (base ++ letter)
       | None => None
       end.

(** The largest number of keys of a set for which every suffix the loop
    may need is a code unit below 256. *)
Definition MAX_KEYS : nat := 159.

(** The entry type of an item whose type is no inherited member: the one
    of the table, [misc] for a type the table does not have. *)
Definition entry_type_of (item : Item) : string :=
  default "misc" (assoc_get (Item.itemType item) ITEM_TYPE_TO_BIBTEX).

Definition own_type (item : Item) : Prop :=
  List.existsb (String.eqb (Item.itemType item)) OBJECT_MEMBERS = false.

Module CitationScenario.
Definition smith : Author := Author.mk "Anna" "Smith".

Definition paper (id : string) (title : option string) (authors : list Author)
    (year : option string) (deleted : bool) : Item :=
  Item.mk id "lib-1" "journalArticle" title authors year None None None None None
    None None [] (JObject []) None "2024-01-01 10:00:00" "2024-01-01 10:00:00" 1
    deleted.

Definition first : Item := paper "i1" (Some "Costs & Benefits") [smith] (Some "2024") false.
Definition second : Item := paper "i2" (Some "More_Costs") [smith] (Some "2024") false.
Definition gone : Item := paper "i3" (Some "Gone") [smith] (Some "2024") true.
Definition anonymous : Item := paper "i4" None [] None false.

Definition taken : gset string := {[ "Smith2024"; "Smith2024a" ]}.
End CitationScenario.

(** ** The reading order in the words of the design document *)

(** [y1] of the top-most rectangle: higher [y] is higher on the page, so
    it is the greatest [y1] among the rectangles. *)
Definition top_most_y1 (rects : list Rect) : option Z :=
  match rects with
  | [] => None
  | r :: rest => Some (fold_left Z.max (List.map Rect.y1 rest) (Rect.y1 r))
  end.

(** The vertical position as the document words it: the top-most
    rectangle's [y1], else the note's point [y], else 0. *)
Definition stated_vertical_position (a : Annotation) : Z :=
  match Annotation.rects a ≫= top_most_y1 with
  | Some y => y
  | None =>
      match Annotation.position a with
      | Some p => Position.y p
      | None => 0
      end
  end.

Definition in_stated_reading_order (a b : Annotation) : Prop :=
  Annotation.page a < Annotation.page b
  \/ (Annotation.page a = Annotation.page b
      /\ stated_vertical_position b <= stated_vertical_position a).

Module ReadingOrder.
(** A highlight over two lines of page 1 whose rectangles are listed
    bottom line first: at [y1] 100, then at [y1] 800. *)
Definition two_lines : Annotation :=
  Annotation.mk "a" highlight 1
    (Some [Rect.mk 72 100 540 112; Rect.mk 72 800 540 812]) None
    (Some "#FFFF00") (Some "highlighted text") None (Some "")
    "alice@example.com" "2024-01-01T10:00:00Z" "2024-01-01T10:00:00Z".
End ReadingOrder.

(** Alice creates a paper and syncs. An hour later, on the same day, she
    gives the paper a new title; in between, Bob's version 3 of the
    paper has reached the backend. Then she syncs again. *)
Module SameDayScenario.
Import Scenario ItemScenario.

(** 2024-01-01T11:00:00.000Z *)
Definition eleven_o_clock : Z := ten_o_clock + 3600000.

Definition at_clock (t : Z) (w : World Mock.t) : World Mock.t :=
  mkWorld (db w) (Mock.with_clock t (ext w)) (drive_calls w).

Definition backend_reports (changes : list ItemRow) (w : World Mock.t) : World Mock.t :=
  let x := ext w in
  mkWorld (db w)
    (Mock.mk (Mock.clock x) (Mock.uuids x) (Mock.user x) (Mock.local_files x)
       (Mock.cached x) (Mock.online x) (Mock.drive_files x) (Mock.backend_up x)
       changes (Mock.push_rejection x))
    (drive_calls w).

Definition synced : World Mock.t := snd (syncLoop after_create).

Definition edited : World Mock.t :=
  snd (updateItem "uuid-1" new_title (at_clock eleven_o_clock synced)).

Definition bobs_version : ItemRow :=
  ItemRow.mk "uuid-1" "lib-1" "journalArticle" (Some "Bob's title")
    (Some (print_authors [jane_doe])) (Some "2023") None None None None None None
    None None None (Some "test-user") "2024-01-01 10:00:00"
    "2024-01-01T10:30:00.000Z" 3 0.

Definition world : World Mock.t := backend_reports [bobs_version] edited.
End SameDayScenario.

(** ** What a successful [addPdfToGroup] stores *)

(** The attachment row of a PDF whose upload is queued:
    [INSERT INTO attachments (id, itemId, filename, size, checksum, createdBy)]. *)
Definition queued_attachment (id itemId filename : string) (size : Z)
    (checksum user now : string) : Attachment :=
  Attachment.mk id itemId filename default_mime (Some size) checksum
    None None None None None (Some user) now now default_version.

(** The attachment row of a PDF that is on the Drive: the row above with
    the identifiers the Drive returned. *)
Definition stored_attachment (id itemId filename : string) (size : Z)
    (checksum : string) (driveFile : DriveFileMetadata) (parent : string)
    (driveRootId : option string) (user now : string) : Attachment :=
  Attachment.mk id itemId filename default_mime (Some size) checksum
    (Some (DriveFileMetadata.id driveFile)) (Some parent) driveRootId
    (Some (DriveFileMetadata.webViewLink driveFile))
    (Some (DriveFileMetadata.headRevisionId driveFile))
    (Some user) now now default_version.

(** The database with the three rows of a new PDF added. *)
Definition with_new_pdf (item : ItemRow) (attachment : Attachment)
    (set : AnnotationSetRow) (d : Db) : Db :=
  with_annotation_sets (insert (AnnotationSetRow.id set) set)
    (with_attachments (insert (Attachment.id attachment) attachment)
       (with_items (insert (ItemRow.id item) item) d)).

(** The item that [getItem] reads from the stub row of a new PDF. *)
Definition new_pdf_item (id libraryId filename user now : string) : Item :=
  Item.mk id libraryId default_itemType (Some (strip_pdf_extension filename))
    [] None None None None None None None None [] (JObject []) (Some user)
    now now 1 false.

(** The options of the resumable upload of step 5, for the folder that
    [ensureFolder] returned. *)
Definition pdf_upload_options (checksum filename localPdfPath folder : string)
  : DriveUploadOptions :=
  DriveUploadOptions.mk (buildDriveFileName checksum filename) "application/pdf"
    [folder] (Some localPdfPath) None.
(** * Properties *)

(** Unfold the monad and the primitives of the services. *)
Ltac st_unfold :=
  cbv beta iota delta
    [bind ret throw gets modify lift_result try_catch settle on_snd on_fst
     external drive now_ms now_iso now_sql new_uuid current_user transaction
     write update_item update_attachment update_annotation_set update_upload
     insert_item insert_attachment insert_annotation_set insert_upload].

(** Reduce the projections of worlds and databases. *)
Ltac st_simpl :=
  cbv beta iota;
  cbn [ext db drive_calls set_db fst snd of_rejection negb
       libraries items attachments annotation_sets upload_queue sync_state
       with_libraries with_items with_attachments with_annotation_sets
       with_upload_queue with_sync_state].

(** Use an equation on what the world answers, and reduce. *)
Ltac st_with H := rewrite H; st_simpl.

(** ** The annotation merge *)

Section StringOrder.
Lemma str_gt_irrefl s : str_gt s s = false.
Proof.
  unfold str_gt. destruct (String.compare s s) eqn:E; try reflexivity.
  pose proof (String.compare_antisym s s) as H. rewrite E in H. discriminate.
Qed.

Lemma str_gt_asym s t : str_gt s t = true -> str_gt t s = false.
Proof.
  unfold str_gt. rewrite (String.compare_antisym s t).
  destruct (String.compare t s); simpl; congruence.
Qed.

Lemma str_gt_total s t : s <> t -> str_gt s t = true \/ str_gt t s = true.
Proof.
  intros Hne. unfold str_gt. rewrite (String.compare_antisym s t).
  destruct (String.compare t s) eqn:E; simpl; auto.
  apply String.compare_eq_iff in E. congruence.
Qed.
End StringOrder.

Section JsMapFacts.
Context {V : Type}.
Implicit Types (m : JsMap V) (k : string) (v : V).

Lemma map_get_set_eq k v m : map_get k (map_set k v m) = Some v.
Proof.
  induction m as [|[k' v'] m IH]; simpl.
  - now rewrite String.eqb_refl.
  - destruct (String.eqb k k') eqn:E; simpl; rewrite ?String.eqb_refl, ?E; auto.
Qed.

Lemma map_get_set_ne k k' v m :
  k <> k' -> map_get k' (map_set k v m) = map_get k' m.
Proof.
  intros Hne. induction m as [|[k0 v0] m IH]; simpl.
  - destruct (String.eqb k' k) eqn:E; auto.
    apply String.eqb_eq in E. congruence.
  - destruct (String.eqb k k0) eqn:E; simpl.
    + apply String.eqb_eq in E. subst k0.
      destruct (String.eqb k' k) eqn:E'; auto.
      apply String.eqb_eq in E'. congruence.
    + now rewrite IH.
Qed.

Lemma map_set_keys k v m k' :
  In k' (List.map fst (map_set k v m)) <-> k' = k \/ In k' (List.map fst m).
Proof.
  induction m as [|[k0 v0] m IH]; simpl.
  - intuition.
  - destruct (String.eqb k k0) eqn:E; simpl.
    + apply String.eqb_eq in E. subst. intuition.
    + rewrite IH. intuition.
Qed.

Lemma map_set_NoDup k v m :
  List.NoDup (List.map fst m) -> List.NoDup (List.map fst (map_set k v m)).
Proof.
  induction m as [|[k0 v0] m IH]; simpl; intros Hnd.
  - constructor; [intros []|constructor].
  - apply NoDup_cons_iff in Hnd as [Hnin Hnd].
    destruct (String.eqb k k0) eqn:E; simpl.
    + apply String.eqb_eq in E. subst. now constructor.
    + constructor; [|auto].
      rewrite map_set_keys. intros [->|Hin]; [|auto].
      now rewrite String.eqb_refl in E.
Qed.

Lemma map_set_entries k v m kv :
  In kv (map_set k v m) -> kv = (k, v) \/ In kv m.
Proof.
  induction m as [|[k0 v0] m IH]; simpl.
  - intuition.
  - destruct (String.eqb k k0); simpl; intuition.
Qed.

Lemma map_get_In k v m : map_get k m = Some v -> In (k, v) m.
Proof.
  induction m as [|[k0 v0] m IH]; simpl; [discriminate|].
  destruct (String.eqb k k0) eqn:E.
  - apply String.eqb_eq in E. intros [= ->]. subst. now left.
  - auto.
Qed.

Lemma map_get_None_keys k m : map_get k m = None -> ~ In k (List.map fst m).
Proof.
  induction m as [|[k0 v0] m IH]; simpl; [tauto|].
  destruct (String.eqb k k0) eqn:E; [discriminate|].
  intros Hm [->|Hin]; [|now apply IH].
  now rewrite String.eqb_refl in E.
Qed.
End JsMapFacts.

Section SortFacts.
Context {A : Type} (cmp : A -> A -> Z).

Lemma sort_insert_perm a l : Permutation (a :: l) (sort_insert cmp a l).
Proof.
  induction l as [|b l IH]; simpl; [reflexivity|].
  destruct (cmp a b <=? 0); [reflexivity|].
  rewrite perm_swap. now constructor.
Qed.

Lemma filter_perm (f : A -> bool) l l' :
  Permutation l l' -> Permutation (List.filter f l) (List.filter f l').
Proof.
  induction 1 as [|x l l' _ IH|x y l|l l' l'' _ IH1 _ IH2]; simpl.
  - constructor.
  - destruct (f x); [now constructor|assumption].
  - destruct (f x), (f y); try reflexivity. apply perm_swap.
  - now transitivity (List.filter f l').
Qed.

Lemma array_sort_perm l : Permutation l (array_sort cmp l).
Proof.
  induction l as [|a l IH]; simpl; [constructor|].
  rewrite <- sort_insert_perm. now constructor.
Qed.

Hypothesis cmp_total : forall a b, cmp a b <= 0 \/ cmp b a <= 0.
Hypothesis cmp_trans : forall a b c, cmp a b <= 0 -> cmp b c <= 0 -> cmp a c <= 0.

Lemma sort_insert_sorted a l :
  StronglySorted (fun x y => cmp x y <= 0) l ->
  StronglySorted (fun x y => cmp x y <= 0) (sort_insert cmp a l).
Proof.
  induction l as [|b l IH]; simpl; intros Hs.
  - constructor; [constructor|constructor].
  - inversion Hs as [|? ? Hs' Hall]; subst.
    destruct (cmp a b <=? 0) eqn:E.
    + apply Z.leb_le in E. constructor; [assumption|].
      constructor; [assumption|].
      eapply List.Forall_impl; [|exact Hall]. intros c Hc. simpl in Hc. eauto.
    + apply Z.leb_gt in E. constructor; [auto|].
      eapply Permutation_Forall; [apply sort_insert_perm|].
      constructor; [|assumption].
      destruct (cmp_total a b); [lia|assumption].
Qed.

Lemma array_sort_sorted l : StronglySorted (fun x y => cmp x y <= 0) (array_sort cmp l).
Proof.
  induction l as [|a l IH]; simpl; [constructor|].
  now apply sort_insert_sorted.
Qed.
End SortFacts.

Section MergeFacts.
Implicit Types (local remote : list Annotation) (m : JsMap Annotation).
Implicit Types (a b c : Annotation) (k : string).

Lemma compare_annotations_order a b :
  compare_annotations a b <= 0 <-> in_reading_order a b.
Proof.
  unfold compare_annotations, in_reading_order.
  destruct (Annotation.page a =? Annotation.page b) eqn:E; simpl.
  - apply Z.eqb_eq in E. lia.
  - apply Z.eqb_neq in E. lia.
Qed.

Lemma keyed_by_id_set m a :
  keyed_by_id m -> keyed_by_id (map_set (Annotation.id a) a m).
Proof.
  intros [Hnd Hall]. split; [now apply map_set_NoDup|].
  apply List.Forall_forall. intros kv Hin.
  apply map_set_entries in Hin as [->|Hin]; [reflexivity|].
  rewrite List.Forall_forall in Hall. auto.
Qed.

Lemma keyed_by_id_merge_remote m a : keyed_by_id m -> keyed_by_id (merge_remote m a).
Proof.
  intros Hm. unfold merge_remote.
  destruct (map_get (Annotation.id a) m); [destruct (str_gt _ _)|];
    auto using keyed_by_id_set.
Qed.

Lemma seed_local_snoc local a :
  seed_local (local ++ [a]) = map_set (Annotation.id a) a (seed_local local).
Proof. unfold seed_local. now rewrite fold_left_app. Qed.

Lemma keyed_by_id_seed local : keyed_by_id (seed_local local).
Proof.
  induction local as [|a local IH] using rev_ind.
  - split; constructor.
  - rewrite seed_local_snoc. now apply keyed_by_id_set.
Qed.

Lemma keyed_by_id_merged local remote : keyed_by_id (merged_map local remote).
Proof.
  unfold merged_map. generalize (keyed_by_id_seed local).
  generalize (seed_local local). induction remote as [|a remote IH]; simpl; auto.
  intros m Hm. apply IH. now apply keyed_by_id_merge_remote.
Qed.

(** What the second loop does to the entry of one key. *)
Lemma map_get_merge_remote k m a :
  map_get k (merge_remote m a) =
    if String.eqb (Annotation.id a) k
    then match map_get k m with
         | None => Some a
         | Some existing =>
             if str_gt (Annotation.modifiedAt a) (Annotation.modifiedAt existing)
             then Some a else Some existing
         end
    else map_get k m.
Proof.
  unfold merge_remote. destruct (String.eqb (Annotation.id a) k) eqn:E.
  - apply String.eqb_eq in E. subst k.
    destruct (map_get (Annotation.id a) m) as [e|] eqn:G.
    + destruct (str_gt _ _); [apply map_get_set_eq|assumption].
    + apply map_get_set_eq.
  - apply String.eqb_neq in E.
    destruct (map_get (Annotation.id a) m) as [e|];
      [destruct (str_gt _ _)|]; auto using map_get_set_ne.
Qed.

(** The seed holds, for an id, the only local annotation that has it. *)
Lemma seed_local_only local a :
  In a local ->
  (forall c, In c local -> Annotation.id c = Annotation.id a -> c = a) ->
  map_get (Annotation.id a) (seed_local local) = Some a.
Proof.
  induction local as [|x local IH] using rev_ind; [intros []|].
  intros Hin Honly. rewrite seed_local_snoc.
  destruct (String.eqb (Annotation.id x) (Annotation.id a)) eqn:E.
  - apply String.eqb_eq in E.
    assert (x = a) as -> by (apply Honly; [apply in_or_app; right; now left|assumption]).
    apply map_get_set_eq.
  - apply String.eqb_neq in E. rewrite map_get_set_ne by assumption.
    apply IH.
    + apply in_app_or in Hin as [Hin|[->|[]]]; [assumption|congruence].
    + intros c Hc. apply Honly. apply in_or_app. now left.
Qed.

Lemma seed_local_none local k :
  (forall c, In c local -> Annotation.id c <> k) ->
  map_get k (seed_local local) = None.
Proof.
  induction local as [|x local IH] using rev_ind; [reflexivity|].
  intros Hno. rewrite seed_local_snoc, map_get_set_ne.
  - apply IH. intros c Hc. apply Hno. apply in_or_app. now left.
  - apply Hno. apply in_or_app. right. now left.
Qed.

Lemma winner_stays a b :
  str_gt (Annotation.modifiedAt b) (Annotation.modifiedAt (winner a b)) = false.
Proof.
  unfold winner.
  destruct (str_gt (Annotation.modifiedAt b) (Annotation.modifiedAt a)) eqn:E;
    [apply str_gt_irrefl|assumption].
Qed.

Lemma fold_remote_winner k a b remote m :
  (forall c, In c remote -> Annotation.id c = k -> c = b) ->
  map_get k m = Some (winner a b) ->
  map_get k (fold_left merge_remote remote m) = Some (winner a b).
Proof.
  revert m. induction remote as [|x remote IH]; simpl; intros m Honly Hm; [assumption|].
  apply IH; [auto|].
  rewrite map_get_merge_remote, Hm.
  destruct (String.eqb (Annotation.id x) k) eqn:E; [|reflexivity].
  apply String.eqb_eq in E.
  rewrite (Honly x) by auto. now rewrite winner_stays.
Qed.

Lemma fold_remote_meets k a b remote m :
  In b remote -> Annotation.id b = k ->
  (forall c, In c remote -> Annotation.id c = k -> c = b) ->
  map_get k m = Some a ->
  map_get k (fold_left merge_remote remote m) = Some (winner a b).
Proof.
  revert m. induction remote as [|x remote IH]; simpl; intros m Hin Hid Honly Hm; [easy|].
  destruct (String.eqb (Annotation.id x) k) eqn:E.
  - pose proof E as E'. apply String.eqb_eq in E'.
    assert (x = b) as -> by auto.
    apply fold_remote_winner; [auto|].
    rewrite map_get_merge_remote, E, Hm. unfold winner.
    now destruct (str_gt _ _).
  - apply IH; auto.
    + destruct Hin as [->|Hin]; [|assumption].
      apply String.eqb_neq in E. congruence.
    + now rewrite map_get_merge_remote, E.
Qed.

(** With every version of an id equal to [v], the entry of the id is
    absent or [v] throughout the second loop, and [v] once it was met. *)
Lemma fold_remote_single k v remote m :
  (forall c, In c remote -> Annotation.id c = k -> c = v) ->
  (map_get k m = Some v
   -> map_get k (fold_left merge_remote remote m) = Some v)
  /\ (map_get k m = None -> In v remote -> Annotation.id v = k
      -> map_get k (fold_left merge_remote remote m) = Some v).
Proof.
  revert m. induction remote as [|x remote IH]; simpl; intros m Honly.
  - split; [auto|intros _ []].
  - assert (Hrest : forall c, In c remote -> Annotation.id c = k -> c = v) by auto.
    split.
    + intros Hm. apply (proj1 (IH _ Hrest)).
      rewrite map_get_merge_remote, Hm.
      destruct (String.eqb (Annotation.id x) k) eqn:E; [|reflexivity].
      apply String.eqb_eq in E. rewrite (Honly x) by auto.
      now rewrite str_gt_irrefl.
    + intros Hm Hin Hid.
      destruct (String.eqb (Annotation.id x) k) eqn:E.
      * pose proof E as E'. apply String.eqb_eq in E'.
        apply (proj1 (IH _ Hrest)). rewrite map_get_merge_remote, E, Hm.
        f_equal. auto.
      * apply (proj2 (IH _ Hrest)); [|..|assumption].
        -- now rewrite map_get_merge_remote, E.
        -- destruct Hin as [->|Hin]; [|assumption].
           apply String.eqb_neq in E. congruence.
Qed.

(** The values filed under one id. *)
Lemma filter_values_absent k m :
  Forall (fun kv => Annotation.id (snd kv) = fst kv) m ->
  ~ In k (List.map fst m) ->
  List.filter (has_id k) (map_values m) = [].
Proof.
  induction m as [|[k0 v0] m IH]; [reflexivity|].
  intros Hall Hk. apply Forall_cons_iff in Hall as [Hid Hall].
  cbn [fst snd] in Hid. cbn [List.map fst] in Hk.
  cbn [map_values List.map List.filter snd]. unfold has_id at 1. rewrite Hid.
  destruct (String.eqb_spec k0 k) as [->|Hne].
  - exfalso. apply Hk. now left.
  - apply IH; [assumption|]. intros Hin. apply Hk. now right.
Qed.

Lemma filter_values_of_key k v m :
  keyed_by_id m -> map_get k m = Some v ->
  List.filter (has_id k) (map_values m) = [v].
Proof.
  intros [Hnd Hall]. induction m as [|[k0 v0] m IH]; [discriminate|].
  cbn [List.map fst] in Hnd. apply NoDup_cons_iff in Hnd as [Hnin Hnd].
  apply Forall_cons_iff in Hall as [Hid Hall]. cbn [fst snd] in Hid.
  cbn [map_get map_values List.map List.filter snd]. unfold has_id at 1. rewrite Hid.
  destruct (String.eqb_spec k k0) as [->|Hne].
  - intros [= <-]. rewrite String.eqb_refl. f_equal.
    now apply filter_values_absent.
  - destruct (String.eqb_spec k0 k) as [->|_]; [congruence|].
    intros Hm. now apply IH.
Qed.

Lemma filter_merged_of_key k v local remote :
  map_get k (merged_map local remote) = Some v ->
  List.filter (has_id k) (mergeAnnotations local remote) = [v].
Proof.
  intros Hm. apply Permutation_length_1_inv.
  rewrite <- (filter_values_of_key k v _ (keyed_by_id_merged local remote) Hm).
  unfold mergeAnnotations.
  apply filter_perm. apply array_sort_perm.
Qed.

Lemma merged_contains k v local remote :
  map_get k (merged_map local remote) = Some v ->
  In v (mergeAnnotations local remote).
Proof.
  intros Hm. unfold mergeAnnotations.
  eapply Permutation_in; [apply array_sort_perm|].
  apply map_get_In in Hm. unfold map_values.
  change v with (snd (k, v)). now apply in_map.
Qed.
End MergeFacts.

Section MergeClaims.
Import Fixtures.
Implicit Types (local remote : list Annotation) (a b c : Annotation) (k : string).

Lemma seed_local_from k s local :
  map_get k (seed_local local) = Some s -> In s local /\ Annotation.id s = k.
Proof.
  induction local as [|x local IH] using rev_ind; [discriminate|].
  rewrite seed_local_snoc.
  destruct (String.eqb_spec (Annotation.id x) k) as [<-|Hne].
  - rewrite map_get_set_eq. intros [= <-]. split; [|reflexivity].
    apply in_or_app. right. now left.
  - rewrite map_get_set_ne by assumption. intros Hm.
    destruct (IH Hm) as [Hin Hid]. split; [|assumption].
    apply in_or_app. now left.
Qed.

(** An id all of whose versions, on both sides, are the one annotation
    [v] ends up filed with [v]. *)
Lemma merged_map_single k v local remote :
  In v (local ++ remote) -> Annotation.id v = k ->
  (forall c, In c (local ++ remote) -> Annotation.id c = k -> c = v) ->
  map_get k (merged_map local remote) = Some v.
Proof.
  intros Hin Hid Honly. unfold merged_map.
  assert (Hremote : forall c, In c remote -> Annotation.id c = k -> c = v).
  { intros c Hc. apply Honly. apply in_or_app. now right. }
  destruct (map_get k (seed_local local)) as [s|] eqn:Hseed.
  - destruct (seed_local_from _ _ _ Hseed) as [Hs Hsid].
    assert (s = v) as -> by (apply Honly; [apply in_or_app; now left|assumption]).
    now apply (proj1 (fold_remote_single k v remote _ Hremote)).
  - apply (proj2 (fold_remote_single k v remote _ Hremote)); [assumption| |assumption].
    apply in_app_or in Hin as [Hin|Hin]; [|assumption].
    rewrite <- Hid in Hseed. rewrite seed_local_only in Hseed; [discriminate|assumption|].
    intros c Hc Hcid. apply Honly; [apply in_or_app; now left|congruence].
Qed.

(** C2. When [local] and [remote] each hold one annotation with a given
    id, [a] and [b], the output of [mergeAnnotations] holds exactly one
    annotation with that id: if the two [modifiedAt] differ it is the one
    whose [modifiedAt] is strictly later, if they are equal it is [a],
    the entry seeded from [local]. *)
Theorem mergeAnnotations_same_id_later_wins local remote a b :
  In a local -> In b remote ->
  Annotation.id a = Annotation.id b ->
  (forall c, In c local -> Annotation.id c = Annotation.id a -> c = a) ->
  (forall c, In c remote -> Annotation.id c = Annotation.id a -> c = b) ->
  let same_id :=
    List.filter (has_id (Annotation.id a)) (mergeAnnotations local remote) in
  (Annotation.modifiedAt a <> Annotation.modifiedAt b ->
     (str_gt (Annotation.modifiedAt b) (Annotation.modifiedAt a) = true
      /\ same_id = [b])
     \/ (str_gt (Annotation.modifiedAt a) (Annotation.modifiedAt b) = true
         /\ same_id = [a]))
  /\ (Annotation.modifiedAt a = Annotation.modifiedAt b -> same_id = [a]).
Proof.
  intros Ha Hb Hid Hlocal Hremote same_id.
  assert (Hw : same_id = [winner a b]).
  { apply filter_merged_of_key. unfold merged_map.
    apply fold_remote_meets; auto using seed_local_only. }
  split.
  - intros Hne. unfold winner in Hw.
    destruct (str_gt (Annotation.modifiedAt b) (Annotation.modifiedAt a)) eqn:E.
    + left. auto.
    + right. split; [|assumption].
      destruct (str_gt_total _ _ Hne) as [G|G]; congruence.
  - intros Heq. unfold winner in Hw.
    now rewrite Heq, str_gt_irrefl in Hw.
Qed.

(** The test of the suite: the remote edit of 3 January replaces the
    local edit of 2 January. *)
Lemma mergeAnnotations_same_id_later_wins_witness :
  List.filter (has_id "shared") (mergeAnnotations [shared_local] [shared_remote])
  = [shared_remote].
Proof.
  destruct (mergeAnnotations_same_id_later_wins
              [shared_local] [shared_remote] shared_local shared_remote)
    as [Hdiffer _].
  - simpl. auto.
  - simpl. auto.
  - reflexivity.
  - intros c [<-|[]] _. reflexivity.
  - intros c [<-|[]] _. reflexivity.
  - destruct Hdiffer as [[_ H]|[H _]].
    + discriminate.
    + exact H.
    + discriminate H.
Defined.

(** C3, as stated, fails: [shared_local] is in [local], [n1] is in
    [remote], their ids differ, and the merge drops [shared_local] for
    its later remote version. *)
Lemma mergeAnnotations_pairwise_union_counterexample :
  In shared_local [shared_local]
  /\ In n1 [shared_remote; n1]
  /\ Annotation.id shared_local <> Annotation.id n1
  /\ ~ In shared_local (mergeAnnotations [shared_local] [shared_remote; n1]).
Proof.
  split; [simpl; auto|]. split; [simpl; auto|]. split; [discriminate|].
  vm_compute. intros [H|[H|[]]]; discriminate H.
Qed.

(** C3, amended. For [a] in [local] and [b] in [remote] with different
    ids, such that no other annotation of [local] or [remote] carries the
    id of [a] or the id of [b], the output of [mergeAnnotations] contains
    both [a] and [b]. *)
Theorem mergeAnnotations_union local remote a b :
  In a local -> In b remote ->
  Annotation.id a <> Annotation.id b ->
  (forall c, In c (local ++ remote) -> Annotation.id c = Annotation.id a -> c = a) ->
  (forall c, In c (local ++ remote) -> Annotation.id c = Annotation.id b -> c = b) ->
  In a (mergeAnnotations local remote) /\ In b (mergeAnnotations local remote).
Proof.
  intros Ha Hb _ Honly_a Honly_b. split.
  - apply (merged_contains (Annotation.id a)).
    apply merged_map_single; auto. apply in_or_app. now left.
  - apply (merged_contains (Annotation.id b)).
    apply merged_map_single; auto. apply in_or_app. now right.
Qed.

(** Alice's highlight and Bob's note, with an edit conflict on a third
    annotation next to them. *)
Lemma mergeAnnotations_union_witness :
  In h1 (mergeAnnotations [shared_local; h1] [shared_remote; n1])
  /\ In n1 (mergeAnnotations [shared_local; h1] [shared_remote; n1]).
Proof.
  apply (mergeAnnotations_union [shared_local; h1] [shared_remote; n1] h1 n1).
  - simpl. auto.
  - simpl. auto.
  - discriminate.
  - intros c [<-|[<-|[<-|[<-|[]]]]] H; try reflexivity; discriminate H.
  - intros c [<-|[<-|[<-|[<-|[]]]]] H; try reflexivity; discriminate H.
Defined.

(** C4, as stated, fails: with the vertical position read off the
    top-most rectangle, a highlight of page 1 whose rectangles are at
    [y1] 100 and 800 stands at 800 and comes before one at 500. The sort
    looks at the first rectangle only, takes the highlight to stand at
    100 and puts it after the one at 500. *)
Lemma mergeAnnotations_top_most_counterexample :
  mergeAnnotations [ReadingOrder.two_lines; page1_y500] []
  = [page1_y500; ReadingOrder.two_lines]
  /\ Annotation.page ReadingOrder.two_lines = Annotation.page page1_y500
  /\ stated_vertical_position ReadingOrder.two_lines = 800
  /\ stated_vertical_position page1_y500 = 500
  /\ vertical_position ReadingOrder.two_lines = 100
  /\ ~ StronglySorted in_stated_reading_order
        (mergeAnnotations [ReadingOrder.two_lines; page1_y500] []).
Proof.
  split; [reflexivity|]. split; [reflexivity|]. split; [reflexivity|].
  split; [reflexivity|]. split; [reflexivity|].
  change (mergeAnnotations [ReadingOrder.two_lines; page1_y500] [])
    with [page1_y500; ReadingOrder.two_lines].
  intros Hsorted. inversion Hsorted as [|x l _ Hall]; subst.
  inversion Hall as [|y l' Hfirst _]; subst.
  destruct Hfirst as [Hpage|[_ Hposition]].
  - vm_compute in Hpage. discriminate Hpage.
  - vm_compute in Hposition. apply Hposition. reflexivity.
Qed.

(** C4, amended. The output of [mergeAnnotations] is in reading order:
    pages ascend and, within a page, vertical positions descend, the
    vertical position being [y1] of the first rectangle, else [y] of the
    point, else 0. Pages 2, 1, 1 at y 100, 500, 700 come out as page 1
    at 700, page 1 at 500, page 2 at 100. *)
Theorem mergeAnnotations_sorted local remote :
  StronglySorted in_reading_order (mergeAnnotations local remote)
  /\ mergeAnnotations [page2_y100; page1_y500; page1_y700] []
     = [page1_y700; page1_y500; page2_y100].
Proof.
  split; [|reflexivity].
  assert (Hs : StronglySorted (fun x y => compare_annotations x y <= 0)
                 (mergeAnnotations local remote)).
  { apply array_sort_sorted.
    - intros x y. rewrite !compare_annotations_order. unfold in_reading_order. lia.
    - intros x y z. rewrite !compare_annotations_order. unfold in_reading_order. lia. }
  induction Hs as [|x l _ IH Hall]; constructor; [assumption|].
  eapply List.Forall_impl; [|exact Hall].
  intros y. apply compare_annotations_order.
Qed.
End MergeClaims.

(** ** The sidecar envelope *)

Section SidecarClaims.
Context `{!Formats, !JSON JsonValue}.

Lemma schema_version_not_malformed (e : Exn) :
  is_SchemaVersionError e -> ~ is_MalformedEnvelopeError e.
Proof.
  intros [shown ->] Hm. unfold is_MalformedEnvelopeError in Hm.
  unfold schema_version_message, malformed_envelope_message in Hm.
  discriminate Hm.
Qed.

Lemma parseSidecar_schema_version json data schemaVersion :
  JSON_parse json = Returns data ->
  get_property data "schemaVersion" = Returns schemaVersion ->
  strict_ne_one schemaVersion = true ->
  parseSidecar json = Throws (Error (schema_version_message ++ template schemaVersion)).
Proof. intros Hp Hs Hne. unfold parseSidecar. now rewrite Hp, Hs, Hne. Qed.

Lemma strict_ne_one_false (v : JsValue) :
  strict_ne_one v = false <-> v = Some (JNumber 1).
Proof.
  split; [|now intros ->].
  destruct v as [[| |n| | |]|]; try discriminate.
  destruct n as [|[| |]|]; try discriminate. reflexivity.
Qed.

(** C9, amended. For a text that parses to [data]: when [schemaVersion]
    is not the number 1, [parseSidecar] fails with the schema-version
    error; when [schemaVersion] is 1 and [annotations] is not an array, it
    fails with the malformed-envelope error; when [schemaVersion] is 1 and
    [annotations] is an array, it returns [data]. No error is of both
    kinds. *)
Theorem parseSidecar_checks (json : string) (data : JsonValue)
    (schemaVersion annotations : JsValue) :
  JSON_parse json = Returns data ->
  get_property data "schemaVersion" = Returns schemaVersion ->
  get_property data "annotations" = Returns annotations ->
  (schemaVersion <> Some (JNumber 1) ->
     exists e, parseSidecar json = Throws e /\ is_SchemaVersionError e)
  /\ (schemaVersion = Some (JNumber 1) -> Array_isArray annotations = false ->
        exists e, parseSidecar json = Throws e /\ is_MalformedEnvelopeError e)
  /\ (schemaVersion = Some (JNumber 1) -> Array_isArray annotations = true ->
        parseSidecar json = Returns data)
  /\ (forall e, ~ (is_SchemaVersionError e /\ is_MalformedEnvelopeError e)).
Proof.
  intros Hp Hs Ha. repeat split.
  - intros Hne. eexists. split.
    + apply (parseSidecar_schema_version _ _ _ Hp Hs).
      destruct (strict_ne_one schemaVersion) eqn:E; [reflexivity|].
      apply strict_ne_one_false in E. contradiction.
    + now eexists.
  - intros -> Harr. exists (Error malformed_envelope_message). split; [|reflexivity].
    unfold parseSidecar. rewrite Hp, Hs. simpl. now rewrite Ha, Harr.
  - intros -> Harr. unfold parseSidecar. rewrite Hp, Hs. simpl. now rewrite Ha, Harr.
  - intros e [H1 H2]. now apply (schema_version_not_malformed e).
Qed.
End SidecarClaims.

(** The three tests of the suite. *)
Lemma parseSidecar_checks_witness :
  (exists e, @parseSidecar reference_formats SidecarTexts.codec "version-99.json"
             = Throws e /\ is_SchemaVersionError e)
  /\ (exists e, @parseSidecar reference_formats SidecarTexts.codec "not-an-array.json"
                = Throws e /\ is_MalformedEnvelopeError e)
  /\ @parseSidecar reference_formats SidecarTexts.codec "valid.json"
     = Returns SidecarTexts.valid.
Proof.
  pose proof (@parseSidecar_checks reference_formats SidecarTexts.codec
                "version-99.json" SidecarTexts.version_99
                (Some (JNumber 99)) (Some (JArray []))
                eq_refl eq_refl eq_refl) as (Hversion & _).
  pose proof (@parseSidecar_checks reference_formats SidecarTexts.codec
                "not-an-array.json" SidecarTexts.not_an_array
                (Some (JNumber 1)) (Some (JString "not-an-array"))
                eq_refl eq_refl eq_refl) as (_ & Harray & _).
  pose proof (@parseSidecar_checks reference_formats SidecarTexts.codec
                "valid.json" SidecarTexts.valid (Some (JNumber 1)) (Some (JArray []))
                eq_refl eq_refl eq_refl) as (_ & _ & Hvalid & _).
  split; [|split].
  - apply Hversion. discriminate.
  - exact (Harray eq_refl eq_refl).
  - exact (Hvalid eq_refl eq_refl).
Defined.

(** C9, as stated, fails: the [annotations] of this envelope is not an
    array, and [parseSidecar] fails with the schema-version error, which
    is not the malformed-envelope error. *)
Lemma parseSidecar_not_array_counterexample :
  let json := "version-99-not-an-array.json" in
  @JSON_parse _ SidecarTexts.codec json = Returns SidecarTexts.version_99_not_an_array
  /\ get_property SidecarTexts.version_99_not_an_array "annotations"
     = Returns (Some (JString "not-an-array"))
  /\ Array_isArray (Some (JString "not-an-array")) = false
  /\ @parseSidecar reference_formats SidecarTexts.codec json
     = Throws (Error "Unsupported annotation schema version: 99")
  /\ ~ is_MalformedEnvelopeError (Error "Unsupported annotation schema version: 99").
Proof.
  repeat split. intros Hm. discriminate Hm.
Qed.

(** ** Items *)

Section ItemClaims.
Context {X : Type}.
Context `{!IDriveService X, !ICacheService X, !IBackendApi X, !Platform X}.
Context `{!Formats}.
Context `{!JSON (list Author), !JSON (list string), !JSON JsonValue}.
Context `{!JSON (list Annotation), !JSON AnnotationSidecar}.
Implicit Types (w : World X) (row : ItemRow) (id : string).

Lemma getItem_reads w id row item :
  items (db w) !! id = Some row ->
  rowToItem row = Returns item ->
  getItem id w = (Returns (Some item), w).
Proof.
  intros Hrow Hread. unfold getItem, bind, gets, lift_result, ret.
  now rewrite Hrow, Hread.
Qed.

Lemma parse_or_text {A} `{!JSON A} (a fallback : A) :
  round_trips a -> parse_or (Some (stringify 0 a)) fallback = Returns a.
Proof.
  intros [Hne Hparse]. unfold parse_or, JSON_parse. rewrite Hparse.
  destruct (stringify 0 a); [contradiction|reflexivity].
Qed.

Lemma parse_or_written {A} `{!JSON A} (given : option A) (fallback : A) :
  (forall a, given = Some a -> round_trips a) ->
  parse_or (stringify 0 <$> given) fallback = Returns (default fallback given).
Proof.
  intros Hrt. destruct given as [a|]; [|reflexivity].
  simpl. apply parse_or_text. auto.
Qed.

Lemma rowToItem_new id libraryId (data : NewItem) user now :
  (forall a, NewItem.authors data = Some a -> round_trips a) ->
  (forall g, NewItem.tags data = Some g -> round_trips g) ->
  rowToItem (new_item_row id libraryId data user now)
  = Returns (created_item id libraryId data user now).
Proof.
  intros Ha Hg. unfold rowToItem, new_item_row. cbn [ItemRow.authors ItemRow.tags ItemRow.extra].
  rewrite (parse_or_written _ _ Ha), (parse_or_written _ _ Hg). reflexivity.
Qed.

Lemma rowToItem_updated (data : PartialItem) row existing now :
  rowToItem row = Returns existing ->
  round_trips (default (Item.authors existing) (PartialItem.authors data)) ->
  round_trips (default (Item.tags existing) (PartialItem.tags data)) ->
  rowToItem (updated_item_row data existing now row)
  = Returns (updated_item data existing now).
Proof.
  intros Hread Ha Hg. unfold rowToItem in *.
  cbn [updated_item_row ItemRow.authors ItemRow.tags ItemRow.extra].
  rewrite (parse_or_text _ _ Ha), (parse_or_text _ _ Hg).
  destruct (parse_or (ItemRow.authors row) []); [|discriminate].
  destruct (parse_or (ItemRow.tags row) []); [|discriminate].
  destruct (parse_or (ItemRow.extra row) (JObject [])); [|discriminate].
  injection Hread as <-. reflexivity.
Qed.

(** C8. [createItem] returns an item of version 1. [updateItem] returns
    the item with the given fields replaced, the other fields as they
    were, and the version one more than before, whatever the fields given:
    2 for an item of version 1. [deleteItem] sets [deleted] to 1 and the
    version one more than before. *)
Theorem item_version_accounting :
  (forall w libraryId (data : NewItem) id x1 t x2,
      uuid (ext w) = (id, x1) ->
      Date_now x1 = (t, x2) ->
      items (db w) !! id = None ->
      is_Some (libraries (db w) !! libraryId) ->
      (forall a, NewItem.authors data = Some a -> round_trips a) ->
      (forall g, NewItem.tags data = Some g -> round_trips g) ->
      exists item w',
        createItem libraryId data w = (Returns (Some item), w')
        /\ item = created_item id libraryId data (currentUserId x1) (sqlite_datetime t)
        /\ Item.version item = 1
        /\ getItem id w' = (Returns (Some item), w'))
  /\ (forall w id (data : PartialItem) row existing t x1,
        items (db w) !! id = Some row ->
        rowToItem row = Returns existing ->
        Date_now (ext w) = (t, x1) ->
        round_trips (default (Item.authors existing) (PartialItem.authors data)) ->
        round_trips (default (Item.tags existing) (PartialItem.tags data)) ->
        exists item w',
          updateItem id data w = (Returns (Some item), w')
          /\ item = updated_item data existing (sqlite_datetime t)
          /\ Item.version item = Item.version existing + 1
          /\ (Item.version existing = 1 -> Item.version item = 2)
          /\ getItem id w' = (Returns (Some item), w'))
  /\ (forall w id row t x1,
        items (db w) !! id = Some row ->
        Date_now (ext w) = (t, x1) ->
        exists row' w',
          deleteItem id w = (Returns tt, w')
          /\ items (db w') !! id = Some row'
          /\ row' = deleted_item_row (sqlite_datetime t) row
          /\ ItemRow.deleted row' = 1
          /\ ItemRow.version row' = ItemRow.version row + 1).
Proof.
  split; [|split].
  - intros w libraryId data id x1 t x2 Hid Hnow Hfresh [lib Hlib] Ha Hg.
    eexists _, _.
    unfold createItem. st_unfold. st_with Hid. st_with Hnow.
    cbn [ItemRow.id ItemRow.libraryId new_item_row]. st_with Hfresh. st_with Hlib.
    match goal with
    | |- getItem ?i ?w' = _ /\ _ =>
        assert (Hget : getItem i w'
                       = (Returns (Some (created_item id libraryId data (currentUserId x1)
                                           (sqlite_datetime t))), w'))
    end.
    { apply getItem_reads with (row := new_item_row id libraryId data (currentUserId x1)
                                         (sqlite_datetime t)).
      - cbn. apply lookup_insert_eq.
      - now apply rowToItem_new. }
    rewrite Hget. repeat split. exact Hget.
  - intros w id data row existing t x1 Hrow Hread Hnow Ha Hg.
    eexists _, _.
    unfold updateItem, bind.
    rewrite (getItem_reads _ _ _ _ Hrow Hread).
    st_unfold. st_with Hnow.
    match goal with
    | |- getItem ?i ?w' = _ /\ _ =>
        assert (Hget : getItem i w'
                       = (Returns (Some (updated_item data existing (sqlite_datetime t))), w'))
    end.
    { apply getItem_reads with (row := updated_item_row data existing (sqlite_datetime t) row).
      - cbn. now rewrite lookup_alter_eq, Hrow.
      - now apply rowToItem_updated. }
    rewrite Hget. repeat split; [|exact Hget].
    cbn. intros ->. reflexivity.
  - intros w id row t x1 Hrow Hnow.
    eexists _, _.
    unfold deleteItem. st_unfold. st_with Hnow.
    repeat split. cbn. now rewrite lookup_alter_eq, Hrow.
Qed.
End ItemClaims.


Section ItemWitness.
Import Scenario ItemScenario.

(** The tests of the suite: a created item has version 1, the updated one
    the new title and version 2, and the deleted row is flagged, with
    version 3. *)
Lemma item_version_accounting_witness :
  (exists item w',
      createItem "lib-1" test_paper start = (Returns (Some item), w')
      /\ Item.version item = 1)
  /\ (exists item w',
        updateItem "uuid-1" new_title after_create = (Returns (Some item), w')
        /\ Item.title item = Some "Updated"
        /\ Item.authors item = [jane_doe]
        /\ Item.version item = 2)
  /\ (exists row' w',
        deleteItem "uuid-1" after_update = (Returns tt, w')
        /\ items (db w') !! "uuid-1" = Some row'
        /\ ItemRow.deleted row' = 1
        /\ ItemRow.version row' = 3).
Proof.
  destruct (@item_version_accounting Mock.t _ _ _ _ _)
    as (Hcreate & Hupdate & Hdelete).
  split; [|split].
  - destruct (Hcreate start "lib-1" test_paper "uuid-1"
                (Mock.with_uuids ["uuid-2"; "uuid-3"; "uuid-4"; "uuid-5"] outside)
                ten_o_clock
                (Mock.with_clock (ten_o_clock + 1)
                   (Mock.with_uuids ["uuid-2"; "uuid-3"; "uuid-4"; "uuid-5"] outside)))
      as (item & w' & Hrun & _ & Hversion & _).
    + reflexivity.
    + reflexivity.
    + reflexivity.
    + exists group_library. reflexivity.
    + intros a [= <-]. split; [discriminate|reflexivity].
    + intros g [=].
    + exists item, w'. auto.
  - destruct (Hupdate after_create "uuid-1" new_title created_row created
                (ten_o_clock + 1) (Mock.with_clock (ten_o_clock + 2) (ext after_create)))
      as (item & w' & Hrun & Hitem & _ & Hversion & _).
    + reflexivity.
    + reflexivity.
    + reflexivity.
    + split; [discriminate|reflexivity].
    + split; [discriminate|reflexivity].
    + exists item, w'. split; [exact Hrun|].
      split; [now rewrite Hitem|]. split; [now rewrite Hitem|].
      apply Hversion. reflexivity.
  - destruct (Hdelete after_update "uuid-1" updated_row
                (ten_o_clock + 2) (Mock.with_clock (ten_o_clock + 3) (ext after_update)))
      as (row' & w' & Hrun & Hrow & Heq & Hdeleted & Hversion).
    + reflexivity.
    + reflexivity.
    + exists row', w'. split; [exact Hrun|]. split; [exact Hrow|].
      split; [exact Hdeleted|]. rewrite Hversion. reflexivity.
Defined.
End ItemWitness.

(** ** Saving annotations *)

Section SaveClaims.
Context {X : Type}.
Context `{!IDriveService X, !ICacheService X, !IBackendApi X, !Platform X}.
Context `{!Formats}.
Context `{!JSON (list Author), !JSON (list string), !JSON JsonValue}.
Context `{!JSON (list Annotation), !JSON AnnotationSidecar}.
Implicit Types (w : World X).

Lemma as_truthy_Some (s : option string) (r : string) :
  as_truthy s = Some r -> s = Some r /\ truthy s = true.
Proof.
  unfold as_truthy. destruct (truthy s) eqn:E; [|discriminate].
  intros ->. auto.
Qed.

Lemma mergeAnnotations_two (h n : Annotation) :
  Annotation.id h <> Annotation.id n ->
  length (mergeAnnotations [h] [n]) = 2%nat
  /\ In h (mergeAnnotations [h] [n]) /\ In n (mergeAnnotations [h] [n]).
Proof.
  intros Hne.
  assert (Hm : merged_map [h] [n] = [(Annotation.id h, h); (Annotation.id n, n)]).
  { unfold merged_map, seed_local, merge_remote. simpl.
    destruct (String.eqb_spec (Annotation.id n) (Annotation.id h)) as [E|_];
      [congruence|reflexivity]. }
  pose proof (array_sort_perm compare_annotations (map_values (merged_map [h] [n]))) as Hp.
  fold (mergeAnnotations [h] [n]) in Hp. rewrite Hm in Hp. simpl in Hp.
  split; [|split].
  - now rewrite <- (Permutation_length Hp).
  - apply (Permutation_in _ Hp). simpl. auto.
  - apply (Permutation_in _ Hp). simpl. auto.
Qed.

(** C6. When [saveAnnotations] finds a sidecar file recorded for the set
    and the revision of that file on the Drive is not the recorded one, it
    asks for the metadata, downloads the remote sidecar and sends an
    update whose annotations are the merge of the annotations being saved
    with the remote ones and whose version is the greater of the new local
    version and the remote version, plus one. For a local [h] and a remote
    [n] of different ids the annotations sent are two and contain both. *)
Theorem saveAnnotations_merges_on_conflict
    w attachmentId (annotations : list Annotation)
    annRow annotationSet attachment itemRow item library root fileId
    t1 x1 t2 x2 folder x3 remoteMeta x4 remoteData x5 :
  annotation_set_of attachmentId (db w) = Some annRow ->
  rowToAnnotationSet annRow = Returns annotationSet ->
  Date_now (ext w) = (t1, x1) ->
  attachments (db w) !! attachmentId = Some attachment ->
  items (db w) !! Attachment.itemId attachment = Some itemRow ->
  rowToItem itemRow = Returns item ->
  libraries (db w) !! Item.libraryId item = Some library ->
  as_truthy (Library.driveRootId library) = Some root ->
  Date_now x1 = (t2, x2) ->
  ensureFolder (Some root) "annotations" x2 = (inl folder, x3) ->
  as_truthy (AnnotationSet.driveFileId annotationSet) = Some fileId ->
  getFileMetadata fileId x3 = (inl remoteMeta, x4) ->
  Some (DriveFileMetadata.headRevisionId remoteMeta)
    <> AnnotationSet.driveRevision annotationSet ->
  downloadJSON fileId x4 = (inl remoteData, x5) ->
  let newVersion := AnnotationSet.localVersion annotationSet + 1 in
  let merged :=
    mergeAnnotations annotations (AnnotationSidecar.annotations remoteData) in
  let uploaded :=
    AnnotationSidecar.mk 1 attachmentId (Date_toISOString t2)
      (Z.max newVersion (AnnotationSidecar.version remoteData) + 1)
      (currentUserId x2) merged in
  drive_calls (snd (saveAnnotations attachmentId annotations w))
  = (drive_calls w
     ++ [EnsureFolder (Some root) "annotations"; GetFileMetadata fileId;
         DownloadJSON fileId;
         UpdateFile fileId (stringify 2 uploaded) "application/json"])%list
  /\ (forall h n,
        annotations = [h] -> AnnotationSidecar.annotations remoteData = [n] ->
        Annotation.id h <> Annotation.id n ->
        length merged = 2%nat /\ In h merged /\ In n merged).
Proof.
  intros Hset Hparse Hnow1 Hatt Hitem Hread Hlib Hroot Hnow2 Hfolder Hfile Hmeta
    Hrev Hdown newVersion merged uploaded.
  apply as_truthy_Some in Hroot as [Hroot Htruthy].
  split.
  - unfold saveAnnotations, upload_annotations, reconcile, getAttachment, getItem,
      getLibrary.
    st_unfold. st_with Hset. st_with Hparse. st_with Hnow1.
    st_with Hatt. st_with Hitem. st_with Hread. st_with Hlib.
    cbn [mbind option_bind]. rewrite Htruthy, Hroot. st_simpl.
    st_with Hnow2. st_with Hfolder. st_with Hfile.
    st_with Hmeta. rewrite bool_decide_eq_true_2 by assumption. st_simpl.
    st_with Hdown.
    cbn [AnnotationSidecar.schemaVersion AnnotationSidecar.attachmentId
         AnnotationSidecar.lastModified AnnotationSidecar.version
         AnnotationSidecar.createdBy AnnotationSidecar.annotations].
    fold newVersion. fold merged. fold uploaded.
    destruct (updateFile fileId (stringify 2 uploaded) "application/json" x5)
      as [[updated|rejection] x6]; st_simpl.
    + rewrite <- !app_assoc. reflexivity.
    + destruct (uuid x6) as [u x7]. st_simpl.
      destruct (Date_now x7) as [t3 x8]. st_simpl.
      cbn [UploadQueueEntry.id new_upload_row].
      destruct (upload_queue (db w) !! u); st_simpl; rewrite <- !app_assoc; reflexivity.
  - intros h n -> Hn Hne. subst merged. rewrite Hn. now apply mergeAnnotations_two.
Qed.
End SaveClaims.


Section SaveWitness.
Import Fixtures Scenario ConflictScenario.

(** The example of the design: Alice saves [h1] while the Drive holds
    Bob's [n1] at a newer revision; the update carries both, as version 5. *)
Lemma saveAnnotations_merges_on_conflict_witness :
  drive_calls (snd (saveAnnotations "att-1" [h1] world))
  = [EnsureFolder (Some "root") "annotations"; GetFileMetadata "f1";
     DownloadJSON "f1";
     UpdateFile "f1" (stringify 2 sent_by_save) "application/json"]
  /\ length (AnnotationSidecar.annotations sent_by_save) = 2%nat
  /\ In h1 (AnnotationSidecar.annotations sent_by_save)
  /\ In n1 (AnnotationSidecar.annotations sent_by_save).
Proof.
  edestruct (saveAnnotations_merges_on_conflict world "att-1" [h1]) as [Hcalls Htwo].
  - vm_compute; reflexivity.
  - vm_compute; reflexivity.
  - vm_compute; reflexivity.
  - vm_compute; reflexivity.
  - vm_compute; reflexivity.
  - vm_compute; reflexivity.
  - vm_compute; reflexivity.
  - vm_compute; reflexivity.
  - vm_compute; reflexivity.
  - vm_compute; reflexivity.
  - vm_compute; reflexivity.
  - vm_compute; reflexivity.
  - discriminate.
  - vm_compute; reflexivity.
  - split; [exact Hcalls|].
    apply (Htwo h1 n1); [reflexivity|reflexivity|discriminate].
Defined.
End SaveWitness.

(** ** The queued upload of a sidecar *)

Section QueuedSidecar.
Context {X : Type}.
Context `{!IDriveService X, !ICacheService X, !IBackendApi X, !Platform X}.
Context `{!Formats}.
Context `{!JSON (list Author), !JSON (list string), !JSON JsonValue}.
Context `{!JSON (list Annotation), !JSON AnnotationSidecar}.

(** Whatever the database and the Drive hold, the handler of a queued
    sidecar upload never asks for the metadata of the remote file and
    never downloads it: it only makes sure of the folder and writes. *)
Lemma processAnnotationUpload_never_compares (upload : UploadQueueEntry)
    (w : World X) (call : DriveCall) :
  In call (drive_calls (snd (processAnnotationUpload upload w))) ->
  In call (drive_calls w)
  \/ match call with
     | EnsureFolder _ _ | UpdateFile _ _ _ | CreateFile _ => True
     | _ => False
     end.
Proof.
  unfold processAnnotationUpload. st_unfold.
  destruct (annotation_sets (db w) !! _) as [annRow|]; st_simpl; [|auto].
  destruct (rowToAnnotationSet annRow) as [annotationSet|e]; st_simpl; [|auto].
  destruct (attachments (db w) !! _) as [attachment|]; st_simpl; [|auto].
  destruct (items (db w) !! _) as [item|]; st_simpl; [|auto].
  destruct (truthy _); st_simpl; [|auto].
  destruct (ensureFolder _ _ _) as [[folder|rejection] x1]; st_simpl.
  2:{ rewrite in_app_iff. simpl. intros [Hin|[<-|[]]]; auto. }
  destruct (Date_now x1) as [t x2]. st_simpl.
  destruct (as_truthy _) as [fileId|]; st_simpl.
  - destruct (updateFile _ _ _ _) as [[updated|rejection] x3]; st_simpl;
      rewrite !in_app_iff; simpl; intros [[Hin|[<-|[]]]|[<-|[]]]; auto.
  - destruct (createFile _ _) as [[created|rejection] x3]; st_simpl;
      rewrite !in_app_iff; simpl; intros [[Hin|[<-|[]]]|[<-|[]]]; auto.
Qed.
End QueuedSidecar.

Section QueuedSidecarExample.
Import Fixtures Scenario ConflictScenario.

(** C5, on the failing input. Draining Alice's queue sends two calls: the
    folder is ensured and the file is updated with her annotations alone.
    The revision of the file is not compared with the recorded one, Bob's
    sidecar is not downloaded, and his note is gone from the Drive; the
    entry is marked completed and no error is counted. The save path, on
    the same state, sends the merge. *)
Lemma processUploadQueue_overwrites_remote_sidecar :
  let '(_, (result, w')) := processUploadQueue (no_counts, world) in
  drive_calls w'
  = [EnsureFolder (Some "root") "annotations";
     UpdateFile "f1" (stringify 2 sent_by_drain) "application/json"]
  /\ assoc_get "f1" (Mock.drive_files (ext w'))
     = Some {| Mock.revision := "rev-2+"; Mock.text := print_sidecar sent_by_drain |}
  /\ AnnotationSidecar.annotations sent_by_drain = [h1]
  /\ UploadQueueEntry.status <$> upload_queue (db w') !! "q-1" = Some completed
  /\ result = no_counts.
Proof. vm_compute. repeat split. Qed.
End QueuedSidecarExample.

(** ** Adding a PDF *)

Section TableFacts.
Context {R : Type}.
Implicit Types (table : gmap string R) (p : R -> bool).

Lemma in_rows table r : In r (rows table) <-> exists k, table !! k = Some r.
Proof.
  unfold rows. rewrite <- list_elem_of_In, list_elem_of_fmap. split.
  - intros [[k r'] [-> Hin]]. exists k. now apply elem_of_map_to_list.
  - intros [k Hk]. exists (k, r). split; [reflexivity|].
    now apply elem_of_map_to_list.
Qed.

Lemma first_row_Some p table r :
  first_row p table = Some r -> (exists k, table !! k = Some r) /\ p r = true.
Proof.
  unfold first_row. intros Hfind. apply find_some in Hfind as [Hin Hp].
  split; [now apply in_rows|assumption].
Qed.

Lemma first_row_None p table k r :
  first_row p table = None -> table !! k = Some r -> p r = false.
Proof.
  unfold first_row. intros Hfind Hk.
  apply (find_none _ _ Hfind). apply in_rows. eauto.
Qed.
End TableFacts.

(** Whatever the order of the scan: when one library only belongs to the
    group, that library is the one found. *)
Lemma library_of_group_only groupId (d : Db) k library :
  libraries d !! k = Some library ->
  Library.groupId library = Some groupId ->
  (forall k' l,
      libraries d !! k' = Some l -> Library.groupId l = Some groupId -> l = library) ->
  library_of_group groupId d = Some library.
Proof.
  intros Hk Hgroup Honly. unfold library_of_group.
  destruct (first_row _ _) as [l|] eqn:Hfind.
  - apply first_row_Some in Hfind as [[k' Hk'] Hp].
    apply bool_decide_eq_true_1 in Hp. f_equal. eauto.
  - pose proof (first_row_None _ _ _ _ Hfind Hk) as Hp. cbn beta in Hp.
    apply bool_decide_eq_false_1 in Hp. contradiction.
Qed.

Section NeverDuplicate.
Context {S : Type}.

Lemma never_duplicate_ret {A} (a : A) : never_duplicate (@ret S A a).
Proof. intros s message. discriminate. Qed.

Lemma never_duplicate_gets {A} (f : S -> A) : never_duplicate (gets f).
Proof. intros s message. discriminate. Qed.

Lemma never_duplicate_modify (f : S -> S) : never_duplicate (modify f).
Proof. intros s message. discriminate. Qed.

Lemma never_duplicate_bind {A B} (m : ST S A) (k : A -> ST S B) :
  never_duplicate m -> (forall a, never_duplicate (k a)) -> never_duplicate (bind m k).
Proof.
  intros Hm Hk s message. unfold bind. specialize (Hm s message).
  destruct (m s) as [[a|e] s']; [apply Hk|].
  simpl in *. intros [= ->]. now apply Hm.
Qed.

Lemma never_duplicate_lift {A} (r : result A) :
  (forall message, r <> Throws (DuplicateError message)) ->
  never_duplicate (@lift_result S A r).
Proof. intros Hr s message. apply Hr. Qed.

Lemma of_rejection_not_duplicate {A} (r : A + Rejection) message :
  of_rejection r <> Throws (DuplicateError message).
Proof. destruct r; discriminate. Qed.
End NeverDuplicate.

Section AddPdfClaims.
Context {X : Type}.
Context `{!IDriveService X, !ICacheService X, !IBackendApi X, !Platform X}.
Context `{!Formats}.
Context `{!JSON (list Author), !JSON (list string), !JSON JsonValue}.
Context `{!JSON (list Annotation), !JSON AnnotationSidecar}.
Implicit Types (w : World X) (d : Db).

Lemma never_duplicate_external {A} (op : X -> (A + Rejection) * X) :
  never_duplicate (external op).
Proof.
  intros w message. unfold external. destruct (op (ext w)) as [r x'].
  apply of_rejection_not_duplicate.
Qed.

Lemma never_duplicate_now_sql : never_duplicate (now_sql (X:=X)).
Proof.
  intros w message. unfold now_sql, now_ms, bind, ret.
  destruct (Date_now (ext w)). discriminate.
Qed.

Lemma never_duplicate_new_uuid : never_duplicate (new_uuid (X:=X)).
Proof. intros w message. unfold new_uuid. destruct (uuid (ext w)). discriminate. Qed.

Lemma never_duplicate_transaction {A} (fn : ST (World X) A) :
  never_duplicate fn -> never_duplicate (transaction fn).
Proof.
  intros Hfn w message. unfold transaction. specialize (Hfn w message).
  destruct (fn w) as [[a|e] w']; [discriminate|].
  simpl in *. intros [= ->]. now apply Hfn.
Qed.

Lemma never_duplicate_insert_item row : never_duplicate (insert_item (X:=X) row).
Proof.
  intros w message. unfold insert_item. st_unfold.
  repeat (destruct (_ !! _)); discriminate.
Qed.

Lemma never_duplicate_insert_attachment row : never_duplicate (insert_attachment (X:=X) row).
Proof.
  intros w message. unfold insert_attachment. st_unfold.
  repeat (destruct (_ !! _)); discriminate.
Qed.

Lemma never_duplicate_insert_annotation_set row :
  never_duplicate (insert_annotation_set (X:=X) row).
Proof.
  intros w message. unfold insert_annotation_set. st_unfold.
  repeat (destruct (_ !! _)); discriminate.
Qed.

Lemma never_duplicate_insert_upload row : never_duplicate (insert_upload (X:=X) row).
Proof.
  intros w message. unfold insert_upload. st_unfold.
  repeat (destruct (_ !! _)); discriminate.
Qed.

Lemma rowToItem_not_duplicate row message :
  rowToItem row <> Throws (DuplicateError message).
Proof.
  assert (Hp : forall A (J : JSON A) text (fallback : A) e,
             parse_or text fallback = Throws e -> exists m, e = SyntaxError m).
  { intros A J text fallback e. unfold parse_or, JSON_parse.
    destruct (truthy text); [|discriminate].
    destruct text as [t|]; [|discriminate].
    destruct (parse t); [discriminate|]. intros [= <-]. eauto. }
  unfold rowToItem.
  destruct (parse_or (ItemRow.authors row) []) eqn:E1;
    [|apply Hp in E1 as [m ->]; discriminate].
  destruct (parse_or (ItemRow.tags row) []) eqn:E2;
    [|apply Hp in E2 as [m ->]; discriminate].
  destruct (parse_or (ItemRow.extra row) (JObject [])) eqn:E3;
    [|apply Hp in E3 as [m ->]; discriminate].
  discriminate.
Qed.

Lemma never_duplicate_getItem id : never_duplicate (getItem (X:=X) id).
Proof.
  unfold getItem. apply never_duplicate_bind; [apply never_duplicate_gets|].
  intros [row|]; [|apply never_duplicate_ret].
  apply never_duplicate_bind; [|intros; apply never_duplicate_ret].
  apply never_duplicate_lift. apply rowToItem_not_duplicate.
Qed.

Ltac never_duplicate :=
  repeat first
    [ apply never_duplicate_transaction
    | apply never_duplicate_ret
    | apply never_duplicate_gets
    | apply never_duplicate_external
    | apply never_duplicate_now_sql
    | apply never_duplicate_new_uuid
    | apply never_duplicate_insert_item
    | apply never_duplicate_insert_attachment
    | apply never_duplicate_insert_annotation_set
    | apply never_duplicate_insert_upload
    | apply never_duplicate_getItem
    | apply never_duplicate_bind; [|intros ?] ].

Lemma never_duplicate_add_pdf_queued library localPdfPath filename checksum size :
  never_duplicate (add_pdf_queued library localPdfPath filename checksum size).
Proof.
  unfold add_pdf_queued, insert_pdf_item, insert_new_annotation_set, current_user.
  never_duplicate.
Qed.

Lemma never_duplicate_add_pdf_uploaded library localPdfPath filename checksum size
    driveFile :
  never_duplicate
    (add_pdf_uploaded library localPdfPath filename checksum size driveFile).
Proof.
  unfold add_pdf_uploaded, insert_pdf_item, insert_new_annotation_set, current_user.
  never_duplicate.
  destruct (head _); [never_duplicate|].
  intros w message. discriminate.
Qed.

Lemma extends_calls_ret {A} (a : A) : extends_calls (@ret (World X) A a).
Proof. intros w. exists []. now rewrite app_nil_r. Qed.

Lemma extends_calls_throw {A} e : extends_calls (@throw (World X) A e).
Proof. intros w. exists []. now rewrite app_nil_r. Qed.

Lemma extends_calls_gets {A} (f : World X -> A) : extends_calls (gets f).
Proof. intros w. exists []. now rewrite app_nil_r. Qed.

Lemma extends_calls_lift {A} (r : result A) : extends_calls (@lift_result (World X) A r).
Proof. intros w. exists []. now rewrite app_nil_r. Qed.

Lemma extends_calls_write f : extends_calls (write (X:=X) f).
Proof. intros w. exists []. now rewrite app_nil_r. Qed.

Lemma extends_calls_bind {A B} (m : ST (World X) A) (k : A -> ST (World X) B) :
  extends_calls m -> (forall a, extends_calls (k a)) -> extends_calls (bind m k).
Proof.
  intros Hm Hk w. unfold bind. destruct (Hm w) as [calls1 H1].
  destruct (m w) as [[a|e] w']; cbn [snd] in *.
  - destruct (Hk a w') as [calls2 H2]. exists (calls1 ++ calls2)%list.
    now rewrite H2, H1, app_assoc.
  - eauto.
Qed.

Lemma extends_calls_external {A} (op : X -> (A + Rejection) * X) :
  extends_calls (external op).
Proof.
  intros w. exists []. unfold external. destruct (op (ext w)).
  now rewrite app_nil_r.
Qed.

Lemma extends_calls_drive {A} call (op : X -> (A + Rejection) * X) :
  extends_calls (drive call op).
Proof. intros w. exists [call]. unfold drive. now destruct (op (ext w)). Qed.

Lemma extends_calls_now_sql : extends_calls (now_sql (X:=X)).
Proof.
  intros w. exists []. unfold now_sql, now_ms, bind, ret.
  destruct (Date_now (ext w)). now rewrite app_nil_r.
Qed.

Lemma extends_calls_new_uuid : extends_calls (new_uuid (X:=X)).
Proof.
  intros w. exists []. unfold new_uuid. destruct (uuid (ext w)).
  now rewrite app_nil_r.
Qed.

Lemma extends_calls_transaction {A} (fn : ST (World X) A) :
  extends_calls fn -> extends_calls (transaction fn).
Proof.
  intros Hfn w. unfold transaction. destruct (Hfn w) as [calls Hc].
  destruct (fn w) as [[a|e] w']; eauto.
Qed.

Ltac extends_calls :=
  repeat first
    [ apply extends_calls_transaction
    | apply extends_calls_ret
    | apply extends_calls_throw
    | apply extends_calls_gets
    | apply extends_calls_lift
    | apply extends_calls_write
    | apply extends_calls_external
    | apply extends_calls_drive
    | apply extends_calls_now_sql
    | apply extends_calls_new_uuid
    | apply extends_calls_bind; [|intros ?]
    | match goal with
      | |- extends_calls (match ?x with _ => _ end) => destruct x
      end ].

Lemma extends_calls_getItem id : extends_calls (getItem (X:=X) id).
Proof. unfold getItem. extends_calls. Qed.

Lemma extends_calls_add_pdf_queued library localPdfPath filename checksum size :
  extends_calls (add_pdf_queued library localPdfPath filename checksum size).
Proof.
  unfold add_pdf_queued, insert_pdf_item, insert_new_annotation_set, current_user,
    insert_item, insert_attachment, insert_annotation_set, insert_upload.
  extends_calls; apply extends_calls_getItem.
Qed.

Lemma extends_calls_add_pdf_uploaded library localPdfPath filename checksum size
    driveFile :
  extends_calls (add_pdf_uploaded library localPdfPath filename checksum size driveFile).
Proof.
  unfold add_pdf_uploaded, insert_pdf_item, insert_new_annotation_set, current_user,
    insert_item, insert_attachment, insert_annotation_set, insert_upload.
  extends_calls; apply extends_calls_getItem.
Qed.

Lemma is_duplicate_true d checksum libraryId (a : Attachment) :
  is_duplicate d checksum libraryId a = true <->
  Attachment.checksum a = checksum
  /\ exists i, items d !! Attachment.itemId a = Some i
               /\ ItemRow.libraryId i = libraryId /\ ItemRow.deleted i = 0.
Proof.
  unfold is_duplicate. rewrite andb_true_iff, String.eqb_eq.
  destruct (items d !! Attachment.itemId a) as [i|].
  - rewrite andb_true_iff, String.eqb_eq, Z.eqb_eq. split.
    + intros (? & ? & ?). eauto.
    + intros (? & i' & [= <-] & ? & ?). auto.
  - split; [intros [_ [=]]|intros (_ & i & [=] & _)].
Qed.

Lemma rowToItem_pdf id libraryId filename user now :
  rowToItem (pdf_item_row id libraryId filename user now)
  = Returns (new_pdf_item id libraryId filename user now).
Proof. reflexivity. Qed.

(** The [catch] branch, run with fresh identifiers and a cache that takes
    the file. *)
Lemma add_pdf_queued_stores library localPdfPath filename checksum size w
    queueId x3 itemId x4 attachmentId x5 t1 x6 t2 x7 setId x8 t3 x9 t4 x10 cached x11 :
  uuid (ext w) = (queueId, x3) -> uuid x3 = (itemId, x4) ->
  uuid x4 = (attachmentId, x5) ->
  Date_now x5 = (t1, x6) -> Date_now x6 = (t2, x7) ->
  uuid x7 = (setId, x8) ->
  Date_now x8 = (t3, x9) -> Date_now x9 = (t4, x10) ->
  storePdf checksum localPdfPath x10 = (inl cached, x11) ->
  libraries (db w) !! Library.id library = Some library ->
  items (db w) !! itemId = None ->
  attachments (db w) !! attachmentId = None ->
  annotation_sets (db w) !! setId = None ->
  upload_queue (db w) !! queueId = None ->
  add_pdf_queued library localPdfPath filename checksum size w
  = (Returns (Some (new_pdf_item itemId (Library.id library) filename
                      (currentUserId x5) (sqlite_datetime t1))),
     mkWorld
       (with_upload_queue
          (insert queueId
             (new_upload_row queueId pdf attachmentId (Some localPdfPath)
                (sqlite_datetime t4)))
          (with_new_pdf
             (pdf_item_row itemId (Library.id library) filename
                (currentUserId x5) (sqlite_datetime t1))
             (queued_attachment attachmentId itemId filename size checksum
                (currentUserId x6) (sqlite_datetime t2))
             (new_annotation_set_row setId attachmentId (currentUserId x8)
                (sqlite_datetime t3))
             (db w)))
       x11 (drive_calls w)).
Proof.
  intros Hq Hi Ha Ht1 Ht2 Hs Ht3 Ht4 Hstore Hkeyed Hitem Hattachment Hset Hqueue.
  unfold add_pdf_queued, insert_pdf_item, insert_new_annotation_set.
  st_unfold. st_simpl.
  st_with Hq. st_with Hi. st_with Ha. st_with Ht1.
  cbn [pdf_item_row ItemRow.id ItemRow.libraryId]. st_with Hitem. st_with Hkeyed.
  st_with Ht2. cbn [Attachment.id Attachment.itemId]. st_with Hattachment.
  rewrite lookup_insert_eq. st_simpl.
  st_with Hs. st_with Ht3.
  cbn [new_annotation_set_row AnnotationSetRow.id AnnotationSetRow.attachmentId].
  st_with Hset. rewrite lookup_insert_eq. st_simpl.
  st_with Ht4. cbn [new_upload_row UploadQueueEntry.id]. st_with Hqueue.
  st_with Hstore. unfold getItem. st_unfold. st_simpl.
  rewrite lookup_insert_eq. st_simpl.
  reflexivity.
Qed.

(** Steps 6 and 7, run with fresh identifiers and a cache that takes the
    file. *)
Lemma add_pdf_uploaded_stores library localPdfPath filename checksum size driveFile w
    parent itemId x3 attachmentId x4 t1 x5 t2 x6 setId x7 t3 x8 cached x9 :
  head (DriveFileMetadata.parents driveFile) = Some parent ->
  uuid (ext w) = (itemId, x3) -> uuid x3 = (attachmentId, x4) ->
  Date_now x4 = (t1, x5) -> Date_now x5 = (t2, x6) ->
  uuid x6 = (setId, x7) ->
  Date_now x7 = (t3, x8) ->
  storePdf checksum localPdfPath x8 = (inl cached, x9) ->
  libraries (db w) !! Library.id library = Some library ->
  items (db w) !! itemId = None ->
  attachments (db w) !! attachmentId = None ->
  annotation_sets (db w) !! setId = None ->
  add_pdf_uploaded library localPdfPath filename checksum size driveFile w
  = (Returns (Some (new_pdf_item itemId (Library.id library) filename
                      (currentUserId x4) (sqlite_datetime t1))),
     mkWorld
       (with_new_pdf
          (pdf_item_row itemId (Library.id library) filename
             (currentUserId x4) (sqlite_datetime t1))
          (stored_attachment attachmentId itemId filename size checksum
             driveFile parent (Library.driveRootId library)
             (currentUserId x5) (sqlite_datetime t2))
          (new_annotation_set_row setId attachmentId (currentUserId x7)
             (sqlite_datetime t3))
          (db w))
       x9 (drive_calls w)).
Proof.
  intros Hparent Hi Ha Ht1 Ht2 Hs Ht3 Hstore Hkeyed Hitem Hattachment Hset.
  unfold add_pdf_uploaded, insert_pdf_item, insert_new_annotation_set.
  st_unfold. st_simpl.
  st_with Hi. st_with Ha. st_with Ht1.
  cbn [pdf_item_row ItemRow.id ItemRow.libraryId]. st_with Hitem. st_with Hkeyed.
  rewrite Hparent. st_simpl.
  st_with Ht2. cbn [Attachment.id Attachment.itemId]. st_with Hattachment.
  rewrite lookup_insert_eq. st_simpl.
  st_with Hs. st_with Ht3.
  cbn [new_annotation_set_row AnnotationSetRow.id AnnotationSetRow.attachmentId].
  st_with Hset. rewrite lookup_insert_eq. st_simpl.
  st_with Hstore. unfold getItem. st_unfold. st_simpl.
  rewrite lookup_insert_eq. st_simpl.
  reflexivity.
Qed.

(** C10. Once the file is there, its checksum is [checksum] and the
    library of the group is [library], [addPdfToGroup] throws
    [DuplicateError] exactly when some attachment with that checksum
    belongs to an item of that library that is not soft-deleted. When
    there is none, in particular when every item that carries the checksum
    is soft-deleted, the add goes on to the Drive (its first call ensures
    the [pdfs] folder) and succeeds, with fresh identifiers and a cache
    that takes the file. When the Drive rejects the folder or the upload,
    the add returns the new item and has stored the item, an attachment
    for the checksum without Drive identifiers, an empty annotation set
    and a pending upload of type [pdf], and nothing else. When the upload
    succeeds, it returns the new item and has stored the item, an
    attachment for the checksum with the identifiers of the Drive file
    and an empty annotation set, and nothing else. In both cases the
    calls on the Drive are the ones of the upload and the world outside
    is as [storePdf] left it. *)
Theorem addPdfToGroup_duplicate_iff w groupId localPdfPath checksum x1 size library :
  fs_existsSync localPdfPath (ext w) = true ->
  computeSHA256 localPdfPath (ext w) = (inl checksum, x1) ->
  fs_statSync_size localPdfPath x1 = inl size ->
  library_of_group groupId (db w) = Some library ->
  let filename := path_basename localPdfPath in
  let live_duplicate :=
    exists k a i,
      attachments (db w) !! k = Some a
      /\ Attachment.checksum a = checksum
      /\ items (db w) !! Attachment.itemId a = Some i
      /\ ItemRow.libraryId i = Library.id library
      /\ ItemRow.deleted i = 0 in
  ((exists message,
       fst (addPdfToGroup groupId localPdfPath w) = Throws (DuplicateError message))
   <-> live_duplicate)
  /\ (~ live_duplicate ->
      exists calls,
        drive_calls (snd (addPdfToGroup groupId localPdfPath w))
        = (drive_calls w ++ EnsureFolder (Library.driveRootId library) "pdfs" :: calls)%list)
  /\ (forall rejection x2 calls queueId x3 itemId x4 attachmentId x5 t1 x6 t2 x7
             setId x8 t3 x9 t4 x10 cached x11,
        ~ live_duplicate ->
        ((ensureFolder (Library.driveRootId library) "pdfs" x1 = (inr rejection, x2)
          /\ calls = [EnsureFolder (Library.driveRootId library) "pdfs"])
         \/ (exists folder xf,
               ensureFolder (Library.driveRootId library) "pdfs" x1 = (inl folder, xf)
               /\ uploadResumable
                    (pdf_upload_options checksum filename localPdfPath folder) xf
                  = (inr rejection, x2)
               /\ calls
                  = [EnsureFolder (Library.driveRootId library) "pdfs";
                     UploadResumable
                       (pdf_upload_options checksum filename localPdfPath folder)])) ->
        uuid x2 = (queueId, x3) -> uuid x3 = (itemId, x4) ->
        uuid x4 = (attachmentId, x5) ->
        Date_now x5 = (t1, x6) -> Date_now x6 = (t2, x7) ->
        uuid x7 = (setId, x8) ->
        Date_now x8 = (t3, x9) -> Date_now x9 = (t4, x10) ->
        storePdf checksum localPdfPath x10 = (inl cached, x11) ->
        libraries (db w) !! Library.id library = Some library ->
        items (db w) !! itemId = None ->
        attachments (db w) !! attachmentId = None ->
        annotation_sets (db w) !! setId = None ->
        upload_queue (db w) !! queueId = None ->
        addPdfToGroup groupId localPdfPath w
        = (Returns (Some (new_pdf_item itemId (Library.id library) filename
                            (currentUserId x5) (sqlite_datetime t1))),
           mkWorld
             (with_upload_queue
                (insert queueId
                   (new_upload_row queueId pdf attachmentId (Some localPdfPath)
                      (sqlite_datetime t4)))
                (with_new_pdf
                   (pdf_item_row itemId (Library.id library) filename
                      (currentUserId x5) (sqlite_datetime t1))
                   (queued_attachment attachmentId itemId filename size checksum
                      (currentUserId x6) (sqlite_datetime t2))
                   (new_annotation_set_row setId attachmentId (currentUserId x8)
                      (sqlite_datetime t3))
                   (db w)))
             x11 (drive_calls w ++ calls)))
  /\ (forall folder xf driveFile x2 parent itemId x3 attachmentId x4 t1 x5 t2 x6
             setId x7 t3 x8 cached x9,
        ~ live_duplicate ->
        ensureFolder (Library.driveRootId library) "pdfs" x1 = (inl folder, xf) ->
        uploadResumable (pdf_upload_options checksum filename localPdfPath folder) xf
        = (inl driveFile, x2) ->
        head (DriveFileMetadata.parents driveFile) = Some parent ->
        uuid x2 = (itemId, x3) -> uuid x3 = (attachmentId, x4) ->
        Date_now x4 = (t1, x5) -> Date_now x5 = (t2, x6) ->
        uuid x6 = (setId, x7) ->
        Date_now x7 = (t3, x8) ->
        storePdf checksum localPdfPath x8 = (inl cached, x9) ->
        libraries (db w) !! Library.id library = Some library ->
        items (db w) !! itemId = None ->
        attachments (db w) !! attachmentId = None ->
        annotation_sets (db w) !! setId = None ->
        addPdfToGroup groupId localPdfPath w
        = (Returns (Some (new_pdf_item itemId (Library.id library) filename
                            (currentUserId x4) (sqlite_datetime t1))),
           mkWorld
             (with_new_pdf
                (pdf_item_row itemId (Library.id library) filename
                   (currentUserId x4) (sqlite_datetime t1))
                (stored_attachment attachmentId itemId filename size checksum
                   driveFile parent (Library.driveRootId library)
                   (currentUserId x5) (sqlite_datetime t2))
                (new_annotation_set_row setId attachmentId (currentUserId x7)
                   (sqlite_datetime t3))
                (db w))
             x9
             (drive_calls w
              ++ [EnsureFolder (Library.driveRootId library) "pdfs";
                  UploadResumable
                    (pdf_upload_options checksum filename localPdfPath folder)]))).
Proof.
  intros Hexists Hsha Hstat Hlib filename live_duplicate.
  set (w1 := mkWorld (db w) x1 (drive_calls w)).
  assert (Hrun : addPdfToGroup groupId localPdfPath w =
                 match find_duplicate checksum (Library.id library) (db w) with
                 | Some existing =>
                     (Throws (DuplicateError
                                ("PDF already exists in this group library: "
                                 ++ Attachment.filename existing)), w1)
                 | None =>
                     (uploaded <- settle (upload_pdf library localPdfPath filename checksum) ;;
                      match uploaded with
                      | Throws _ => add_pdf_queued library localPdfPath filename checksum size
                      | Returns driveFile =>
                          add_pdf_uploaded library localPdfPath filename checksum size
                            driveFile
                      end) w1
                 end).
  { unfold addPdfToGroup. unfold bind at 1, gets at 1. rewrite Hexists. cbn [negb].
    unfold bind at 1, external at 1. rewrite Hsha. cbn [of_rejection ext db drive_calls].
    fold w1. unfold bind at 1. unfold bind at 1, gets at 1, lift_result at 1.
    cbn [ext w1]. rewrite Hstat. cbn [of_rejection].
    unfold bind at 1, gets at 1. cbn [db w1]. rewrite Hlib.
    unfold bind at 1, gets at 1. cbn [db w1].
    destruct (find_duplicate checksum (Library.id library) (db w)); reflexivity. }
  assert (Hdup : find_duplicate checksum (Library.id library) (db w) <> None
                 <-> live_duplicate).
  { unfold find_duplicate, live_duplicate. split.
    - destruct (first_row _ _) as [a|] eqn:Hfind; [intros _|intros Hn; now destruct Hn].
      apply first_row_Some in Hfind as [[k Hk] Hp].
      apply is_duplicate_true in Hp as (Hsum & i & Hi & Hl & Hd).
      exists k, a, i. auto.
    - intros (k & a & i & Hk & Hsum & Hi & Hl & Hd) Hnone.
      pose proof (first_row_None _ _ _ _ Hnone Hk) as Hp.
      assert (is_duplicate (db w) checksum (Library.id library) a = true)
        by (apply is_duplicate_true; eauto).
      congruence. }
  split; [split|split; [|split]].
  - intros [message Hthrow]. apply Hdup. intros Hnone.
    rewrite Hrun, Hnone in Hthrow. revert Hthrow.
    apply never_duplicate_bind.
    + intros s m. unfold settle. destruct (upload_pdf _ _ _ _ s). discriminate.
    + intros [driveFile|e];
        [apply never_duplicate_add_pdf_uploaded|apply never_duplicate_add_pdf_queued].
  - intros Hlive. apply Hdup in Hlive. rewrite Hrun.
    destruct (find_duplicate _ _ _) as [existing|]; [|congruence]. eauto.
  - intros Hnone. rewrite <- Hdup in Hnone.
    destruct (find_duplicate _ _ _) as [existing|] eqn:Hfind;
      [exfalso; apply Hnone; discriminate|].
    rewrite Hrun. clear Hrun.
    unfold bind at 1, settle at 1, upload_pdf at 1, bind at 1, drive at 1.
    destruct (ensureFolder _ _ (ext w1)) as [[pdfsFolderId|rejection] x2];
      cbn [of_rejection].
    + match goal with
      | |- context [drive ?c ?op ?s] =>
          destruct (extends_calls_drive c op s) as [calls1 Hcalls1];
          destruct (drive c op s) as [uploaded w3]
      end.
      cbn [snd] in Hcalls1.
      match goal with
      | |- context [snd (?m w3)] =>
          assert (He : extends_calls m)
      end.
      { destruct uploaded;
          [apply extends_calls_add_pdf_uploaded|apply extends_calls_add_pdf_queued]. }
      destruct (He w3) as [calls2 Hcalls2].
      exists (calls1 ++ calls2)%list.
      rewrite Hcalls2, Hcalls1. cbn [drive_calls w1].
      now rewrite <- !app_assoc.
    + match goal with
      | |- context [snd (?m ?s)] =>
          destruct (extends_calls_add_pdf_queued library localPdfPath filename
                      checksum size s) as [calls Hcalls]
      end.
      exists calls. rewrite Hcalls. cbn [drive_calls w1].
      now rewrite <- !app_assoc.
  - intros rejection x2 calls queueId x3 itemId x4 attachmentId x5 t1 x6 t2 x7
      setId x8 t3 x9 t4 x10 cached x11 Hnone Hfailed Hq Hi Ha Ht1 Ht2 Hs Ht3 Ht4
      Hstore Hkeyed Hitem Hattachment Hset Hqueue.
    rewrite <- Hdup in Hnone.
    destruct (find_duplicate _ _ _) as [existing|] eqn:Hfind;
      [exfalso; apply Hnone; discriminate|].
    rewrite Hrun. clear Hrun.
    assert (Hupload : upload_pdf library localPdfPath filename checksum w1
                      = (Throws (Rejected rejection),
                         mkWorld (db w) x2 (drive_calls w ++ calls))).
    { unfold upload_pdf, bind, drive. cbn [ext db drive_calls w1].
      destruct Hfailed as [[Hfolder ->]|(folder & xf & Hfolder & Hup & ->)];
        rewrite Hfolder; cbn [of_rejection ext db drive_calls]; [reflexivity|].
      fold (pdf_upload_options checksum filename localPdfPath folder).
      rewrite Hup. cbn [of_rejection]. now rewrite <- app_assoc. }
    unfold bind at 1, settle at 1. rewrite Hupload.
    exact (add_pdf_queued_stores library localPdfPath filename checksum size
             (mkWorld (db w) x2 (drive_calls w ++ calls))
             queueId x3 itemId x4 attachmentId x5 t1 x6 t2 x7 setId x8 t3 x9 t4 x10
             cached x11 Hq Hi Ha Ht1 Ht2 Hs Ht3 Ht4 Hstore Hkeyed Hitem Hattachment
             Hset Hqueue).
  - intros folder xf driveFile x2 parent itemId x3 attachmentId x4 t1 x5 t2 x6
      setId x7 t3 x8 cached x9 Hnone Hfolder Hup Hparent Hi Ha Ht1 Ht2 Hs Ht3
      Hstore Hkeyed Hitem Hattachment Hset.
    rewrite <- Hdup in Hnone.
    destruct (find_duplicate _ _ _) as [existing|] eqn:Hfind;
      [exfalso; apply Hnone; discriminate|].
    rewrite Hrun. clear Hrun.
    assert (Hupload : upload_pdf library localPdfPath filename checksum w1
                      = (Returns driveFile,
                         mkWorld (db w) x2
                           (drive_calls w
                            ++ [EnsureFolder (Library.driveRootId library) "pdfs";
                                UploadResumable
                                  (pdf_upload_options checksum filename localPdfPath
                                     folder)]))).
    { unfold upload_pdf, bind, drive. cbn [ext db drive_calls w1].
      rewrite Hfolder. cbn [of_rejection ext db drive_calls].
      fold (pdf_upload_options checksum filename localPdfPath folder).
      rewrite Hup. cbn [of_rejection]. now rewrite <- app_assoc. }
    unfold bind at 1, settle at 1. rewrite Hupload.
    exact (add_pdf_uploaded_stores library localPdfPath filename checksum size
             driveFile
             (mkWorld (db w) x2
                (drive_calls w
                 ++ [EnsureFolder (Library.driveRootId library) "pdfs";
                     UploadResumable
                       (pdf_upload_options checksum filename localPdfPath folder)]))
             parent itemId x3 attachmentId x4 t1 x5 t2 x6 setId x7 t3 x8 cached x9
             Hparent Hi Ha Ht1 Ht2 Hs Ht3 Hstore Hkeyed Hitem Hattachment Hset).
Qed.
End AddPdfClaims.


Section AddPdfWitness.
Import Scenario ConflictScenario DuplicateScenario.

(** With the item live the add is refused as a duplicate. With the item
    soft-deleted the same file is added: a new item comes back, the
    library has two items and two attachments for the checksum, and the
    file is in the cache; with the Drive out of reach the upload is
    queued instead. *)
Lemma addPdfToGroup_duplicate_iff_witness :
  (exists message,
      fst (addPdfToGroup "group-1" path live_world) = Throws (DuplicateError message))
  /\ (exists calls,
        drive_calls (snd (addPdfToGroup "group-1" path deleted_world))
        = EnsureFolder (Some "root") "pdfs" :: calls)
  /\ (exists w',
        addPdfToGroup "group-1" path deleted_world
        = (Returns (Some (new_pdf_item "uuid-1" "lib-1" "paper.pdf" "test-user"
                            "2024-01-01 10:00:00")), w')
        /\ items (db w') !! "item-1" = Some deleted_paper
        /\ items (db w') !! "uuid-1"
           = Some (pdf_item_row "uuid-1" "lib-1" "paper.pdf" "test-user"
                     "2024-01-01 10:00:00")
        /\ (exists a, attachments (db w') !! "uuid-2" = Some a
                      /\ Attachment.itemId a = "uuid-1"
                      /\ Attachment.checksum a = "abcdef1234567890"
                      /\ Attachment.driveFileId a = Some "drive:abcdef12_paper.pdf")
        /\ upload_queue (db w') = ∅
        /\ drive_calls w'
           = [EnsureFolder (Some "root") "pdfs";
              UploadResumable
                (pdf_upload_options "abcdef1234567890" "paper.pdf" path "root/pdfs")]
        /\ getPdfPath "abcdef1234567890" (ext w')
           = Some "/cache/pdfs/abcdef1234567890.pdf")
  /\ (exists w',
        addPdfToGroup "group-1" path deleted_offline
        = (Returns (Some (new_pdf_item "uuid-2" "lib-1" "paper.pdf" "test-user"
                            "2024-01-01 10:00:00")), w')
        /\ (exists a, attachments (db w') !! "uuid-3" = Some a
                      /\ Attachment.itemId a = "uuid-2"
                      /\ Attachment.checksum a = "abcdef1234567890"
                      /\ Attachment.driveFileId a = None)
        /\ upload_queue (db w') !! "uuid-1"
           = Some (new_upload_row "uuid-1" pdf "uuid-3" (Some path)
                     "2024-01-01 10:00:00")).
Proof.
  assert (Hfree : forall w : World Mock.t,
             db w = db deleted_world ->
             ~ (exists k a i,
                   attachments (db w) !! k = Some a
                   /\ Attachment.checksum a = "abcdef1234567890"
                   /\ items (db w) !! Attachment.itemId a = Some i
                   /\ ItemRow.libraryId i = Library.id group_library
                   /\ ItemRow.deleted i = 0)).
  { intros w -> (k & a & i & Hk & _ & Hi & _ & Hdeleted).
    unfold deleted_world in Hk, Hi. cbn [db attachments items] in Hk, Hi.
    apply lookup_singleton_Some in Hk as [<- <-].
    apply lookup_singleton_Some in Hi as [_ <-].
    discriminate Hdeleted. }
  split; [|split; [|split]].
  - edestruct (addPdfToGroup_duplicate_iff live_world "group-1" path) as [[_ Hlive] _].
    + vm_compute; reflexivity.
    + vm_compute; reflexivity.
    + vm_compute; reflexivity.
    + vm_compute; reflexivity.
    + apply Hlive. exists "att-1", paper_pdf, paper. vm_compute. repeat split.
  - edestruct (addPdfToGroup_duplicate_iff deleted_world "group-1" path)
      as (_ & Hgoes & _).
    + vm_compute; reflexivity.
    + vm_compute; reflexivity.
    + vm_compute; reflexivity.
    + vm_compute; reflexivity.
    + apply Hgoes. apply (Hfree deleted_world eq_refl).
  - edestruct (addPdfToGroup_duplicate_iff deleted_world "group-1" path)
      as (_ & _ & _ & Huploaded).
    + vm_compute; reflexivity.
    + vm_compute; reflexivity.
    + vm_compute; reflexivity.
    + vm_compute; reflexivity.
    + eexists. split.
      * etransitivity.
        { eapply Huploaded; [apply (Hfree deleted_world eq_refl)|..];
            vm_compute; reflexivity. }
        vm_compute. reflexivity.
      * vm_compute. repeat split. eexists. repeat split.
  - edestruct (addPdfToGroup_duplicate_iff deleted_offline "group-1" path)
      as (_ & _ & Hqueued & _).
    + vm_compute; reflexivity.
    + vm_compute; reflexivity.
    + vm_compute; reflexivity.
    + vm_compute; reflexivity.
    + eexists. split.
      * etransitivity.
        { eapply Hqueued;
            [apply (Hfree deleted_offline eq_refl)
            |left; split; vm_compute; reflexivity|..];
            vm_compute; reflexivity. }
        vm_compute. reflexivity.
      * vm_compute. repeat split. eexists. repeat split.
Defined.
End AddPdfWitness.
(** ** What the phases of a sync pass leave untouched *)

Section Keeps.
Context {X : Type}.
Context `{!IDriveService X, !ICacheService X, !IBackendApi X, !Platform X}.
Context `{!Formats}.
Context `{!JSON (list Author), !JSON (list string), !JSON JsonValue}.
Context `{!JSON (list Annotation), !JSON AnnotationSidecar}.
Context {T : Type} (part : Db -> T).

Lemma keeps_ret {A} (a : A) : keeps part (@ret (World X) A a).
Proof. intros w. reflexivity. Qed.

Lemma keeps_throw {A} e : keeps part (@throw (World X) A e).
Proof. intros w. reflexivity. Qed.

Lemma keeps_gets {A} (f : World X -> A) : keeps part (gets f).
Proof. intros w. reflexivity. Qed.

Lemma keeps_lift {A} (r : result A) : keeps part (@lift_result (World X) A r).
Proof. intros w. reflexivity. Qed.

Lemma keeps_bind {A B} (m : ST (World X) A) (k : A -> ST (World X) B) :
  keeps part m -> (forall a, keeps part (k a)) -> keeps part (bind m k).
Proof.
  intros Hm Hk w. unfold bind. specialize (Hm w).
  destruct (m w) as [[a|e] w']; cbn [snd] in *; [|assumption].
  now rewrite Hk.
Qed.

Lemma keeps_external {A} (op : X -> (A + Rejection) * X) : keeps part (external op).
Proof. intros w. unfold external. now destruct (op (ext w)). Qed.

Lemma keeps_drive {A} call (op : X -> (A + Rejection) * X) : keeps part (drive call op).
Proof. intros w. unfold drive. now destruct (op (ext w)). Qed.

Lemma keeps_now_ms : keeps part (now_ms (X:=X)).
Proof. intros w. unfold now_ms. now destruct (Date_now (ext w)). Qed.

Lemma keeps_write f : (forall d, part (f d) = part d) -> keeps part (write (X:=X) f).
Proof. intros Hf w. apply Hf. Qed.

Lemma keeps_counting_ret {A} (a : A) :
  keeps_counting part (@ret (SyncResult * World X) A a).
Proof. intros s. reflexivity. Qed.

Lemma keeps_counting_on_snd {A} (m : ST (World X) A) :
  keeps part m -> keeps_counting part (on_snd m).
Proof.
  intros Hm [r w]. unfold on_snd. cbn [fst snd]. specialize (Hm w).
  now destruct (m w).
Qed.

Lemma keeps_counting_on_fst f : keeps_counting part (on_fst (S:=World X) f).
Proof. intros s. reflexivity. Qed.

Lemma keeps_counting_bind {A B} (m : ST (SyncResult * World X) A)
    (k : A -> ST (SyncResult * World X) B) :
  keeps_counting part m -> (forall a, keeps_counting part (k a)) ->
  keeps_counting part (bind m k).
Proof.
  intros Hm Hk s. unfold bind. specialize (Hm s).
  destruct (m s) as [[a|e] s']; cbn [snd] in *; [|assumption].
  now rewrite Hk.
Qed.

Lemma keeps_counting_try_catch {A} (m : ST (SyncResult * World X) A) handler :
  keeps_counting part m -> (forall e, keeps_counting part (handler e)) ->
  keeps_counting part (try_catch m handler).
Proof.
  intros Hm Hh s. unfold try_catch. specialize (Hm s).
  destruct (m s) as [[a|e] s']; cbn [snd] in *; [assumption|].
  now rewrite Hh.
Qed.

Lemma keeps_counting_for_each {A} (l : list A)
    (body : A -> ST (SyncResult * World X) unit) :
  (forall a, keeps_counting part (body a)) ->
  keeps_counting part (for_each l body).
Proof.
  intros Hbody. induction l as [|a l IH]; cbn [for_each].
  - apply keeps_counting_ret.
  - apply keeps_counting_bind; auto.
Qed.
End Keeps.

(** Prove that a computation keeps a part of the database, from its
    structure. *)
Ltac keeps :=
  repeat first
    [ apply keeps_ret
    | apply keeps_throw
    | apply keeps_gets
    | apply keeps_lift
    | apply keeps_external
    | apply keeps_drive
    | apply keeps_now_ms
    | apply keeps_write; intros ?; reflexivity
    | apply keeps_counting_ret
    | apply keeps_counting_on_fst
    | apply keeps_counting_on_snd
    | apply keeps_counting_try_catch; [|intros ?]
    | apply keeps_counting_for_each; intros ?
    | apply keeps_bind; [|intros ?]
    | apply keeps_counting_bind; [|intros ?]
    | match goal with
      | |- keeps _ (match ?x with _ => _ end) => destruct x
      | |- keeps _ (if ?x then _ else _) => destruct x
      | |- keeps_counting _ (match ?x with _ => _ end) => destruct x
      | |- keeps_counting _ (if ?x then _ else _) => destruct x
      end ].

Section PhasesKeep.
Context {X : Type}.
Context `{!IDriveService X, !ICacheService X, !IBackendApi X, !Platform X}.
Context `{!Formats}.
Context `{!JSON (list Author), !JSON (list string), !JSON JsonValue}.
Context `{!JSON (list Annotation), !JSON AnnotationSidecar}.

(** The handlers write to [attachments] and [annotation_sets] only. *)
Lemma run_handler_keeps_items (upload : UploadQueueEntry) :
  keeps items (run_handler (X:=X) upload).
Proof.
  unfold run_handler, processPdfUpload, processAnnotationUpload, now_iso,
    current_user, update_attachment, update_annotation_set.
  keeps.
Qed.

Lemma run_handler_keeps_queue (upload : UploadQueueEntry) :
  keeps upload_queue (run_handler (X:=X) upload).
Proof.
  unfold run_handler, processPdfUpload, processAnnotationUpload, now_iso,
    current_user, update_attachment, update_annotation_set.
  keeps.
Qed.

Lemma processUploadQueue_keeps_items : keeps_counting items (processUploadQueue (X:=X)).
Proof.
  unfold processUploadQueue, process_upload, record_failure, update_upload.
  keeps; apply run_handler_keeps_items.
Qed.

Lemma push_keeps_items lastSync : keeps_counting items (push (X:=X) lastSync).
Proof. unfold push, push_item. keeps. Qed.

Lemma commit_cursor_keeps_items : keeps items (commit_cursor (X:=X)).
Proof. unfold commit_cursor, now_iso, now_sql. keeps. Qed.
End PhasesKeep.

(** ** The pull of a sync pass *)

Section PullClaims.
Context {X : Type}.
Context `{!IDriveService X, !ICacheService X, !IBackendApi X, !Platform X}.
Context `{!Formats}.
Context `{!JSON (list Author), !JSON (list string), !JSON JsonValue}.
Context `{!JSON (list Annotation), !JSON AnnotationSidecar}.
Implicit Types (w : World X) (r : SyncResult) (remote local : ItemRow).

(** A remote item that is newer than a dirty local row is counted as a
    conflict and nothing is written. *)
Lemma pull_item_conflict lastSync remote local r w :
  items (db w) !! ItemRow.id remote = Some local ->
  ItemRow.version local < ItemRow.version remote ->
  str_gt (ItemRow.modifiedAt local) lastSync = true ->
  pull_item lastSync remote (r, w) = (Returns tt, (count_conflict r, w)).
Proof.
  intros Hlocal Hnewer Hdirty. unfold pull_item. st_unfold. st_simpl.
  rewrite Hlocal.
  replace (ItemRow.version local <? ItemRow.version remote) with true
    by (symmetry; now apply Z.ltb_lt).
  now rewrite Hdirty.
Qed.

(** Whatever remote item the pull handles, a dirty local row stays as it
    is. *)
Lemma pull_item_keeps_dirty lastSync remote id local r w :
  str_gt (ItemRow.modifiedAt local) lastSync = true ->
  items (db w) !! id = Some local ->
  items (db (snd (snd (pull_item lastSync remote (r, w))))) !! id = Some local.
Proof.
  intros Hdirty Hlocal. unfold pull_item. st_unfold. st_simpl.
  destruct (decide (ItemRow.id remote = id)) as [->|Hne].
  - rewrite Hlocal. rewrite Hdirty.
    destruct (ItemRow.version local <? ItemRow.version remote); assumption.
  - destruct (items (db w) !! ItemRow.id remote) as [other|] eqn:Hother.
    + destruct (ItemRow.version other <? ItemRow.version remote); [|assumption].
      destruct (str_gt (ItemRow.modifiedAt other) lastSync); [assumption|].
      st_simpl. now rewrite lookup_alter_ne.
    + st_simpl. cbn [pulled_row ItemRow.id ItemRow.libraryId]. rewrite Hother.
      destruct (libraries (db w) !! ItemRow.libraryId remote); st_simpl;
        [|assumption].
      now rewrite lookup_insert_ne.
Qed.

Lemma pull_items_keep_dirty lastSync (remoteChanges : list ItemRow) id local r w :
  str_gt (ItemRow.modifiedAt local) lastSync = true ->
  items (db w) !! id = Some local ->
  items (db (snd (snd (for_each remoteChanges (pull_item lastSync) (r, w))))) !! id
  = Some local.
Proof.
  intros Hdirty. revert r w.
  induction remoteChanges as [|remote rest IH]; intros r w Hlocal; [assumption|].
  cbn [for_each]. unfold bind.
  pose proof (pull_item_keeps_dirty lastSync remote id local r w Hdirty Hlocal) as Hstep.
  destruct (pull_item lastSync remote (r, w)) as [[[]|e] [r' w']]; cbn [snd] in *.
  - now apply IH.
  - assumption.
Qed.

Lemma pull_keeps_dirty lastSync id local r w :
  str_gt (ItemRow.modifiedAt local) lastSync = true ->
  items (db w) !! id = Some local ->
  items (db (snd (snd (pull lastSync (r, w))))) !! id = Some local.
Proof.
  intros Hdirty Hlocal. unfold pull, try_catch, bind, on_snd, external.
  cbn [fst snd].
  destruct (getChanges lastSync (ext w)) as [[remoteChanges|rejection] x1];
    cbn [of_rejection fst snd]; [|assumption].
  pose proof (pull_items_keep_dirty lastSync remoteChanges id local r
                (mkWorld (db w) x1 (drive_calls w)) Hdirty Hlocal) as Hloop.
  destruct (for_each remoteChanges (pull_item lastSync) _) as [[[]|e] [r' w']];
    cbn [snd] in *; assumption.
Qed.

Lemma sync_pass_keeps_dirty id local r w :
  str_gt (ItemRow.modifiedAt local) (last_sync (db w)) = true ->
  items (db w) !! id = Some local ->
  items (db (snd (snd (sync_pass (r, w))))) !! id = Some local.
Proof.
  intros Hdirty Hlocal. unfold sync_pass.
  set (lastSync := last_sync (db w)) in *.
  unfold try_catch, on_fst. unfold bind at 1, on_snd at 1, gets at 1. cbn [fst snd].
  fold lastSync.
  pose proof (pull_keeps_dirty lastSync id local r w Hdirty Hlocal) as Hpull.
  unfold bind at 1.
  destruct (pull lastSync (r, w)) as [[[]|e] s1]; cbn [snd] in *; [|assumption].
  pose proof (push_keeps_items lastSync s1) as Hpush.
  unfold bind at 1.
  destruct (push lastSync s1) as [[[]|e] s2]; cbn [snd] in *;
    [|now rewrite Hpush].
  pose proof (processUploadQueue_keeps_items s2) as Hdrain.
  unfold bind at 1.
  destruct (processUploadQueue s2) as [[[]|e] s3]; cbn [snd] in *;
    [|now rewrite Hdrain, Hpush].
  pose proof (keeps_counting_on_snd items _ commit_cursor_keeps_items s3) as Hcommit.
  destruct (on_snd commit_cursor s3) as [[[]|e] s4]; cbn [snd] in *;
    now rewrite Hcommit, Hdrain, Hpush.
Qed.

(** What the test of the pass protects: a local row whose [modifiedAt]
    is, as a text, greater than the cursor. When the pull handles an item
    of the same id and a strictly greater version it counts one conflict,
    counts nothing else and writes nothing; and at the end of the whole
    pass the local row is the row it was. *)
Lemma syncLoop_conflict_keeps_local w remote local :
  items (db w) !! ItemRow.id remote = Some local ->
  ItemRow.version local < ItemRow.version remote ->
  str_gt (ItemRow.modifiedAt local) (last_sync (db w)) = true ->
  (forall r w',
      items (db w') !! ItemRow.id remote = Some local ->
      pull_item (last_sync (db w)) remote (r, w') = (Returns tt, (count_conflict r, w'))
      /\ SyncResult.conflicts (count_conflict r) = SyncResult.conflicts r + 1)
  /\ items (db (snd (syncLoop w))) !! ItemRow.id remote = Some local.
Proof.
  intros Hlocal Hnewer Hdirty. split.
  - intros r w' Hlocal'. split; [|reflexivity].
    now apply pull_item_conflict with (local := local).
  - unfold syncLoop.
    pose proof (sync_pass_keeps_dirty (ItemRow.id remote) local
                  (SyncResult.mk 0 0 0 0) w Hdirty Hlocal) as Hpass.
    destruct (sync_pass _) as [out [result w']]. exact Hpass.
Qed.
End PullClaims.


Section PullWitness.
Import Scenario SyncScenario.

(** The example of the design document, with a local row that carries
    an ISO stamp of the day after the last sync: local version 2, remote
    version 3. The pass reports one conflict (and one push, of the local
    edit), and the local row is untouched. *)
Lemma syncLoop_conflict_keeps_local_witness :
  fst (syncLoop world) = Returns (SyncResult.mk 1 0 1 0)
  /\ items (db (snd (syncLoop world))) !! "item-1" = Some local_item
  /\ pull_item "2024-01-01T00:00:00.000Z" remote_item (SyncResult.mk 0 0 0 0, world)
     = (Returns tt, (SyncResult.mk 0 0 1 0, world)).
Proof.
  destruct (syncLoop_conflict_keeps_local world remote_item local_item)
    as [Hstep Hpass].
  - reflexivity.
  - reflexivity.
  - reflexivity.
  - split; [reflexivity|]. split; [exact Hpass|].
    exact (proj1 (Hstep (SyncResult.mk 0 0 0 0) world eq_refl)).
Defined.
End PullWitness.

(** ** The upload queue *)

Section ListFacts.
Context {A B : Type} (f : A -> B).

Lemma NoDup_map_filter (p : A -> bool) (l : list A) :
  List.NoDup (List.map f l) -> List.NoDup (List.map f (List.filter p l)).
Proof.
  induction l as [|a l IH]; [trivial|].
  cbn [List.map List.filter]. intros Hnd.
  apply NoDup_cons_iff in Hnd as [Hnin Hnd].
  destruct (p a); [|auto]. cbn [List.map]. apply NoDup_cons_iff. split; [|auto].
  intros Hin. apply Hnin. apply in_map_iff in Hin as (a' & <- & Hin').
  apply in_map. apply filter_In in Hin'. tauto.
Qed.
End ListFacts.

Section PendingFacts.
Implicit Types (d : Db) (u : UploadQueueEntry).

Lemma rows_ids_NoDup (table : gmap string UploadQueueEntry) :
  keyed UploadQueueEntry.id table ->
  List.NoDup (List.map UploadQueueEntry.id (rows table)).
Proof.
  intros Hkeyed. unfold rows.
  assert (Hids : List.map UploadQueueEntry.id ((map_to_list table).*2)
                 = (map_to_list table).*1).
  { assert (Hall : forall kr, In kr (map_to_list table) ->
                              UploadQueueEntry.id (snd kr) = fst kr).
    { intros [k r] Hin. apply list_elem_of_In, elem_of_map_to_list in Hin.
      exact (Hkeyed k r Hin). }
    induction (map_to_list table) as [|kr l IH]; [reflexivity|].
    cbn. rewrite Hall by (now left). f_equal. apply IH.
    intros kr' Hin. apply Hall. now right. }
  rewrite Hids. apply NoDup_ListNoDup. apply NoDup_fst_map_to_list.
Qed.

Lemma pending_uploads_NoDup d :
  keyed UploadQueueEntry.id (upload_queue d) ->
  List.NoDup (List.map UploadQueueEntry.id (pending_uploads d)).
Proof.
  intros Hkeyed. unfold pending_uploads.
  eapply Permutation_NoDup.
  - apply Permutation_map. apply array_sort_perm.
  - apply NoDup_map_filter. now apply rows_ids_NoDup.
Qed.

Lemma pending_uploads_In d id u :
  upload_queue d !! id = Some u ->
  UploadQueueEntry.status u = pending ->
  In u (pending_uploads d).
Proof.
  intros Hu Hpending. unfold pending_uploads.
  eapply Permutation_in; [apply array_sort_perm|].
  apply filter_In. split.
  - apply in_rows. eauto.
  - unfold is_pending. now rewrite Hpending.
Qed.
End PendingFacts.

Section QueueClaims.
Context {X : Type}.
Context `{!IDriveService X, !ICacheService X, !IBackendApi X, !Platform X}.
Context `{!Formats}.
Context `{!JSON (list Author), !JSON (list string), !JSON JsonValue}.
Context `{!JSON (list Annotation), !JSON AnnotationSidecar}.
Implicit Types (w : World X) (r : SyncResult) (u upload : UploadQueueEntry).
Implicit Types (id : string).

(** One turn of the loop never throws, and writes to the row of its
    entry what [recorded] says. *)
Lemma process_upload_records upload r w :
  fst (process_upload upload (r, w)) = Returns tt
  /\ upload_queue (db (snd (snd (process_upload upload (r, w)))))
     = alter (recorded upload (run_handler upload w)) (UploadQueueEntry.id upload)
         (upload_queue (db w)).
Proof.
  pose proof (run_handler_keeps_queue upload w) as Hkeep.
  unfold process_upload, record_failure, recorded. st_unfold. st_simpl.
  destruct (run_handler upload w) as [[[]|err] wh]; st_simpl; cbn [snd] in Hkeep.
  - now rewrite Hkeep.
  - destruct (UploadQueueEntry.maxRetries upload
              <=? UploadQueueEntry.retryCount upload + 1); st_simpl.
    + now rewrite Hkeep.
    + destruct (Date_now (ext wh)) as [now x1]. st_simpl. now rewrite Hkeep.
Qed.

Lemma for_each_uploads_returns (uploads : list UploadQueueEntry) s :
  fst (for_each uploads process_upload s) = Returns tt.
Proof.
  revert s. induction uploads as [|upload rest IH]; intros [r w]; [reflexivity|].
  cbn [for_each]. unfold bind.
  destruct (process_upload_records upload r w) as [Hret _].
  destruct (process_upload upload (r, w)) as [[[]|e] s']; [apply IH|discriminate].
Qed.

(** The turns of other entries leave the row of an entry alone. *)
Lemma for_each_uploads_other (uploads : list UploadQueueEntry) id s :
  (forall upload, In upload uploads -> UploadQueueEntry.id upload <> id) ->
  upload_queue (db (snd (snd (for_each uploads process_upload s)))) !! id
  = upload_queue (db (snd s)) !! id.
Proof.
  revert s. induction uploads as [|upload rest IH]; intros [r w] Hother; [reflexivity|].
  cbn [for_each]. unfold bind.
  destruct (process_upload_records upload r w) as [Hret Hqueue].
  destruct (process_upload upload (r, w)) as [[[]|e] s']; [|discriminate].
  cbn [snd] in *. rewrite IH by (intros; apply Hother; now right).
  rewrite Hqueue. apply lookup_alter_ne. apply Hother. now left.
Qed.

(** The loop reaches every entry of its list, whatever the outcomes of
    the entries before it. *)
Lemma for_each_uploads_reaches (uploads : list UploadQueueEntry) u s :
  List.NoDup (List.map UploadQueueEntry.id uploads) ->
  In u uploads ->
  upload_queue (db (snd s)) !! UploadQueueEntry.id u = Some u ->
  exists out,
    handler_outcome (UploadQueueEntry.id u) uploads s = Some out
    /\ upload_queue (db (snd (snd (for_each uploads process_upload s))))
       !! UploadQueueEntry.id u
       = Some (recorded u out u).
Proof.
  revert s. induction uploads as [|upload rest IH]; intros [r w] Hnd Hin Hu; [easy|].
  cbn [List.map] in Hnd. apply NoDup_cons_iff in Hnd as [Hnin Hnd].
  cbn [handler_outcome for_each snd]. unfold bind.
  destruct (process_upload_records upload r w) as [Hret Hqueue].
  destruct (String.eqb_spec (UploadQueueEntry.id upload) (UploadQueueEntry.id u))
    as [Heq|Hne].
  - assert (upload = u) as ->.
    { destruct Hin as [Hin|Hin]; [assumption|].
      exfalso. apply Hnin. rewrite Heq. now apply in_map. }
    exists (run_handler u w). split; [reflexivity|].
    destruct (process_upload u (r, w)) as [[[]|e] s']; [|discriminate].
    cbn [snd] in *. rewrite for_each_uploads_other.
    + rewrite Hqueue, lookup_alter_eq. cbn [snd] in Hu. now rewrite Hu.
    + intros upload Hupload Hid. apply Hnin. rewrite <- Hid. now apply in_map.
  - destruct Hin as [->|Hin]; [congruence|].
    destruct (process_upload upload (r, w)) as [[[]|e] [r' w']]; [|discriminate].
    cbn [snd] in *. apply IH; [assumption|assumption|].
    cbn [snd]. rewrite Hqueue, lookup_alter_ne by assumption. exact Hu.
Qed.

(** A drain attempts every pending entry and records the outcome. *)
Lemma drain_records w id u :
  keyed UploadQueueEntry.id (upload_queue (db w)) ->
  upload_queue (db w) !! id = Some u ->
  UploadQueueEntry.status u = pending ->
  exists out,
    drain_outcome id w = Some out
    /\ upload_queue (db (drain w)) !! id = Some (recorded u out u).
Proof.
  intros Hkeyed Hu Hpending.
  assert (Hid : UploadQueueEntry.id u = id) by exact (Hkeyed id u Hu).
  subst id. unfold drain_outcome, drain, processUploadQueue.
  unfold bind at 1, on_snd at 1, gets at 1. cbn [fst snd].
  apply for_each_uploads_reaches.
  - now apply pending_uploads_NoDup.
  - now apply pending_uploads_In with (id := UploadQueueEntry.id u).
  - exact Hu.
Qed.

Lemma processUploadQueue_returns s : fst (processUploadQueue s) = Returns tt.
Proof.
  unfold processUploadQueue. unfold bind at 1, on_snd at 1, gets at 1.
  cbn [fst snd]. apply for_each_uploads_returns.
Qed.
End QueueClaims.

Section RetryClaims.
Context {X : Type}.
Context `{!IDriveService X, !ICacheService X, !IBackendApi X, !Platform X}.
Context `{!Formats}.
Context `{!JSON (list Author), !JSON (list string), !JSON JsonValue}.
Context `{!JSON (list Annotation), !JSON AnnotationSidecar}.
Implicit Types (w : World X) (r : SyncResult) (u upload : UploadQueueEntry).
Implicit Types (id : string) (outs : list (result unit)).

(** The counters do not steer the drain. *)
Lemma for_each_uploads_world (uploads : list UploadQueueEntry) r r' w :
  snd (snd (for_each uploads process_upload (r, w)))
  = snd (snd (for_each uploads process_upload (r', w))).
Proof.
  revert r r' w. induction uploads as [|upload rest IH]; intros r r' w; [reflexivity|].
  cbn [for_each]. unfold bind.
  assert (Hstep : snd (snd (process_upload upload (r, w)))
                  = snd (snd (process_upload upload (r', w)))
                  /\ fst (process_upload upload (r, w)) = Returns tt
                  /\ fst (process_upload upload (r', w)) = Returns tt).
  { split; [|split; apply process_upload_records].
    unfold process_upload, record_failure. st_unfold. st_simpl.
    destruct (run_handler upload w) as [[[]|err] wh]; st_simpl; [reflexivity|].
    destruct (_ <=? _); st_simpl; [reflexivity|].
    destruct (Date_now (ext wh)). reflexivity. }
  destruct Hstep as (Hworld & Hret & Hret').
  destruct (process_upload upload (r, w)) as [[[]|e] [r1 w1]]; [|discriminate].
  destruct (process_upload upload (r', w)) as [[[]|e] [r1' w1']]; [|discriminate].
  cbn [snd] in Hworld. subst w1'. apply IH.
Qed.

Lemma processUploadQueue_world r w : snd (snd (processUploadQueue (r, w))) = drain w.
Proof.
  unfold drain, processUploadQueue. unfold bind, on_snd, gets. cbn [fst snd].
  apply for_each_uploads_world.
Qed.

(** A sequence of drains in each of which the handler of a pending entry
    throws, as long as the retries last: the entry ends up failed, with
    its retry count at the maximum and the message of the last error. *)
Lemma drains_always_failing id outs w w' :
  drains id w outs w' ->
  forall u,
    keyed UploadQueueEntry.id (upload_queue (db w)) ->
    upload_queue (db w) !! id = Some u ->
    UploadQueueEntry.status u = pending ->
    Forall throws outs ->
    outs <> [] ->
    Z.of_nat (length outs) = UploadQueueEntry.maxRetries u - UploadQueueEntry.retryCount u ->
    exists u' err,
      upload_queue (db w') !! id = Some u'
      /\ UploadQueueEntry.status u' = failed
      /\ UploadQueueEntry.retryCount u' = UploadQueueEntry.maxRetries u
      /\ List.last outs (Returns tt) = Throws err
      /\ UploadQueueEntry.errorMsg u' = Some (exn_message err).
Proof.
  induction 1 as [|w out wh w' outs w'' Hout Hbetween Hkeyed' Hrest IH];
    intros u Hkeyed Hu Hpending Hthrows Hnonempty Hlength; [congruence|].
  destruct (drain_records w id u Hkeyed Hu Hpending) as (out0 & Hout0 & Hafter).
  rewrite Hout in Hout0. injection Hout0 as <-.
  apply Forall_cons_iff in Hthrows as [Hthrow Hthrows].
  destruct out as [[]|err]; [destruct Hthrow|].
  rewrite <- Hbetween in Hafter. unfold recorded in Hafter. cbn [fst snd] in Hafter.
  destruct outs as [|out2 outs].
  - inversion Hrest; subst. cbn [length] in Hlength.
    replace (UploadQueueEntry.maxRetries u <=? UploadQueueEntry.retryCount u + 1)
      with true in Hafter by (symmetry; apply Z.leb_le; lia).
    eexists _, err. split; [exact Hafter|]. cbn. repeat split. lia.
  - cbn [length] in Hlength.
    replace (UploadQueueEntry.maxRetries u <=? UploadQueueEntry.retryCount u + 1)
      with false in Hafter by (symmetry; apply Z.leb_gt; lia).
    destruct (IH _ Hkeyed' Hafter) as (u' & err' & Hu' & Hfailed & Hcount & Hlast & Hmsg).
    + exact Hpending.
    + exact Hthrows.
    + discriminate.
    + cbn [length UploadQueueEntry.maxRetries UploadQueueEntry.retryCount schedule_retry].
      lia.
    + exists u', err'. repeat split; assumption.
Qed.

(** C7. For an entry that is pending with retries left, and rows filed
    under their ids. (1) A drain attempts the entry whatever happens to
    the entries before it, and never throws: if the handler returns the
    entry is completed with its retry count unchanged; if it throws the
    retry count is one more and the message of the error is stored, the
    entry stays pending with [nextRetryAt] 2 ^ retryCount seconds after
    the reading of the clock while retries are left, and becomes failed
    when the count reaches the maximum. (2) Drains in which the handler
    always throws, as many as there are retries left, leave the entry
    failed, with its retry count exactly the maximum and the message of
    the last error. (3) A drain in which the handler throws followed by
    one in which it returns leave the entry completed, with a retry count
    one more than at the start: 1 for a new entry. *)
Theorem upload_queue_retry_accounting w id u :
  keyed UploadQueueEntry.id (upload_queue (db w)) ->
  upload_queue (db w) !! id = Some u ->
  UploadQueueEntry.status u = pending ->
  0 <= UploadQueueEntry.retryCount u < UploadQueueEntry.maxRetries u ->
  let newRetry := UploadQueueEntry.retryCount u + 1 in
  (exists out wh u',
      drain_outcome id w = Some (out, wh)
      /\ (forall r, fst (processUploadQueue (r, w)) = Returns tt
                    /\ snd (snd (processUploadQueue (r, w))) = drain w)
      /\ upload_queue (db (drain w)) !! id = Some u'
      /\ match out with
         | Returns _ =>
             UploadQueueEntry.status u' = completed
             /\ UploadQueueEntry.retryCount u' = UploadQueueEntry.retryCount u
         | Throws err =>
             UploadQueueEntry.retryCount u' = newRetry
             /\ UploadQueueEntry.errorMsg u' = Some (exn_message err)
             /\ (newRetry < UploadQueueEntry.maxRetries u ->
                 UploadQueueEntry.status u' = pending
                 /\ UploadQueueEntry.nextRetryAt u'
                    = Some (Date_toISOString
                              (fst (Date_now (ext wh)) + 2 ^ newRetry * 1000)))
             /\ (UploadQueueEntry.maxRetries u <= newRetry ->
                 UploadQueueEntry.status u' = failed)
         end)
  /\ (forall outs w',
        drains id w outs w' ->
        Forall throws outs ->
        Z.of_nat (length outs)
        = UploadQueueEntry.maxRetries u - UploadQueueEntry.retryCount u ->
        exists u' err,
          upload_queue (db w') !! id = Some u'
          /\ UploadQueueEntry.status u' = failed
          /\ UploadQueueEntry.retryCount u' = UploadQueueEntry.maxRetries u
          /\ List.last outs (Returns tt) = Throws err
          /\ UploadQueueEntry.errorMsg u' = Some (exn_message err))
  /\ (forall err w',
        newRetry < UploadQueueEntry.maxRetries u ->
        drains id w [Throws err; Returns tt] w' ->
        exists u',
          upload_queue (db w') !! id = Some u'
          /\ UploadQueueEntry.status u' = completed
          /\ UploadQueueEntry.retryCount u' = newRetry
          /\ (UploadQueueEntry.retryCount u = 0 -> UploadQueueEntry.retryCount u' = 1)).
Proof.
  intros Hkeyed Hu Hpending Hcount newRetry. split; [|split].
  - destruct (drain_records w id u Hkeyed Hu Hpending) as ([out wh] & Hout & Hafter).
    exists out, wh, (recorded u (out, wh) u). split; [exact Hout|].
    split; [intros r; split; [apply processUploadQueue_returns
                             |apply processUploadQueue_world]|].
    split; [exact Hafter|].
    unfold recorded. cbn [fst snd]. destruct out as [[]|err].
    + split; [reflexivity|reflexivity].
    + fold newRetry. destruct (Z.leb_spec (UploadQueueEntry.maxRetries u) newRetry).
      * split; [reflexivity|]. split; [reflexivity|]. split; [lia|reflexivity].
      * split; [reflexivity|]. split; [reflexivity|]. split; [|lia].
        intros _. split; [exact Hpending|reflexivity].
  - intros outs w' Hdrains Hthrows Hlength.
    apply (drains_always_failing id outs w w' Hdrains u); try assumption.
    intros ->. cbn [length] in Hlength. lia.
  - intros err w' Hleft Hdrains.
    inversion Hdrains as [|? ? wh1 w1 ? ? Hout1 Hbetween1 Hkeyed1 Hrest1]; subst.
    inversion Hrest1 as [|? ? wh2 w2 ? ? Hout2 Hbetween2 Hkeyed2 Hrest2]; subst.
    inversion Hrest2; subst.
    destruct (drain_records w id u Hkeyed Hu Hpending) as (out1 & Hout1' & Hafter1).
    rewrite Hout1 in Hout1'. injection Hout1' as <-.
    rewrite <- Hbetween1 in Hafter1. unfold recorded in Hafter1.
    cbn [fst snd] in Hafter1. fold newRetry in Hafter1.
    replace (UploadQueueEntry.maxRetries u <=? newRetry)
      with false in Hafter1 by (symmetry; apply Z.leb_gt; lia).
    destruct (drain_records w1 id _ Hkeyed1 Hafter1 Hpending) as (out2 & Hout2' & Hafter2).
    rewrite Hout2 in Hout2'. injection Hout2' as <-.
    rewrite <- Hbetween2 in Hafter2.
    eexists. split; [exact Hafter2|]. cbn. repeat split.
    intros Hzero. subst newRetry. lia.
Qed.
End RetryClaims.


Section RetryWitness.
Import Scenario ConflictScenario QueueScenario.

Lemma keyed_decide (table : gmap string UploadQueueEntry) :
  bool_decide (keyed UploadQueueEntry.id table) = true ->
  keyed UploadQueueEntry.id table.
Proof. apply bool_decide_eq_true_1. Qed.

Ltac drain_step :=
  first [apply keyed_decide; vm_compute; reflexivity | vm_compute; reflexivity].

(** The tests of the design, on Alice's entry, new and with five tries.
    Unreachable Drive: after one drain the entry is pending with one
    retry, due two seconds later; after five drains it is failed with
    five retries and the message of the rejection. Unreachable once and
    then reachable: the entry is completed with one retry. *)
Lemma upload_queue_retry_accounting_witness :
  (exists u',
      upload_queue (db (after_drains 1)) !! "q-1" = Some u'
      /\ UploadQueueEntry.status u' = pending
      /\ UploadQueueEntry.retryCount u' = 1
      /\ UploadQueueEntry.nextRetryAt u' = Some "2024-01-01T10:00:02.000Z")
  /\ (exists u',
        upload_queue (db (after_drains 5)) !! "q-1" = Some u'
        /\ UploadQueueEntry.status u' = failed
        /\ UploadQueueEntry.retryCount u' = 5
        /\ UploadQueueEntry.errorMsg u' = Some "network unreachable")
  /\ (exists u',
        upload_queue (db (drain (reconnect (after_drains 1)))) !! "q-1" = Some u'
        /\ UploadQueueEntry.status u' = completed
        /\ UploadQueueEntry.retryCount u' = 1).
Proof.
  destruct (upload_queue_retry_accounting offline_world "q-1" queued_upload)
    as (Hone & Hfailing & Hrecovers).
  - apply keyed_decide. vm_compute; reflexivity.
  - vm_compute; reflexivity.
  - vm_compute; reflexivity.
  - vm_compute. split; [discriminate|reflexivity].
  - split; [|split].
    + destruct Hone as (out & wh & u' & Hout & _ & Hafter & Hcase).
      vm_compute in Hout. injection Hout as <- <-.
      destruct Hcase as (Hcount & _ & Hleft & _).
      destruct Hleft as [Hpending Hnext]; [vm_compute; reflexivity|].
      exists u'. split; [exact Hafter|]. split; [exact Hpending|].
      split; [exact Hcount|]. rewrite Hnext. vm_compute; reflexivity.
    + destruct (Hfailing (List.repeat (Throws unreachable) 5) (after_drains 5))
        as (u' & err & Hafter & Hfailed & Hcount & Hlast & Hmsg).
      * eapply drains_next with (w' := after_drains 1); [drain_step..|].
        eapply drains_next with (w' := after_drains 2); [drain_step..|].
        eapply drains_next with (w' := after_drains 3); [drain_step..|].
        eapply drains_next with (w' := after_drains 4); [drain_step..|].
        eapply drains_next with (w' := after_drains 5); [drain_step..|].
        apply drains_done.
      * repeat constructor.
      * vm_compute; reflexivity.
      * injection Hlast as <-. exists u'. repeat split; assumption.
    + destruct (Hrecovers unreachable (drain (reconnect (after_drains 1))))
        as (u' & Hafter & Hcompleted & Hcount & _).
      * vm_compute; reflexivity.
      * eapply drains_next with (w' := reconnect (after_drains 1)); [drain_step..|].
        eapply drains_next with (w' := drain (reconnect (after_drains 1)));
          [drain_step..|].
        apply drains_done.
      * exists u'. repeat split; assumption.
Defined.
End RetryWitness.

(** ** More on the annotation merge *)

Section StringOrderTrans.
Lemma ascii_compare_trans (a b c : ascii) :
  Ascii.compare a b = Gt -> Ascii.compare b c = Gt -> Ascii.compare a c = Gt.
Proof.
  unfold Ascii.compare. rewrite !N.compare_gt_iff. lia.
Qed.

Lemma ascii_compare_refl (a : ascii) : Ascii.compare a a = Eq.
Proof. unfold Ascii.compare. apply N.compare_refl. Qed.

Lemma string_compare_trans (s t u : string) :
  String.compare s t = Gt -> String.compare t u = Gt -> String.compare s u = Gt.
Proof.
  revert t u. induction s as [|a s IH]; intros [|b t] [|c u]; simpl; try congruence.
  destruct (Ascii.compare a b) eqn:Eab; try discriminate.
  - apply Ascii.compare_eq_iff in Eab. subst b.
    destruct (Ascii.compare a c); try congruence. apply IH.
  - intros _. destruct (Ascii.compare b c) eqn:Ebc; try discriminate.
    + apply Ascii.compare_eq_iff in Ebc. subst c. now rewrite Eab.
    + intros _. now rewrite (ascii_compare_trans a b c).
Qed.

Lemma str_gt_trans s t u : str_gt s t = true -> str_gt t u = true -> str_gt s u = true.
Proof.
  unfold str_gt.
  destruct (String.compare s t) eqn:E1; try discriminate.
  destruct (String.compare t u) eqn:E2; try discriminate.
  now rewrite (string_compare_trans s t u).
Qed.

(** What is not later than [e] is not later than anything later than [e]. *)
Lemma str_gt_false_later x e e' :
  str_gt x e = false -> str_gt e' e = true -> str_gt x e' = false.
Proof.
  intros Hx He. destruct (str_gt x e') eqn:E; [|reflexivity].
  rewrite (str_gt_trans x e' e) in Hx; congruence.
Qed.
End StringOrderTrans.

Section MergeMore.
Import Fixtures.
Implicit Types (local remote : list Annotation) (m : JsMap Annotation).
Implicit Types (a b c : Annotation) (k : string).

Lemma map_values_ids m :
  Forall (fun kv => Annotation.id (snd kv) = fst kv) m ->
  List.map Annotation.id (map_values m) = List.map fst m.
Proof.
  induction 1 as [|[k v] m Hid _ IH]; [reflexivity|].
  cbn [map_values List.map fst snd] in *. now rewrite Hid, <- IH.
Qed.

Lemma merge_remote_entries m a kv :
  In kv (merge_remote m a) -> kv = (Annotation.id a, a) \/ In kv m.
Proof.
  unfold merge_remote.
  destruct (map_get _ m); [destruct (str_gt _ _)|];
    auto using map_set_entries.
Qed.

Lemma seed_local_entries local kv : In kv (seed_local local) -> In (snd kv) local.
Proof.
  induction local as [|x local IH] using rev_ind; [intros []|].
  rewrite seed_local_snoc. intros Hin. apply in_or_app.
  apply map_set_entries in Hin as [->|Hin]; [right; now left|left; auto].
Qed.

Lemma merged_map_entries local remote kv :
  In kv (merged_map local remote) -> In (snd kv) (local ++ remote).
Proof.
  unfold merged_map. intros Hin. apply in_or_app.
  assert (H : In kv (seed_local local) \/ In (snd kv) remote).
  { revert Hin. generalize (seed_local local).
    induction remote as [|x remote IH]; simpl; intros m Hin; [now left|].
    destruct (IH _ Hin) as [Hm|Hr]; [|right; now right].
    apply merge_remote_entries in Hm as [->|Hm]; [right; now left|now left]. }
  destruct H as [H|H]; [left; now apply seed_local_entries|now right].
Qed.

Lemma merge_remote_keys m a k :
  In k (List.map fst (merge_remote m a))
  <-> k = Annotation.id a \/ In k (List.map fst m).
Proof.
  unfold merge_remote. destruct (map_get (Annotation.id a) m) as [e|] eqn:G.
  - assert (Hin : In (Annotation.id a) (List.map fst m)).
    { apply map_get_In in G. change (Annotation.id a) with (fst (Annotation.id a, e)).
      now apply in_map. }
    destruct (str_gt _ _).
    + apply map_set_keys.
    + split; [now right|]. intros [->|H]; assumption.
  - apply map_set_keys.
Qed.

Lemma seed_local_keys local k :
  In k (List.map fst (seed_local local)) <-> In k (List.map Annotation.id local).
Proof.
  induction local as [|x local IH] using rev_ind; [reflexivity|].
  rewrite seed_local_snoc, map_set_keys, IH, List.map_app, in_app_iff. simpl.
  intuition.
Qed.

Lemma merged_map_keys local remote k :
  In k (List.map fst (merged_map local remote))
  <-> In k (List.map Annotation.id (local ++ remote)).
Proof.
  unfold merged_map. rewrite List.map_app, in_app_iff, <- seed_local_keys.
  generalize (seed_local local).
  induction remote as [|x remote IH]; simpl; intros m; [tauto|].
  rewrite IH, merge_remote_keys. intuition.
Qed.

Lemma merged_ids local remote :
  Permutation (List.map fst (merged_map local remote))
    (List.map Annotation.id (mergeAnnotations local remote)).
Proof.
  destruct (keyed_by_id_merged local remote) as [_ Hall].
  rewrite <- (map_values_ids _ Hall). unfold mergeAnnotations.
  apply Permutation_map, array_sort_perm.
Qed.

Lemma merged_ids_NoDup local remote :
  List.NoDup (List.map Annotation.id (mergeAnnotations local remote)).
Proof.
  eapply Permutation_NoDup; [apply merged_ids|].
  apply (keyed_by_id_merged local remote).
Qed.

(** X1. Whatever the inputs hold, no two annotations of the output of
    [mergeAnnotations] have the same id. *)
Theorem mergeAnnotations_ids_distinct local remote :
  List.NoDup (List.map Annotation.id (mergeAnnotations local remote)).
Proof. apply merged_ids_NoDup. Qed.

(** X2. The output of [mergeAnnotations] invents nothing and forgets no
    id: each of its annotations is one of [local] or of [remote], and the
    ids that occur in it are exactly the ids that occur in [local] or in
    [remote]. *)
Theorem mergeAnnotations_covers local remote :
  (forall c, In c (mergeAnnotations local remote) -> In c local \/ In c remote)
  /\ (forall k, In k (List.map Annotation.id (mergeAnnotations local remote))
                <-> In k (List.map Annotation.id local)
                    \/ In k (List.map Annotation.id remote)).
Proof.
  split.
  - intros c Hc. apply in_app_or.
    apply (Permutation_in _ (Permutation_sym (array_sort_perm _ _))) in Hc.
    unfold map_values in Hc. apply in_map_iff in Hc as (kv & <- & Hkv).
    now apply merged_map_entries.
  - intros k. rewrite <- in_app_iff, <- List.map_app, <- merged_map_keys.
    split; apply Permutation_in; [symmetry|]; apply merged_ids.
Qed.

Lemma map_set_fresh {V} k (v : V) (m : JsMap V) :
  ~ In k (List.map fst m) -> map_set k v m = (m ++ [(k, v)])%list.
Proof.
  induction m as [|[k0 v0] m IH]; simpl; intros Hk; [reflexivity|].
  destruct (String.eqb_spec k k0) as [->|_]; [exfalso; auto|].
  rewrite IH; auto.
Qed.

(** Seeding with annotations of distinct ids files them in their order. *)
Lemma seed_local_distinct local :
  List.NoDup (List.map Annotation.id local) ->
  seed_local local = List.map (fun a => (Annotation.id a, a)) local.
Proof.
  induction local as [|x local IH] using rev_ind; [reflexivity|].
  rewrite List.map_app. intros Hnd.
  apply NoDup_remove in Hnd as [Hnd Hx]. rewrite app_nil_r in Hnd, Hx.
  rewrite seed_local_snoc, (IH Hnd), List.map_app. simpl.
  apply map_set_fresh. rewrite List.map_map. simpl. exact Hx.
Qed.

Lemma map_values_filed (l : list Annotation) :
  map_values (List.map (fun a => (Annotation.id a, a)) l) = l.
Proof.
  unfold map_values. rewrite List.map_map. simpl. apply List.map_id.
Qed.

(** A remote annotation that is not later than the entry of its id
    changes nothing. *)
Lemma fold_remote_settled remote m :
  (forall x, In x remote ->
     exists e, map_get (Annotation.id x) m = Some e
               /\ str_gt (Annotation.modifiedAt x) (Annotation.modifiedAt e) = false) ->
  fold_left merge_remote remote m = m.
Proof.
  induction remote as [|x remote IH]; simpl; intros Hall; [reflexivity|].
  destruct (Hall x) as (e & He & Hle); [now left|].
  unfold merge_remote at 2. rewrite He, Hle. apply IH. auto.
Qed.

(** After the second loop the entry of the id of every remote annotation
    is at least as late as that annotation. *)
Lemma fold_remote_dominates remote m x :
  (In x remote
   \/ exists e, map_get (Annotation.id x) m = Some e
                /\ str_gt (Annotation.modifiedAt x) (Annotation.modifiedAt e) = false) ->
  exists e, map_get (Annotation.id x) (fold_left merge_remote remote m) = Some e
            /\ str_gt (Annotation.modifiedAt x) (Annotation.modifiedAt e) = false.
Proof.
  revert m. induction remote as [|y remote IH]; simpl; intros m.
  - intros [[]|H]. exact H.
  - intros [[->|Hin]|(e & He & Hle)].
    + apply IH. right. rewrite map_get_merge_remote, String.eqb_refl.
      destruct (map_get (Annotation.id x) m) as [e|].
      * destruct (str_gt (Annotation.modifiedAt x) (Annotation.modifiedAt e)) eqn:E.
        -- eexists. split; [reflexivity|apply str_gt_irrefl].
        -- eexists. split; [reflexivity|exact E].
      * eexists. split; [reflexivity|apply str_gt_irrefl].
    + apply IH. now left.
    + apply IH. right. rewrite map_get_merge_remote, He.
      destruct (String.eqb (Annotation.id y) (Annotation.id x)); [|eauto].
      destruct (str_gt (Annotation.modifiedAt y) (Annotation.modifiedAt e)) eqn:E;
        [|eauto].
      eexists. split; [reflexivity|].
      now apply (str_gt_false_later _ (Annotation.modifiedAt e)).
Qed.

Lemma map_get_filed (l : list Annotation) k e :
  In (k, e) (List.map (fun a => (Annotation.id a, a)) l) ->
  List.NoDup (List.map Annotation.id l) ->
  map_get k (List.map (fun a => (Annotation.id a, a)) l) = Some e.
Proof.
  induction l as [|a l IH]; simpl; [intros []|].
  intros Hin Hnd. apply NoDup_cons_iff in Hnd as [Ha Hnd].
  destruct Hin as [[= <- <-]|Hin]; [now rewrite String.eqb_refl|].
  destruct (String.eqb_spec k (Annotation.id a)) as [->|_]; [|auto].
  exfalso. apply Ha. apply in_map_iff in Hin as (c & [= Hc <-] & Hin).
  rewrite <- Hc. now apply in_map.
Qed.

Lemma map_get_keyed m k e :
  keyed_by_id m -> map_get k m = Some e -> Annotation.id e = k.
Proof.
  intros [_ Hall] Hm. apply map_get_In in Hm.
  rewrite List.Forall_forall in Hall. exact (Hall _ Hm).
Qed.

Lemma array_sort_sorted_id {A} (cmp : A -> A -> Z) (l : list A) :
  StronglySorted (fun x y => cmp x y <= 0) l -> array_sort cmp l = l.
Proof.
  induction 1 as [|a l _ IH Hall]; [reflexivity|].
  simpl. rewrite IH. destruct l as [|b l]; [reflexivity|].
  simpl. apply Forall_cons_iff in Hall as [Hab _].
  apply Z.leb_le in Hab. now rewrite Hab.
Qed.

Lemma mergeAnnotations_compare_sorted local remote :
  StronglySorted (fun x y => compare_annotations x y <= 0)
    (mergeAnnotations local remote).
Proof.
  apply array_sort_sorted.
  - intros x y. rewrite !compare_annotations_order. unfold in_reading_order. lia.
  - intros x y z. rewrite !compare_annotations_order. unfold in_reading_order. lia.
Qed.

(** X3. Merging is stable: merging the output of a merge once more with
    the same remote annotations, or with none, gives the same output. *)
Theorem mergeAnnotations_idempotent local remote :
  let merged := mergeAnnotations local remote in
  mergeAnnotations merged remote = merged /\ mergeAnnotations merged [] = merged.
Proof.
  intros merged.
  assert (Hnd : List.NoDup (List.map Annotation.id merged))
    by apply merged_ids_NoDup.
  assert (Hsorted : array_sort compare_annotations merged = merged)
    by apply array_sort_sorted_id, mergeAnnotations_compare_sorted.
  split; unfold mergeAnnotations at 1, merged_map; rewrite (seed_local_distinct _ Hnd).
  - rewrite fold_remote_settled; [now rewrite map_values_filed|].
    intros x Hx.
    destruct (fold_remote_dominates remote (seed_local local) x) as (e & He & Hle);
      [now left|].
    exists e. split; [|exact Hle].
    apply map_get_filed; [|exact Hnd].
    pose proof (map_get_keyed _ _ _ (keyed_by_id_merged local remote) He) as Hid.
    apply (merged_contains _ _ local remote) in He. fold merged in He.
    rewrite <- Hid. apply (in_map (fun a => (Annotation.id a, a))). exact He.
  - simpl. now rewrite map_values_filed.
Qed.

Lemma fold_remote_distinct remote m :
  List.NoDup (List.map fst m ++ List.map Annotation.id remote) ->
  fold_left merge_remote remote m
  = (m ++ List.map (fun a => (Annotation.id a, a)) remote)%list.
Proof.
  revert m. induction remote as [|x remote IH]; simpl; intros m Hnd.
  - now rewrite app_nil_r.
  - pose proof (NoDup_remove_2 _ _ _ Hnd) as Hx.
    assert (Hfresh : ~ In (Annotation.id x) (List.map fst m)).
    { intros Hin. apply Hx. apply in_or_app. now left. }
    assert (Hm : merge_remote m x = (m ++ [(Annotation.id x, x)])%list).
    { unfold merge_remote. destruct (map_get _ m) as [e|] eqn:G.
      - exfalso. apply Hfresh. apply map_get_In in G.
        change (Annotation.id x) with (fst (Annotation.id x, e)). now apply in_map.
      - now apply map_set_fresh. }
    rewrite Hm, IH, <- app_assoc; [reflexivity|].
    rewrite List.map_app, <- app_assoc. exact Hnd.
Qed.

(** X4. With one side empty and no id repeated on the other side, the
    output is a rearrangement of that side: nothing is dropped and
    nothing is repeated. Two empty sides give the empty output. *)
Theorem mergeAnnotations_one_side (l : list Annotation) :
  List.NoDup (List.map Annotation.id l) ->
  Permutation l (mergeAnnotations l [])
  /\ Permutation l (mergeAnnotations [] l)
  /\ mergeAnnotations [] [] = [].
Proof.
  intros Hnd. split; [|split; [|reflexivity]].
  - unfold mergeAnnotations, merged_map. simpl.
    rewrite (seed_local_distinct _ Hnd), map_values_filed. apply array_sort_perm.
  - unfold mergeAnnotations, merged_map. simpl.
    rewrite fold_remote_distinct by exact Hnd. simpl.
    rewrite map_values_filed. apply array_sort_perm.
Qed.

(** The three annotations of the sorting test, on either side. *)
Lemma mergeAnnotations_one_side_witness :
  Permutation [page2_y100; page1_y500; page1_y700]
    (mergeAnnotations [page2_y100; page1_y500; page1_y700] [])
  /\ Permutation [page2_y100; page1_y500; page1_y700]
       (mergeAnnotations [] [page2_y100; page1_y500; page1_y700]).
Proof.
  destruct (mergeAnnotations_one_side [page2_y100; page1_y500; page1_y700])
    as (Hl & Hr & _).
  - repeat constructor; simpl; intuition discriminate.
  - split; assumption.
Defined.
End MergeMore.

(** ** Texts that are no envelope *)

Section SidecarMore.
Context `{!Formats, !JSON JsonValue}.

(** X5. What [parseSidecar] does with a text that is no envelope: the
    syntax error of [JSON.parse] goes through; the text [null] ends in
    the [TypeError] of reading a property of [null]; a value that has no
    [schemaVersion] of its own (a number, a string, a boolean, an array,
    an object without the field) fails the version check, and the message
    shows [undefined]. *)
Theorem parseSidecar_rejects_garbage (json : string) :
  (forall m, parse json = inr m -> parseSidecar json = Throws (SyntaxError m))
  /\ (JSON_parse json = Returns JNull ->
      parseSidecar json
      = Throws (TypeError "Cannot read properties of null (reading 'schemaVersion')"))
  /\ (forall data,
        JSON_parse json = Returns data ->
        data <> JNull ->
        (forall fields, data = JObject fields -> assoc_get "schemaVersion" fields = None) ->
        parseSidecar json = Throws (Error "Unsupported annotation schema version: undefined")
        /\ is_SchemaVersionError (Error "Unsupported annotation schema version: undefined")).
Proof.
  split; [|split].
  - intros m Hm. unfold parseSidecar, JSON_parse. now rewrite Hm.
  - intros Hp. unfold parseSidecar. now rewrite Hp.
  - intros data Hp Hnull Hfields. split; [|now exists "undefined"].
    unfold parseSidecar. rewrite Hp.
    destruct data as [|b|n|s|l|fields]; try reflexivity; [congruence|].
    cbn [get_property]. now rewrite (Hfields fields eq_refl).
Qed.
End SidecarMore.

(** A text that is not JSON, the text [null], a number and an empty
    object. *)
Lemma parseSidecar_rejects_garbage_witness :
  @parseSidecar reference_formats GarbageTexts.codec "oops"
  = Throws (SyntaxError "Unexpected token in JSON: oops")
  /\ @parseSidecar reference_formats GarbageTexts.codec "null"
     = Throws (TypeError "Cannot read properties of null (reading 'schemaVersion')")
  /\ @parseSidecar reference_formats GarbageTexts.codec "42"
     = Throws (Error "Unsupported annotation schema version: undefined")
  /\ @parseSidecar reference_formats GarbageTexts.codec "{}"
     = Throws (Error "Unsupported annotation schema version: undefined").
Proof.
  pose proof (@parseSidecar_rejects_garbage reference_formats GarbageTexts.codec "oops")
    as (Hsyntax & _).
  pose proof (@parseSidecar_rejects_garbage reference_formats GarbageTexts.codec "null")
    as (_ & Hnull & _).
  pose proof (@parseSidecar_rejects_garbage reference_formats GarbageTexts.codec "42")
    as (_ & _ & Hnumber).
  pose proof (@parseSidecar_rejects_garbage reference_formats GarbageTexts.codec "{}")
    as (_ & _ & Hobject).
  split; [|split; [|split]].
  - apply Hsyntax. reflexivity.
  - apply Hnull. reflexivity.
  - apply (Hnumber (JNumber 42)); [reflexivity|discriminate|discriminate].
  - apply (Hobject (JObject [])); [reflexivity|discriminate|].
    intros fields [= <-]. reflexivity.
Defined.

(** ** Names of uploaded files *)

Section FileNames.
Lemma characters_substring (n m : nat) (s : string) (c : ascii) :
  In c (characters (String.substring n m s)) -> In c (characters s).
Proof.
  revert n m. induction s as [|a s IH]; intros n m.
  - destruct n, m; simpl; auto.
  - destruct n as [|n]; simpl.
    + destruct m as [|m]; simpl; [intros []|].
      intros [->|Hin]; [now left|right; eauto].
    + intros Hin. right. eauto.
Qed.

Lemma length_substring_le (m : nat) (s : string) :
  (String.length (String.substring 0 m s) <= m)%nat.
Proof.
  revert m. induction s as [|a s IH]; intros [|m]; simpl; try lia.
  specialize (IH m). lia.
Qed.

Lemma substring_all (m : nat) (s : string) :
  (String.length s <= m)%nat -> String.substring 0 m s = s.
Proof.
  revert m. induction s as [|a s IH]; intros [|m]; simpl; try reflexivity; try lia.
  intros Hle. f_equal. apply IH. lia.
Qed.

Lemma underscore_allowed : illegal_in_filename "_"%char = false.
Proof. reflexivity. Qed.

Lemma replace_illegal_legal (s : string) (c : ascii) :
  In c (characters (replace_illegal s)) -> illegal_in_filename c = false.
Proof.
  induction s as [|a s IH]; simpl; [intros []|].
  intros [<-|Hin]; [|auto].
  destruct (illegal_in_filename a) eqn:E; [reflexivity|exact E].
Qed.

Lemma collapse_spaces_characters (in_run : bool) (s : string) (c : ascii) :
  In c (characters (collapse_spaces in_run s)) ->
  white_space c = false /\ (c = "_"%char \/ In c (characters s)).
Proof.
  revert in_run. induction s as [|a s IH]; intros in_run; simpl; [intros []|].
  destruct (white_space a) eqn:Ea.
  - destruct in_run; simpl.
    + intros Hin. destruct (IH _ Hin) as [H1 [H2|H2]]; auto.
    + intros [<-|Hin]; [split; [reflexivity|now left]|].
      destruct (IH _ Hin) as [H1 [H2|H2]]; auto.
  - simpl. intros [<-|Hin]; [auto|].
    destruct (IH _ Hin) as [H1 [H2|H2]]; auto.
Qed.

Lemma white_space_space : white_space " "%char = true.
Proof. reflexivity. Qed.

Lemma white_space_no_break_space : white_space (ascii_of_nat 160) = true.
Proof. reflexivity. Qed.

Lemma replace_illegal_fixed (s : string) :
  (forall c, In c (characters s) -> illegal_in_filename c = false) ->
  replace_illegal s = s.
Proof.
  induction s as [|a s IH]; simpl; intros Hall; [reflexivity|].
  rewrite (Hall a) by now left. f_equal. auto.
Qed.

Lemma collapse_spaces_fixed (s : string) :
  (forall c, In c (characters s) -> white_space c = false) ->
  collapse_spaces false s = s.
Proof.
  induction s as [|a s IH]; simpl; intros Hall; [reflexivity|].
  rewrite (Hall a) by now left. f_equal. auto.
Qed.

Lemma sanitizeFilename_characters (name : string) (c : ascii) :
  In c (characters (sanitizeFilename name)) -> allowed_in_filename c.
Proof.
  unfold sanitizeFilename. intros Hin. apply characters_substring in Hin.
  destruct (collapse_spaces_characters _ _ _ Hin) as [Hsp [->|Hc]].
  - split; [reflexivity|exact Hsp].
  - split; [now apply (replace_illegal_legal name)|exact Hsp].
Qed.

Lemma sanitizeFilename_fixed (name : string) :
  (forall c, In c (characters name) -> allowed_in_filename c) ->
  (String.length name <= 200)%nat ->
  sanitizeFilename name = name.
Proof.
  intros Hall Hlen. unfold sanitizeFilename.
  rewrite replace_illegal_fixed by (intros c Hc; apply (Hall c Hc)).
  rewrite collapse_spaces_fixed by (intros c Hc; apply (Hall c Hc)).
  now apply substring_all.
Qed.

(** X6. A name that went through [sanitizeFilename] has at most 200
    characters and holds no control character, none of the characters
    that are illegal in a file name and no white space: no space, and no
    no-break space either. *)
Theorem sanitizeFilename_clean (name : string) :
  (String.length (sanitizeFilename name) <= 200)%nat
  /\ (forall c, In c (characters (sanitizeFilename name)) ->
        illegal_in_filename c = false /\ c <> " "%char
        /\ white_space c = false /\ c <> ascii_of_nat 160)
  /\ (forall c, (nat_of_ascii c <= 31)%nat -> illegal_in_filename c = true)
  /\ Forall (fun c => illegal_in_filename c = true)
       ["<"; ">"; ":"; ascii_of_nat 34; "/"; "\"; "|"; "?"; "*"]%char.
Proof.
  split; [apply length_substring_le|]. split.
  - intros c Hin. destruct (sanitizeFilename_characters name c Hin) as [Hlegal Hws].
    split; [exact Hlegal|]. split; [|split; [exact Hws|]].
    + intros ->. rewrite white_space_space in Hws. discriminate Hws.
    + intros ->. rewrite white_space_no_break_space in Hws. discriminate Hws.
  - split.
    + intros c Hc. unfold illegal_in_filename.
      apply Nat.leb_le in Hc. now rewrite Hc.
    + repeat constructor.
Qed.

(** X7. Sanitizing is idempotent, and it leaves alone a name of at most
    200 characters that holds only characters it allows: none that the
    first pass replaces and no white space (among the code units below
    256: tab to carriage return, space, no-break space). A name with a
    no-break space is changed: the no-break space becomes an
    underscore. *)
Theorem sanitizeFilename_idempotent (name : string) :
  sanitizeFilename (sanitizeFilename name) = sanitizeFilename name
  /\ ((forall c, In c (characters name) ->
         illegal_in_filename c = false /\ white_space c = false) ->
      (String.length name <= 200)%nat ->
      sanitizeFilename name = name)
  /\ (forall c, white_space c = true <->
                 (9 <= nat_of_ascii c <= 13)%nat \/ c = " "%char \/ c = ascii_of_nat 160)
  /\ sanitizeFilename (String "a" (String (ascii_of_nat 160) "b")) = "a_b".
Proof.
  split; [|split; [apply sanitizeFilename_fixed|split; [|reflexivity]]].
  - apply sanitizeFilename_fixed.
    + apply sanitizeFilename_characters.
    + apply length_substring_le.
  - intros c. unfold white_space. rewrite !orb_true_iff, andb_true_iff.
    rewrite !Nat.leb_le, !Nat.eqb_eq. split.
    + intros [[H|H]|H]; [left; exact H|right; left|right; right];
        rewrite <- (ascii_nat_embedding c), H; reflexivity.
    + intros [H|[ -> | -> ]]; [left; left; exact H|left; right; reflexivity|right; reflexivity].
Qed.

(** The names of the tests of the suite. *)
Lemma sanitizeFilename_idempotent_witness :
  sanitizeFilename "paper2024.pdf" = "paper2024.pdf"
  /\ sanitizeFilename (sanitizeFilename "my research paper.pdf") = "my_research_paper.pdf".
Proof.
  split.
  - apply (sanitizeFilename_idempotent "paper2024.pdf").
    + intros c Hc. simpl in Hc.
      repeat (destruct Hc as [<-|Hc]; [split; reflexivity|]).
      destruct Hc.
    + simpl. lia.
  - rewrite (proj1 (sanitizeFilename_idempotent "my research paper.pdf")). reflexivity.
Defined.
End FileNames.

(** ** Retrying *)

Section RetryMore.
Context {St A : Type}.
Variable fn : St -> result A * St.
Variable wait : Z -> St -> St.
Variable instanceof_Error : Rejection -> bool.

Lemma last_cons_cons {B} (x y : B) (l : list B) : last (x :: y :: l) = last (y :: l).
Proof. reflexivity. Qed.

Lemma observed_fn_eq s log r s' :
  fn s = (r, s') ->
  observed_fn fn (s, log)
  = (r, (s', {| outcomes := outcomes log ++ [r]; delays := delays log |})).
Proof. unfold observed_fn. cbn [fst snd]. now intros ->. Qed.

(** What the loop adds to the notes of the observer. *)
Lemma retry_from_observed (maxRetries : Z) (n : nat) :
  forall attempt lastError s log,
    Z.of_nat n + attempt = maxRetries + 1 ->
    let res :=
      retry_from (observed_fn fn) (observed_wait wait) instanceof_Error
        maxRetries n attempt lastError (s, log) in
    exists outs,
      outcomes (snd (snd res)) = (outcomes log ++ outs)%list
      /\ (length outs <= n)%nat
      /\ (n <> 0%nat -> outs <> [])
      /\ delays (snd (snd res))
         = (delays log
            ++ List.map (fun i => BASE_DELAY_MS * 2 ^ (attempt + Z.of_nat i))
                 (seq 0 (length outs - 1)))%list
      /\ Forall throws (removelast outs)
      /\ match fst res with
         | inl v => last outs = Some (Returns v)
         | inr t =>
             length outs = n
             /\ match last outs with
                | Some (Throws e0) =>
                    t = ThrownError (as_Error instanceof_Error e0)
                | Some (Returns _) => False
                | None =>
                    t = match lastError with
                        | Some e => ThrownError e
                        | None => ThrownUndefined
                        end
                end
         end.
Proof.
  induction n as [|n IH]; intros attempt lastError s log Hn res.
  - exists []. subst res. simpl. rewrite !app_nil_r.
    split; [reflexivity|]. split; [lia|]. split; [congruence|].
    split; [reflexivity|]. split; [constructor|]. split; reflexivity.
  - subst res. cbn [retry_from].
    destruct (fn s) as [[v|err] s'] eqn:Hfn; rewrite (observed_fn_eq _ log _ _ Hfn).
    + exists [Returns v]. simpl. rewrite app_nil_r.
      split; [reflexivity|]. split; [lia|]. split; [congruence|].
      split; [reflexivity|]. split; [constructor|reflexivity].
    + destruct n as [|n].
      * replace (attempt <? maxRetries) with false by (symmetry; apply Z.ltb_ge; lia).
        exists [Throws err]. simpl. rewrite app_nil_r.
        split; [reflexivity|]. split; [lia|]. split; [congruence|].
        split; [reflexivity|]. split; [constructor|]. split; reflexivity.
      * replace (attempt <? maxRetries) with true by (symmetry; apply Z.ltb_lt; lia).
        destruct (IH (attempt + 1) (Some (as_Error instanceof_Error err))
                    (wait (BASE_DELAY_MS * 2 ^ attempt) s')
                    {| outcomes := outcomes log ++ [Throws err];
                       delays := delays log ++ [BASE_DELAY_MS * 2 ^ attempt] |})
          as (outs & Houts & Hlen & Hne & Hdelays & Hthrows & Hres); [lia|].
        cbn [outcomes delays] in Houts, Hdelays.
        change (observed_wait wait (BASE_DELAY_MS * 2 ^ attempt)
                  (s', {| outcomes := outcomes log ++ [Throws err];
                          delays := delays log |}))
          with (wait (BASE_DELAY_MS * 2 ^ attempt) s',
                {| outcomes := outcomes log ++ [Throws err];
                   delays := delays log ++ [BASE_DELAY_MS * 2 ^ attempt] |}).
        destruct outs as [|out outs]; [now exfalso; apply Hne|].
        exists (Throws err :: out :: outs).
        split; [rewrite Houts, <- app_assoc; reflexivity|].
        split; [simpl in *; lia|]. split; [discriminate|].
        split.
        { rewrite Hdelays, <- app_assoc. f_equal.
          cbn [length Nat.sub]. rewrite !Nat.sub_0_r.
          change (seq 0 (S (length outs))) with (0%nat :: seq 1 (length outs)).
          cbn [List.map app]. rewrite Z.add_0_r. f_equal.
          rewrite <- seq_shift, List.map_map.
          apply List.map_ext. intros i. f_equal. f_equal. lia. }
        split.
        { change (removelast (Throws err :: out :: outs))
            with (Throws err :: removelast (out :: outs)).
          constructor; [exact I|exact Hthrows]. }
        rewrite last_cons_cons.
        destruct (fst (retry_from _ _ _ _ _ _ _ _)) as [v|t]; [exact Hres|].
        destruct Hres as [Hlen' Hlast]. split; [simpl in *; lia|].
        destruct (last (out :: outs)) as [[v|e0]|] eqn:El; [exact Hlast..|].
        apply last_None in El. discriminate El.
Qed.

(** X8. [withRetry] calls [fn] until it returns, at most
    [maxRetries + 1] times (five retries when no number is given), and
    waits 1 s, 2 s, 4 s, ... between two calls, not after the last one.
    It returns what the last call returned; when every call threw it
    throws the error of the last call, made an [Error] when it was not
    one; with a negative [maxRetries] it calls nothing and throws
    [undefined]. *)
Theorem withRetry_attempts (maxRetries : option Z) (s : St) :
  let res :=
    withRetry (observed_fn fn) (observed_wait wait) instanceof_Error maxRetries
      (s, {| outcomes := []; delays := [] |}) in
  let calls := outcomes (snd (snd res)) in
  (length calls <= Z.to_nat (default MAX_RETRIES maxRetries + 1))%nat
  /\ delays (snd (snd res)) = backoff (length calls - 1)
  /\ Forall throws (removelast calls)
  /\ match fst res with
     | inl v => last calls = Some (Returns v)
     | inr ThrownUndefined => calls = [] /\ default MAX_RETRIES maxRetries < 0
     | inr (ThrownError e) =>
         length calls = Z.to_nat (default MAX_RETRIES maxRetries + 1)
         /\ exists e0, last calls = Some (Throws e0)
                       /\ e = as_Error instanceof_Error e0
     end.
Proof.
  intros res calls. subst calls res. unfold withRetry.
  set (n := default MAX_RETRIES maxRetries).
  destruct (Z.le_gt_cases 0 (n + 1)) as [Hpos|Hneg].
  - destruct (retry_from_observed n (Z.to_nat (n + 1)) 0 None s
                {| outcomes := []; delays := [] |})
      as (outs & Houts & Hlen & Hne & Hdelays & Hthrows & Hres); [lia|].
    cbn [outcomes delays app] in Houts, Hdelays. rewrite Houts, Hdelays.
    split; [exact Hlen|]. split; [reflexivity|]. split; [exact Hthrows|].
    destruct (fst (retry_from _ _ _ _ _ _ _ _)) as [v|t]; [exact Hres|].
    destruct Hres as [Hlen' Hlast].
    destruct (last outs) as [[v|e0]|] eqn:El; [destruct Hlast|subst t|subst t].
    + split; [exact Hlen'|]. now exists e0.
    + destruct outs; [|apply last_None in El; discriminate El].
      simpl in Hlen'. split; [reflexivity|lia].
  - replace (Z.to_nat (n + 1)) with 0%nat by lia. simpl.
    repeat split; auto; try constructor. lia.
Qed.
End RetryMore.

(** ** More on the sync pass *)

Section SyncMore.
Context {X : Type}.
Context `{!IDriveService X, !ICacheService X, !IBackendApi X, !Platform X}.
Context `{!Formats}.
Context `{!JSON (list Author), !JSON (list string), !JSON JsonValue}.
Context `{!JSON (list Annotation), !JSON AnnotationSidecar}.
Implicit Types (w : World X) (r : SyncResult) (remote local : ItemRow).

Lemma items_grow_refl d : items_grow d d.
Proof. intros id row Hrow. exists row. split; [assumption|lia]. Qed.

Lemma items_grow_trans d1 d2 d3 : items_grow d1 d2 -> items_grow d2 d3 -> items_grow d1 d3.
Proof.
  intros H12 H23 id row Hrow.
  destruct (H12 _ _ Hrow) as (row2 & Hrow2 & Hle2).
  destruct (H23 _ _ Hrow2) as (row3 & Hrow3 & Hle3).
  exists row3. split; [assumption|lia].
Qed.

Lemma items_grow_same d d' : items d' = items d -> items_grow d d'.
Proof. intros Heq id row Hrow. exists row. rewrite Heq. split; [assumption|lia]. Qed.

(** *** The push *)

(** One pushed item: the call returns, the database stays, and exactly
    one of the three counters goes up by one. *)
Lemma push_item_counts (item : ItemRow) r w :
  exists r' w',
    push_item item (r, w) = (Returns tt, (r', w'))
    /\ db w' = db w
    /\ drive_calls w' = drive_calls w
    /\ match pushItem item (ext w) with
       | (inl _, _) => r' = count_pushed r
       | (inr rejection, _) =>
           r' = if bool_decide (rej_status rejection = Some 409)
                then count_conflict r else count_error r
       end.
Proof.
  unfold push_item, try_catch, bind, on_snd, on_fst, external. cbn [fst snd].
  destruct (pushItem item (ext w)) as [[[]|rejection] x1]; cbn [of_rejection fst snd].
  - eexists _, _. repeat split.
  - cbn [exn_status]. destruct (bool_decide _); eexists _, _; repeat split.
Qed.

Lemma push_items_count (changes : list ItemRow) r w :
  exists r' w',
    for_each changes push_item (r, w) = (Returns tt, (r', w'))
    /\ db w' = db w
    /\ SyncResult.pulled r' = SyncResult.pulled r
    /\ SyncResult.pushed r <= SyncResult.pushed r'
    /\ SyncResult.conflicts r <= SyncResult.conflicts r'
    /\ SyncResult.errors r <= SyncResult.errors r'
    /\ push_total r' = push_total r + Z.of_nat (length changes).
Proof.
  revert r w. induction changes as [|item rest IH]; intros r w.
  - exists r, w. cbn. repeat split; lia.
  - cbn [for_each]. unfold bind.
    destruct (push_item_counts item r w) as (r1 & w1 & -> & Hdb1 & _ & Hcount).
    destruct (IH r1 w1) as (r2 & w2 & -> & Hdb2 & Hpulled & Hp & Hc & He & Htotal).
    exists r2, w2. rewrite Hdb2, Hdb1.
    assert (H1 : SyncResult.pulled r1 = SyncResult.pulled r
                 /\ SyncResult.pushed r <= SyncResult.pushed r1
                 /\ SyncResult.conflicts r <= SyncResult.conflicts r1
                 /\ SyncResult.errors r <= SyncResult.errors r1
                 /\ push_total r1 = push_total r + 1).
    { destruct (pushItem item (ext w)) as [[[]|rejection] x1];
        [|destruct (bool_decide _)]; subst r1; unfold push_total; cbn; lia. }
    cbn [length]. repeat split; lia.
Qed.

(** X9. The push of a sync pass never throws and writes nothing to the
    database. Every locally changed item raises exactly one counter by
    one: [pushed] when the backend accepts it, [conflicts] when the
    backend rejects it with status 409, [errors] when it is rejected
    otherwise. So the three counters go up, together, by the number of
    rows whose [modifiedAt] is greater than the last sync. *)
Theorem push_accounts lastSync r w :
  (exists r' w',
      push lastSync (r, w) = (Returns tt, (r', w'))
      /\ db w' = db w
      /\ SyncResult.pulled r' = SyncResult.pulled r
      /\ SyncResult.pushed r <= SyncResult.pushed r'
      /\ SyncResult.conflicts r <= SyncResult.conflicts r'
      /\ SyncResult.errors r <= SyncResult.errors r'
      /\ push_total r' = push_total r + Z.of_nat (length (local_changes lastSync (db w))))
  /\ (forall item,
        fst (snd (push_item item (r, w)))
        = match pushItem item (ext w) with
          | (inl _, _) => count_pushed r
          | (inr rejection, _) =>
              if bool_decide (rej_status rejection = Some 409)
              then count_conflict r else count_error r
          end).
Proof.
  split.
  - unfold push. unfold bind at 1, on_snd at 1, gets at 1. cbn [fst snd].
    apply push_items_count.
  - intros item.
    destruct (push_item_counts item r w) as (r1 & w1 & -> & _ & _ & Hcount).
    cbn [fst snd].
    destruct (pushItem item (ext w)) as [[[]|rejection] x1]; exact Hcount.
Qed.
End SyncMore.

Section SyncPassMore.
Context {X : Type}.
Context `{!IDriveService X, !ICacheService X, !IBackendApi X, !Platform X}.
Context `{!Formats}.
Context `{!JSON (list Author), !JSON (list string), !JSON JsonValue}.
Context `{!JSON (list Annotation), !JSON AnnotationSidecar}.
Implicit Types (w : World X) (r : SyncResult) (remote local : ItemRow).

(** *** The pull *)

Lemma pull_item_grows lastSync remote r w :
  items_grow (db w) (db (snd (snd (pull_item lastSync remote (r, w))))).
Proof.
  unfold pull_item. st_unfold. st_simpl.
  destruct (items (db w) !! ItemRow.id remote) as [local|] eqn:Hlocal.
  - destruct (Z.ltb_spec (ItemRow.version local) (ItemRow.version remote));
      [|apply items_grow_refl].
    destruct (str_gt _ _); [apply items_grow_refl|]. st_simpl.
    intros id row Hrow. st_simpl.
    destruct (decide (ItemRow.id remote = id)) as [<-|Hne].
    + rewrite lookup_alter_eq, Hlocal. eexists. split; [reflexivity|].
      rewrite Hlocal in Hrow. injection Hrow as <-. cbn. lia.
    + rewrite lookup_alter_ne by assumption. exists row. split; [assumption|lia].
  - st_simpl. cbn [pulled_row ItemRow.id ItemRow.libraryId]. rewrite Hlocal.
    destruct (libraries (db w) !! ItemRow.libraryId remote); st_simpl;
      [|apply items_grow_refl].
    intros id row Hrow. st_simpl. exists row. split; [|lia].
    rewrite lookup_insert_ne; [assumption|]. intros <-. congruence.
Qed.

Lemma pull_items_grow lastSync (remoteChanges : list ItemRow) r w :
  items_grow (db w)
    (db (snd (snd (for_each remoteChanges (pull_item lastSync) (r, w))))).
Proof.
  revert r w. induction remoteChanges as [|remote rest IH]; intros r w;
    [apply items_grow_refl|].
  cbn [for_each]. unfold bind.
  pose proof (pull_item_grows lastSync remote r w) as Hstep.
  destruct (pull_item lastSync remote (r, w)) as [[[]|e] [r' w']]; cbn [snd] in *;
    [|assumption].
  eapply items_grow_trans; [exact Hstep|apply IH].
Qed.

(** The pull never throws: what goes wrong inside is counted. *)
Lemma pull_returns lastSync s : fst (pull lastSync s) = Returns tt.
Proof.
  unfold pull, try_catch, bind, on_snd, on_fst, external. cbn [fst snd].
  destruct (getChanges lastSync (ext (snd s))) as [[remoteChanges|rejection] x1];
    cbn [of_rejection fst snd]; [|reflexivity].
  destruct (for_each remoteChanges (pull_item lastSync) _) as [[[]|e] s']; reflexivity.
Qed.

Lemma pull_grows lastSync r w :
  items_grow (db w) (db (snd (snd (pull lastSync (r, w))))).
Proof.
  unfold pull, try_catch, bind, on_snd, on_fst, external. cbn [fst snd].
  destruct (getChanges lastSync (ext w)) as [[remoteChanges|rejection] x1];
    cbn [of_rejection fst snd]; [|apply items_grow_refl].
  pose proof (pull_items_grow lastSync remoteChanges r
                (mkWorld (db w) x1 (drive_calls w))) as Hloop.
  destruct (for_each remoteChanges (pull_item lastSync) _) as [[[]|e] [r' w']];
    cbn [snd] in *; assumption.
Qed.

Lemma push_returns lastSync s : fst (push lastSync s) = Returns tt.
Proof.
  destruct s as [r w].
  destruct (push_items_count (local_changes lastSync (db w)) r w) as (r' & w' & Heq & _).
  unfold push. unfold bind at 1, on_snd at 1, gets at 1. cbn [fst snd].
  now rewrite Heq.
Qed.

(** The pass, phase by phase: none of them throws. *)
Lemma sync_pass_phases r w :
  let lastSync := last_sync (db w) in
  let s1 := snd (pull lastSync (r, w)) in
  let s2 := snd (push lastSync s1) in
  let s3 := snd (processUploadQueue s2) in
  sync_pass (r, w) = on_snd commit_cursor s3.
Proof.
  intros lastSync s1 s2 s3. unfold sync_pass.
  unfold try_catch. unfold bind at 1, on_snd at 1, gets at 1. cbn [fst snd].
  fold lastSync. unfold bind at 1.
  pose proof (pull_returns lastSync (r, w)) as Hpull. fold s1.
  destruct (pull lastSync (r, w)) as [[[]|e] s1'] eqn:E1; [|discriminate].
  subst s1. cbn [snd]. unfold bind at 1.
  pose proof (push_returns lastSync s1') as Hpush. subst s2. cbn [snd] in *.
  destruct (push lastSync s1') as [[[]|e] s2'] eqn:E2; [|discriminate].
  cbn [snd] in *. unfold bind at 1.
  pose proof (processUploadQueue_returns s2') as Hdrain. subst s3. cbn [snd] in *.
  destruct (processUploadQueue s2') as [[[]|e] s3'] eqn:E3; [|discriminate].
  cbn [snd]. unfold on_snd, commit_cursor. st_unfold. cbn [fst snd].
  destruct (Date_now (ext (snd s3'))) as [t1 x1]. st_simpl.
  destruct (Date_now x1) as [t2 x2]. reflexivity.
Qed.

(** X10. From the start to the end of a sync pass no item disappears
    from the local table and no version of an item decreases. *)
Theorem syncLoop_items_grow w : items_grow (db w) (db (snd (syncLoop w))).
Proof.
  unfold syncLoop.
  pose proof (sync_pass_phases (SyncResult.mk 0 0 0 0) w) as Hpass. cbv zeta in Hpass.
  set (lastSync := last_sync (db w)) in *.
  pose proof (pull_grows lastSync (SyncResult.mk 0 0 0 0) w) as Hpull.
  set (s1 := snd (pull lastSync (SyncResult.mk 0 0 0 0, w))) in *.
  pose proof (push_keeps_items lastSync s1) as Hpush.
  set (s2 := snd (push lastSync s1)) in *.
  pose proof (processUploadQueue_keeps_items s2) as Hdrain.
  set (s3 := snd (processUploadQueue s2)) in *.
  pose proof (keeps_counting_on_snd items _ commit_cursor_keeps_items s3) as Hcommit.
  rewrite <- Hpass in Hcommit.
  destruct (sync_pass (SyncResult.mk 0 0 0 0, w)) as [res [result w']].
  cbn [snd] in *.
  eapply items_grow_trans; [exact Hpull|].
  apply items_grow_same. now rewrite Hcommit, Hdrain, Hpush.
Qed.

(** X11. Every sync pass returns its counters and ends by storing the
    time as [lastSyncTimestamp], also when its pull was rejected or its
    pushes failed: the value is the ISO time of the last but one reading
    of the clock, and [updatedAt] is SQLite's time of the last one. *)
Theorem syncLoop_commits_cursor w :
  exists result w' x0 t1 x1 t2,
    syncLoop w = (Returns result, w')
    /\ Date_now x0 = (t1, x1)
    /\ Date_now x1 = (t2, ext w')
    /\ sync_state (db w') !! lastSyncTimestamp
       = Some (SyncState.mk (Date_toISOString t1) (sqlite_datetime t2))
    /\ last_sync (db w') = Date_toISOString t1.
Proof.
  unfold syncLoop.
  pose proof (sync_pass_phases (SyncResult.mk 0 0 0 0) w) as Hpass. cbv zeta in Hpass.
  rewrite Hpass. clear Hpass.
  set (s3 := snd (processUploadQueue _)).
  unfold on_snd, commit_cursor. st_unfold. cbn [fst snd].
  destruct (Date_now (ext (snd s3))) as [t1 x1] eqn:E1. st_simpl.
  destruct (Date_now x1) as [t2 x2] eqn:E2. st_simpl.
  exists (fst s3). eexists. exists (ext (snd s3)), t1, x1, t2.
  split; [reflexivity|]. unfold last_sync. st_simpl.
  rewrite lookup_insert_eq. repeat split; assumption.
Qed.

(** X12. What the pull does with one reported item when it is no
    conflict. An item that is unknown locally is inserted, as a live row
    whatever its [deleted] flag says, and counted as pulled; when its
    library is unknown too the insert fails on the foreign key. A newer
    version of a row that the pass does not find dirty (the text of its
    [modifiedAt] is not greater than the cursor) replaces the descriptive
    fields, the version, [modifiedAt] and the [deleted] flag of the row,
    and keeps its library, creator and creation date. A version that is
    not newer changes and counts nothing. *)
Theorem pull_item_outcomes lastSync remote r w :
  (items (db w) !! ItemRow.id remote = None ->
   is_Some (libraries (db w) !! ItemRow.libraryId remote) ->
   pull_item lastSync remote (r, w)
   = (Returns tt,
      (count_pulled r,
       set_db (with_items (insert (ItemRow.id remote) (pulled_row remote)) (db w)) w))
   /\ ItemRow.deleted (pulled_row remote) = 0)
  /\ (items (db w) !! ItemRow.id remote = None ->
      libraries (db w) !! ItemRow.libraryId remote = None ->
      pull_item lastSync remote (r, w) = (Throws foreign_key_failed, (r, w)))
  /\ (forall local,
        items (db w) !! ItemRow.id remote = Some local ->
        ItemRow.version local < ItemRow.version remote ->
        str_gt (ItemRow.modifiedAt local) lastSync = false ->
        exists w',
          pull_item lastSync remote (r, w) = (Returns tt, (count_pulled r, w'))
          /\ items (db w') !! ItemRow.id remote = Some (overwritten_by remote local)
          /\ ItemRow.version (overwritten_by remote local) = ItemRow.version remote
          /\ ItemRow.deleted (overwritten_by remote local) = ItemRow.deleted remote
          /\ ItemRow.libraryId (overwritten_by remote local) = ItemRow.libraryId local
          /\ ItemRow.createdAt (overwritten_by remote local) = ItemRow.createdAt local)
  /\ (forall local,
        items (db w) !! ItemRow.id remote = Some local ->
        ItemRow.version remote <= ItemRow.version local ->
        pull_item lastSync remote (r, w) = (Returns tt, (r, w))).
Proof.
  split; [|split; [|split]].
  - intros Hnew [library Hlibrary]. split; [|reflexivity].
    unfold pull_item. st_unfold. st_simpl. rewrite Hnew. st_simpl.
    cbn [pulled_row ItemRow.id ItemRow.libraryId]. rewrite Hnew, Hlibrary.
    reflexivity.
  - intros Hnew Hlibrary.
    unfold pull_item. st_unfold. st_simpl. rewrite Hnew. st_simpl.
    cbn [pulled_row ItemRow.id ItemRow.libraryId]. rewrite Hnew, Hlibrary.
    destruct w. reflexivity.
  - intros local Hlocal Hnewer Hclean. eexists.
    unfold pull_item. st_unfold. st_simpl. rewrite Hlocal.
    replace (ItemRow.version local <? ItemRow.version remote) with true
      by (symmetry; now apply Z.ltb_lt).
    rewrite Hclean. st_simpl. split; [reflexivity|]. st_simpl.
    rewrite lookup_alter_eq, Hlocal. repeat split.
  - intros local Hlocal Hold.
    unfold pull_item. st_unfold. st_simpl. rewrite Hlocal.
    replace (ItemRow.version local <? ItemRow.version remote) with false
      by (symmetry; now apply Z.ltb_ge).
    destruct w. reflexivity.
Qed.

(** X13. A reported item that is unknown locally and whose library is
    unknown too ends the pull when it comes first: one error is counted,
    nothing is written, and the items reported after it are not looked
    at. *)
Theorem pull_stops_at_unknown_library lastSync remote (rest : list ItemRow) r w x1 :
  getChanges lastSync (ext w) = (inl (remote :: rest), x1) ->
  items (db w) !! ItemRow.id remote = None ->
  libraries (db w) !! ItemRow.libraryId remote = None ->
  pull lastSync (r, w)
  = (Returns tt, (count_error r, mkWorld (db w) x1 (drive_calls w))).
Proof.
  intros Hchanges Hnew Hlibrary.
  unfold pull, try_catch. unfold bind at 1, on_snd at 1, external. cbn [fst snd].
  rewrite Hchanges. cbn [of_rejection fst snd for_each]. unfold bind at 1.
  unfold pull_item. st_unfold. st_simpl. rewrite Hnew. st_simpl.
  cbn [pulled_row ItemRow.id ItemRow.libraryId]. rewrite Hnew, Hlibrary.
  reflexivity.
Qed.
End SyncPassMore.

Section SyncPassWitness.
Import Scenario SyncScenario PullScenario.

(** An item that was deleted remotely arrives as a live row; the
    remote version 3 of the local item at version 2 is not applied when
    the local row is ahead. *)
Lemma pull_item_outcomes_witness :
  (exists w',
      pull_item since deleted_elsewhere (SyncResult.mk 0 0 0 0, reporting [])
      = (Returns tt, (SyncResult.mk 0 1 0 0, w'))
      /\ ItemRow.deleted <$> items (db w') !! "item-2" = Some 0)
  /\ pull_item since orphan (SyncResult.mk 0 0 0 0, reporting [])
     = (Throws foreign_key_failed, (SyncResult.mk 0 0 0 0, reporting []))
  /\ pull_item since local_item (SyncResult.mk 0 0 0 0, reporting [])
     = (Returns tt, (SyncResult.mk 0 0 0 0, reporting [])).
Proof.
  destruct (pull_item_outcomes since deleted_elsewhere (SyncResult.mk 0 0 0 0)
              (reporting [])) as (Hnew & _).
  destruct (pull_item_outcomes since orphan (SyncResult.mk 0 0 0 0)
              (reporting [])) as (_ & Horphan & _).
  destruct (pull_item_outcomes since local_item (SyncResult.mk 0 0 0 0)
              (reporting [])) as (_ & _ & _ & Hold).
  split; [|split].
  - destruct Hnew as [Hpull _]; [vm_compute; reflexivity|vm_compute; eauto|].
    eexists. split; [exact Hpull|]. vm_compute. reflexivity.
  - apply Horphan; vm_compute; reflexivity.
  - apply (Hold local_item); [vm_compute; reflexivity|vm_compute; discriminate].
Defined.

Lemma pull_stops_at_unknown_library_witness :
  exists w',
    pull since (SyncResult.mk 0 0 0 0, reporting [orphan; deleted_elsewhere])
    = (Returns tt, (SyncResult.mk 0 0 0 1, w'))
    /\ items (db w') !! "item-2" = None.
Proof.
  eexists. split.
  - apply (pull_stops_at_unknown_library since orphan [deleted_elsewhere]);
      vm_compute; reflexivity.
  - vm_compute. reflexivity.
Defined.
End SyncPassWitness.

(** ** More on the drain of the upload queue *)

Section DrainMore.
Context {X : Type}.
Context `{!IDriveService X, !ICacheService X, !IBackendApi X, !Platform X}.
Context `{!Formats}.
Context `{!JSON (list Author), !JSON (list string), !JSON JsonValue}.
Context `{!JSON (list Annotation), !JSON AnnotationSidecar}.
Implicit Types (w : World X) (r : SyncResult) (u upload : UploadQueueEntry).

Lemma process_upload_settles upload r w :
  run_handler upload w = (Returns tt, w) ->
  process_upload upload (r, w)
  = (Returns tt,
     (r, set_db (with_upload_queue
                   (alter mark_completed (UploadQueueEntry.id upload)) (db w)) w)).
Proof.
  intros Hrun. unfold process_upload, try_catch. unfold bind at 1, on_snd at 1.
  cbn [fst snd]. rewrite Hrun. reflexivity.
Qed.

(** X14. An entry with nothing to upload is marked completed all the
    same: an entry of type [metadata], a [pdf] entry whose attachment
    does not exist or has a Drive file already, an [annotation] entry
    whose annotation set does not exist. The drain makes no call on the
    Drive for it and counts no error. *)
Theorem process_upload_nothing_to_do upload r w :
  UploadQueueEntry.type upload = metadata
  \/ (UploadQueueEntry.type upload = pdf
      /\ attachments (db w) !! UploadQueueEntry.targetId upload = None)
  \/ (UploadQueueEntry.type upload = pdf
      /\ exists a, attachments (db w) !! UploadQueueEntry.targetId upload = Some a
                   /\ truthy (Attachment.driveFileId a) = true)
  \/ (UploadQueueEntry.type upload = annotation
      /\ annotation_sets (db w) !! UploadQueueEntry.targetId upload = None) ->
  exists w',
    process_upload upload (r, w) = (Returns tt, (r, w'))
    /\ drive_calls w' = drive_calls w
    /\ ext w' = ext w
    /\ upload_queue (db w')
       = alter mark_completed (UploadQueueEntry.id upload) (upload_queue (db w)).
Proof.
  intros Hcase. eexists. split; [apply process_upload_settles|repeat split].
  unfold run_handler, processPdfUpload, processAnnotationUpload. st_unfold.
  destruct Hcase as [->|[[-> Hnone]|[[-> (a & Ha & Hfile)]|[-> Hnone]]]].
  - reflexivity.
  - now rewrite Hnone.
  - now rewrite Ha, Hfile.
  - now rewrite Hnone.
Qed.

(** The rows of the queue that a drain goes through are the pending
    ones. *)
Lemma pending_uploads_pending d upload :
  In upload (pending_uploads d) ->
  UploadQueueEntry.status upload = pending
  /\ exists k, upload_queue d !! k = Some upload.
Proof.
  unfold pending_uploads. intros Hin.
  apply (Permutation_in _ (Permutation_sym (array_sort_perm _ _))) in Hin.
  apply filter_In in Hin as [Hrow Hpending]. split.
  - unfold is_pending in Hpending. now destruct (UploadQueueEntry.status upload).
  - now apply in_rows.
Qed.

(** X15. A drain leaves alone every entry that is not pending: a failed
    or a completed entry is not tried again and its row stays as it
    is. *)
Theorem drain_skips_settled w id u r :
  keyed UploadQueueEntry.id (upload_queue (db w)) ->
  upload_queue (db w) !! id = Some u ->
  UploadQueueEntry.status u <> pending ->
  upload_queue (db (snd (snd (processUploadQueue (r, w))))) !! id = Some u
  /\ ~ In u (pending_uploads (db w)).
Proof.
  intros Hkeyed Hu Hsettled.
  assert (Hother : forall upload, In upload (pending_uploads (db w)) ->
                                  UploadQueueEntry.id upload <> id).
  { intros upload Hin Hid. apply pending_uploads_pending in Hin as [Hpending [k Hk]].
    pose proof (Hkeyed k upload Hk) as Hkey. cbn in Hkey.
    assert (k = id) as -> by congruence.
    rewrite Hu in Hk. injection Hk as ->. contradiction. }
  split.
  - unfold processUploadQueue. unfold bind at 1, on_snd at 1, gets at 1. cbn [fst snd].
    rewrite (for_each_uploads_other _ id _ Hother). exact Hu.
  - intros Hin. now apply (Hother u Hin), (Hkeyed id u Hu).
Qed.

(** X16. The handler of a queued PDF whose attachment has no Drive file
    yet, in a library with a Drive root: the folder [pdfs] is ensured and
    the file is uploaded under the name [buildDriveFileName] gives it;
    the attachment then records the identifier, the folder, the root,
    the link and the revision of the uploaded file. Run again, the
    handler calls nothing: the upload is not repeated. *)
Theorem processPdfUpload_uploads_once upload w a item library root path
    folder x1 driveFile x2 :
  attachments (db w) !! UploadQueueEntry.targetId upload = Some a ->
  truthy (Attachment.driveFileId a) = false ->
  items (db w) !! Attachment.itemId a = Some item ->
  libraries (db w) !! ItemRow.libraryId item = Some library ->
  as_truthy (Library.driveRootId library) = Some root ->
  as_truthy (coalesce (UploadQueueEntry.localPath upload)
               (getPdfPath (Attachment.checksum a) (ext w))) = Some path ->
  ensureFolder (Some root) "pdfs" (ext w) = (inl folder, x1) ->
  let options :=
    DriveUploadOptions.mk
      (buildDriveFileName (Attachment.checksum a) (Attachment.filename a))
      "application/pdf" [folder] (Some path) None in
  uploadResumable options x1 = (inl driveFile, x2) ->
  Attachment.id a = UploadQueueEntry.targetId upload ->
  DriveFileMetadata.id driveFile <> "" ->
  exists w',
    processPdfUpload upload w = (Returns tt, w')
    /\ drive_calls w'
       = (drive_calls w ++ [EnsureFolder (Some root) "pdfs"; UploadResumable options])%list
    /\ attachments (db w') !! UploadQueueEntry.targetId upload
       = Some (uploaded_attachment driveFile folder (Some root) a)
    /\ Attachment.driveFileId (uploaded_attachment driveFile folder (Some root) a)
       = Some (DriveFileMetadata.id driveFile)
    /\ processPdfUpload upload w' = (Returns tt, w').
Proof.
  intros Ha Hfile Hitem Hlibrary Hroot Hpath Hfolder options Hupload Hid Hnonempty.
  apply as_truthy_Some in Hroot as [Hroot Hroot_truthy].
  apply as_truthy_Some in Hpath as [Hpath Hpath_truthy].
  eexists. split; [|split; [|split; [|split]]].
  - unfold processPdfUpload. st_unfold. st_with Ha. rewrite Hfile.
    st_with Hitem. st_with Hlibrary. cbn [mbind option_bind].
    rewrite Hroot_truthy, Hroot. st_simpl. rewrite Hpath_truthy, Hpath. st_simpl.
    st_with Hfolder. fold options. st_with Hupload. reflexivity.
  - st_simpl. now rewrite <- app_assoc.
  - st_simpl. rewrite Hid, lookup_alter_eq, Ha. reflexivity.
  - reflexivity.
  - unfold processPdfUpload at 1. st_unfold. st_simpl.
    rewrite Hid, lookup_alter_eq, Ha. st_simpl.
    assert (Hnow : truthy (Attachment.driveFileId
                             (uploaded_attachment driveFile folder (Some root) a)) = true).
    { cbn. destruct (DriveFileMetadata.id driveFile); [contradiction|reflexivity]. }
    cbn [fmap option_fmap option_map]. now rewrite Hnow.
Qed.
End DrainMore.

(** ** Adding a PDF while the Drive cannot be reached *)

Section AddPdfMore.
Context {X : Type}.
Context `{!IDriveService X, !ICacheService X, !IBackendApi X, !Platform X}.
Context `{!Formats}.
Context `{!JSON (list Author), !JSON (list string), !JSON JsonValue}.
Context `{!JSON (list Annotation), !JSON AnnotationSidecar}.
Implicit Types (w : World X).

(** X17. When the Drive rejects the call for the folder, [addPdfToGroup]
    does not fail: in one transaction it stores the item, named after the
    file, an attachment without Drive identifiers, an empty annotation
    set and a pending upload of type [pdf] that remembers the local path;
    it copies the file to the cache ([storePdf] is called after the
    transaction, and the world outside is left as that call leaves it)
    and returns the item. The only call on the Drive is the rejected
    one. *)
Theorem addPdfToGroup_queues_upload w groupId localPdfPath checksum x1 size library
    rejection x2 queueId x3 itemId x4 attachmentId x5 t1 x6 t2 x7 setId x8 t3 x9
    t4 x10 cached x11 :
  fs_existsSync localPdfPath (ext w) = true ->
  computeSHA256 localPdfPath (ext w) = (inl checksum, x1) ->
  fs_statSync_size localPdfPath x1 = inl size ->
  library_of_group groupId (db w) = Some library ->
  libraries (db w) !! Library.id library = Some library ->
  find_duplicate checksum (Library.id library) (db w) = None ->
  ensureFolder (Library.driveRootId library) "pdfs" x1 = (inr rejection, x2) ->
  uuid x2 = (queueId, x3) -> uuid x3 = (itemId, x4) -> uuid x4 = (attachmentId, x5) ->
  Date_now x5 = (t1, x6) -> Date_now x6 = (t2, x7) ->
  uuid x7 = (setId, x8) ->
  Date_now x8 = (t3, x9) -> Date_now x9 = (t4, x10) ->
  storePdf checksum localPdfPath x10 = (inl cached, x11) ->
  items (db w) !! itemId = None ->
  attachments (db w) !! attachmentId = None ->
  annotation_sets (db w) !! setId = None ->
  upload_queue (db w) !! queueId = None ->
  let filename := path_basename localPdfPath in
  exists item w',
    addPdfToGroup groupId localPdfPath w = (Returns (Some item), w')
    /\ Item.id item = itemId
    /\ Item.title item = Some (strip_pdf_extension filename)
    /\ Item.version item = 1
    /\ drive_calls w'
       = (drive_calls w ++ [EnsureFolder (Library.driveRootId library) "pdfs"])%list
    /\ ext w' = x11
    /\ items (db w') !! itemId
       = Some (pdf_item_row itemId (Library.id library) filename (currentUserId x5)
                 (sqlite_datetime t1))
    /\ attachments (db w') !! attachmentId
       = Some (Attachment.mk attachmentId itemId filename default_mime (Some size)
                 checksum None None None None None (Some (currentUserId x6))
                 (sqlite_datetime t2) (sqlite_datetime t2) default_version)
    /\ annotation_sets (db w') !! setId
       = Some (new_annotation_set_row setId attachmentId (currentUserId x8)
                 (sqlite_datetime t3))
    /\ upload_queue (db w') !! queueId
       = Some (new_upload_row queueId pdf attachmentId (Some localPdfPath)
                 (sqlite_datetime t4)).
Proof.
  intros Hexists Hsha Hsize Hlibrary Hkeyed Hnodup Hfolder Hq Hi Ha Ht1 Ht2 Hs Ht3 Ht4
    Hstore Hitem Hattachment Hset Hqueue filename.
  eexists _, _.
  unfold addPdfToGroup, upload_pdf, add_pdf_queued, insert_pdf_item,
    insert_new_annotation_set.
  st_unfold. st_simpl. rewrite Hexists. st_simpl. st_with Hsha. st_with Hsize.
  st_with Hlibrary. st_with Hnodup. st_with Hfolder.
  st_with Hq. st_with Hi. st_with Ha. st_with Ht1.
  cbn [pdf_item_row ItemRow.id ItemRow.libraryId]. st_with Hitem. st_with Hkeyed.
  st_with Ht2. cbn [Attachment.id Attachment.itemId]. st_with Hattachment.
  rewrite lookup_insert_eq. st_simpl.
  st_with Hs. st_with Ht3.
  cbn [new_annotation_set_row AnnotationSetRow.id AnnotationSetRow.attachmentId].
  st_with Hset. rewrite lookup_insert_eq. st_simpl.
  st_with Ht4. cbn [new_upload_row UploadQueueEntry.id]. st_with Hqueue.
  st_with Hstore. unfold getItem. st_unfold. st_simpl.
  rewrite lookup_insert_eq. st_simpl.
  fold filename.
  change (ItemRow.mk itemId (Library.id library) default_itemType
            (Some (strip_pdf_extension filename)) None None None None None None
            None None None None None (Some (currentUserId x5))
            (sqlite_datetime t1) (sqlite_datetime t1) default_version 0)
    with (pdf_item_row itemId (Library.id library) filename (currentUserId x5)
            (sqlite_datetime t1)).
  rewrite rowToItem_pdf. st_simpl.
  split; [reflexivity|]. st_simpl. rewrite !lookup_insert_eq.
  repeat split.
Qed.
End AddPdfMore.

Section DrainWitnesses.
Import Scenario ConflictScenario QueueScenario OfflineAddScenario SettledScenario.

(** Alice's paper, added offline: it is queued, and it is in the cache
    afterwards, where it was not before. *)
Lemma addPdfToGroup_queues_upload_witness :
  getPdfPath "abcdef1234567890" (ext offline_start) = None
  /\ exists item w',
       addPdfToGroup "group-1" path offline_start = (Returns (Some item), w')
       /\ Item.title item = Some "paper"
       /\ drive_calls w' = [EnsureFolder (Some "root") "pdfs"]
       /\ getPdfPath "abcdef1234567890" (ext w')
          = Some "/cache/pdfs/abcdef1234567890.pdf"
       /\ upload_queue (db w') !! "uuid-1" = Some queued.
Proof.
  split; [vm_compute; reflexivity|].
  edestruct (addPdfToGroup_queues_upload offline_start "group-1" path)
    as (item & w' & Hadd & _ & Htitle & _ & Hcalls & Hext & _ & _ & _ & Hqueue).
  1-20: vm_compute; reflexivity.
  exists item, w'. split; [exact Hadd|]. split; [exact Htitle|].
  split; [exact Hcalls|]. split; [|exact Hqueue].
  rewrite Hext. vm_compute. reflexivity.
Defined.

(** An entry for an attachment that does not exist, and one for the
    paper that is on the Drive already. *)
Lemma process_upload_nothing_to_do_witness :
  (exists w',
      process_upload stray (no_counts, world) = (Returns tt, (no_counts, w'))
      /\ drive_calls w' = [])
  /\ (exists w',
        process_upload (new_upload_row "q-2" pdf "att-1" None "2024-01-01 10:00:00")
          (no_counts, world)
        = (Returns tt, (no_counts, w'))
        /\ drive_calls w' = []).
Proof.
  split.
  - destruct (process_upload_nothing_to_do stray no_counts world)
      as (w' & Hrun & Hcalls & _).
    + right. left. split; vm_compute; reflexivity.
    + exists w'. split; [exact Hrun|exact Hcalls].
  - destruct (process_upload_nothing_to_do
                (new_upload_row "q-2" pdf "att-1" None "2024-01-01 10:00:00")
                no_counts world)
      as (w' & Hrun & Hcalls & _).
    + right. right. left. split; [reflexivity|].
      exists paper_pdf. split; vm_compute; reflexivity.
    + exists w'. split; [exact Hrun|exact Hcalls].
Defined.

(** Alice's entry, failed after five drains without the Drive, is not
    tried a sixth time. *)
Lemma drain_skips_settled_witness :
  upload_queue (db (after_drains 5)) !! "q-1" = Some given_up
  /\ upload_queue (db (after_drains 6)) !! "q-1" = Some given_up.
Proof.
  destruct (drain_skips_settled (after_drains 5) "q-1" given_up no_counts)
    as [Hkept _].
  - apply keyed_decide. vm_compute; reflexivity.
  - vm_compute; reflexivity.
  - vm_compute. discriminate.
  - split; [vm_compute; reflexivity|exact Hkept].
Defined.

(** The paper that was added offline goes to the Drive when the queue is
    drained with the Drive back, once. *)
Lemma processPdfUpload_uploads_once_witness :
  exists w',
    processPdfUpload queued back_online = (Returns tt, w')
    /\ Attachment.driveFileId <$> attachments (db w') !! "uuid-3"
       = Some (Some "drive:abcdef12_paper.pdf")
    /\ length (drive_calls w') = 3%nat
    /\ processPdfUpload queued w' = (Returns tt, w').
Proof.
  edestruct (processPdfUpload_uploads_once queued back_online)
    as (w' & Hrun & Hcalls & Hattachment & _ & Hagain).
  1-8: vm_compute; reflexivity.
  - reflexivity.
  - vm_compute. discriminate.
  - exists w'. split; [exact Hrun|]. split; [|split; [|exact Hagain]].
    + change "uuid-3" with (UploadQueueEntry.targetId queued).
      rewrite Hattachment. vm_compute. reflexivity.
    + rewrite Hcalls. vm_compute. reflexivity.
Defined.
End DrainWitnesses.

(** ** Listings and unknown identifiers *)

Section OrderFacts.
Lemma compare_strings_total a b : compare_strings a b <= 0 \/ compare_strings b a <= 0.
Proof.
  unfold compare_strings. rewrite (String.compare_antisym a b).
  destruct (String.compare b a); simpl; lia.
Qed.

Lemma compare_strings_le a b : compare_strings a b <= 0 <-> str_gt a b = false.
Proof.
  unfold compare_strings, str_gt. destruct (String.compare a b); split; try lia;
    congruence.
Qed.

Lemma compare_strings_trans a b c :
  compare_strings a b <= 0 -> compare_strings b c <= 0 -> compare_strings a c <= 0.
Proof.
  rewrite !compare_strings_le. intros Hab Hbc.
  destruct (str_gt a c) eqn:Hac; [|reflexivity].
  destruct (string_dec a b) as [->|Hne]; [congruence|].
  destruct (str_gt_total a b Hne) as [H|H]; [congruence|].
  rewrite (str_gt_trans b a c H Hac) in Hbc. discriminate.
Qed.

Lemma compare_nullable_total a b :
  compare_nullable a b <= 0 \/ compare_nullable b a <= 0.
Proof.
  destruct a, b; simpl; try lia. apply compare_strings_total.
Qed.

Lemma compare_nullable_trans a b c :
  compare_nullable a b <= 0 -> compare_nullable b c <= 0 -> compare_nullable a c <= 0.
Proof.
  destruct a, b, c; simpl; try lia. apply compare_strings_trans.
Qed.
End OrderFacts.

Section Forall2Facts.
Context {A B : Type} (P : A -> B -> Prop).

Lemma Forall2_in_l (l : list A) (l' : list B) (a : A) :
  Forall2 P l l' -> In a l -> exists b, In b l' /\ P a b.
Proof.
  induction 1 as [|x y l l' Hxy _ IH]; [intros []|].
  intros [<-|Hin]; [exists y; split; [now left|assumption]|].
  destruct (IH Hin) as (b & Hb & Hab). exists b. split; [now right|assumption].
Qed.

Lemma Forall2_in_r (l : list A) (l' : list B) (b : B) :
  Forall2 P l l' -> In b l' -> exists a, In a l /\ P a b.
Proof.
  induction 1 as [|x y l l' Hxy _ IH]; [intros []|].
  intros [<-|Hin]; [exists x; split; [now left|assumption]|].
  destruct (IH Hin) as (a & Ha & Hab). exists a. split; [now right|assumption].
Qed.
End Forall2Facts.

Section MapResult.
Context {A B : Type} (f : A -> result B).

Lemma map_result_Forall2 (l : list A) (bs : list B) :
  map_result f l = Returns bs -> Forall2 (fun a b => f a = Returns b) l bs.
Proof.
  revert bs. induction l as [|a l IH]; simpl; intros bs.
  - intros [= <-]. constructor.
  - destruct (f a) as [b|e] eqn:Ea; [|discriminate].
    destruct (map_result f l) as [bs'|e]; [|discriminate].
    intros [= <-]. constructor; auto.
Qed.
End MapResult.

Section Listings.
Context {X : Type}.
Context `{!IDriveService X, !ICacheService X, !IBackendApi X, !Platform X}.
Context `{!ICacheValidation X}.
Context `{!Formats}.
Context `{!JSON (list Author), !JSON (list string), !JSON JsonValue}.
Context `{!JSON (list Annotation), !JSON AnnotationSidecar}.
Implicit Types (w : World X) (row : ItemRow) (item : Item).

Lemma rowToItem_fields row item :
  rowToItem row = Returns item ->
  Item.id item = ItemRow.id row
  /\ Item.libraryId item = ItemRow.libraryId row
  /\ Item.title item = ItemRow.title row
  /\ Item.version item = ItemRow.version row
  /\ Item.deleted item = (ItemRow.deleted row =? 1).
Proof.
  unfold rowToItem.
  destruct (parse_or (ItemRow.authors row) []); [|discriminate].
  destruct (parse_or (ItemRow.tags row) []); [|discriminate].
  destruct (parse_or (ItemRow.extra row) (JObject [])); [|discriminate].
  intros [= <-]. repeat split.
Qed.

Lemma listed_rows_In libraryId d row :
  In row (listed_rows libraryId d)
  <-> (exists k, items d !! k = Some row)
      /\ ItemRow.libraryId row = libraryId /\ ItemRow.deleted row = 0.
Proof.
  unfold listed_rows.
  assert (Hperm : forall l, In row (array_sort
                    (fun a b => compare_nullable (ItemRow.title a) (ItemRow.title b)) l)
                  <-> In row l).
  { intros l. split; apply Permutation_in; [symmetry|]; apply array_sort_perm. }
  rewrite Hperm, filter_In, in_rows. unfold is_listed.
  rewrite andb_true_iff, String.eqb_eq, Z.eqb_eq. tauto.
Qed.

Lemma listed_rows_sorted libraryId d :
  StronglySorted
    (fun a b => compare_nullable (ItemRow.title a) (ItemRow.title b) <= 0)
    (listed_rows libraryId d).
Proof.
  apply array_sort_sorted.
  - intros a b. apply compare_nullable_total.
  - intros a b c. apply compare_nullable_trans.
Qed.

Lemma listItems_rows libraryId w l w' :
  listItems libraryId w = (Returns l, w') ->
  w' = w
  /\ Forall2 (fun row item => rowToItem row = Returns item)
       (listed_rows libraryId (db w)) l.
Proof.
  unfold listItems. st_unfold.
  destruct (map_result rowToItem (listed_rows libraryId (db w))) as [l'|e] eqn:E;
    [|discriminate].
  intros [= <- <-]. split; [reflexivity|]. now apply map_result_Forall2.
Qed.

Lemma sorted_Forall2 {A B} (R : A -> A -> Prop) (R' : B -> B -> Prop)
    (P : A -> B -> Prop) (l : list A) (l' : list B) :
  (forall a b a' b', P a a' -> P b b' -> R a b -> R' a' b') ->
  Forall2 P l l' -> StronglySorted R l -> StronglySorted R' l'.
Proof.
  intros Hmono Hall. induction Hall as [|a a' l l' Ha Hall IH]; intros Hs.
  - constructor.
  - inversion Hs as [|? ? Hs' Hfirst]; subst. constructor; [auto|].
    clear IH Hs Hs'. induction Hall as [|b b' l l' Hb Hall IH]; [constructor|].
    apply Forall_cons_iff in Hfirst as [Hab Hfirst].
    constructor; [eapply Hmono; eauto|auto].
Qed.

(** X18. When [listItems] returns, it has changed nothing, and its list
    holds exactly the items of the rows of that library that are not
    soft-deleted: every listed item is the reading of such a row, every
    such row is read into a listed item, and the list is in the order of
    the titles, the items without a title first. *)
Theorem listItems_lists libraryId w l w' :
  listItems libraryId w = (Returns l, w') ->
  w' = w
  /\ (forall item, In item l ->
        Item.libraryId item = libraryId /\ Item.deleted item = false
        /\ exists k row, items (db w) !! k = Some row /\ rowToItem row = Returns item)
  /\ (forall k row,
        items (db w) !! k = Some row ->
        ItemRow.libraryId row = libraryId -> ItemRow.deleted row = 0 ->
        exists item, In item l /\ rowToItem row = Returns item)
  /\ StronglySorted by_title l.
Proof.
  intros Hlist. apply listItems_rows in Hlist as [-> Hall].
  split; [reflexivity|]. split; [|split].
  - intros item Hin.
    destruct (Forall2_in_r _ _ _ _ Hall Hin) as (row & Hrow & Hread).
    apply listed_rows_In in Hrow as ([k Hk] & Hlib & Hdel).
    destruct (rowToItem_fields _ _ Hread) as (_ & Hl & _ & _ & Hd).
    rewrite Hl, Hd, Hdel. repeat split; eauto.
  - intros k row Hk Hlib Hdel.
    assert (Hrow : In row (listed_rows libraryId (db w)))
      by (apply listed_rows_In; eauto).
    destruct (Forall2_in_l _ _ _ _ Hall Hrow) as (item & Hin & Hread). eauto.
  - eapply (sorted_Forall2 _ by_title); [|exact Hall|apply listed_rows_sorted].
    intros a b a' b' Ha Hb. unfold by_title.
    destruct (rowToItem_fields _ _ Ha) as (_ & _ & -> & _).
    destruct (rowToItem_fields _ _ Hb) as (_ & _ & -> & _). auto.
Qed.
End Listings.

Section UnknownItems.
Context {X : Type}.
Context `{!IDriveService X, !ICacheService X, !IBackendApi X, !Platform X}.
Context `{!Formats}.
Context `{!JSON (list Author), !JSON (list string), !JSON JsonValue}.
Context `{!JSON (list Annotation), !JSON AnnotationSidecar}.
Implicit Types (w : World X) (row : ItemRow) (item : Item).

Lemma alter_absent {R} (f : R -> R) (k : string) (table : gmap string R) :
  table !! k = None -> alter f k table = table.
Proof.
  intros Hnone. apply map_eq. intros k'.
  destruct (decide (k = k')) as [<-|Hne].
  - now rewrite lookup_alter_eq, Hnone.
  - now rewrite lookup_alter_ne.
Qed.

(** X19. After [deleteItem] the item is not listed any more, in any
    library: no item of the list [listItems] returns carries its id. *)
Theorem deleteItem_unlists w id libraryId l w' :
  keyed ItemRow.id (items (db w)) ->
  listItems libraryId (snd (deleteItem id w)) = (Returns l, w') ->
  forall item, In item l -> Item.id item <> id.
Proof.
  intros Hkeyed Hlist item Hin Hid.
  apply listItems_rows in Hlist as [_ Hall].
  destruct (Forall2_in_r _ _ _ _ Hall Hin) as (row & Hrow & Hread).
  apply listed_rows_In in Hrow as ([k Hk] & _ & Hlive).
  destruct (rowToItem_fields _ _ Hread) as (Hrid & _).
  revert Hk. unfold deleteItem. st_unfold.
  destruct (Date_now (ext w)) as [t x1]. st_simpl.
  destruct (decide (id = k)) as [<-|Hne].
  - rewrite lookup_alter_eq.
    destruct (items (db w) !! id) as [old|]; [|discriminate].
    intros [= <-]. discriminate Hlive.
  - rewrite lookup_alter_ne by assumption. intros Hk.
    pose proof (Hkeyed k row Hk) as Hkey. cbn in Hkey. congruence.
Qed.

(** X20. An id that no row of [items] has: [getItem] returns [null],
    [updateItem] throws [NotFoundError] with the id in its message and
    changes nothing, and [deleteItem] returns without an error and leaves
    the database as it is. *)
Theorem unknown_item_id w id (data : PartialItem) :
  items (db w) !! id = None ->
  getItem id w = (Returns None, w)
  /\ updateItem id data w = (Throws (NotFoundError ("Item not found: " ++ id)), w)
  /\ fst (deleteItem id w) = Returns tt
  /\ db (snd (deleteItem id w)) = db w
  /\ drive_calls (snd (deleteItem id w)) = drive_calls w.
Proof.
  intros Hnone.
  assert (Hget : getItem id w = (Returns None, w)).
  { unfold getItem. st_unfold. now rewrite Hnone. }
  split; [exact Hget|]. split.
  - unfold updateItem, bind. now rewrite Hget.
  - unfold deleteItem. st_unfold.
    destruct (Date_now (ext w)) as [t x1]. st_simpl.
    split; [reflexivity|]. split; [|reflexivity].
    unfold with_items. rewrite (alter_absent _ _ _ Hnone). now destruct (db w).
Qed.
End UnknownItems.

Section LibrariesMore.
Context {X : Type}.
Context `{!IDriveService X, !ICacheService X, !IBackendApi X, !Platform X}.
Context `{!Formats}.
Context `{!JSON (list Author), !JSON (list string), !JSON JsonValue}.
Context `{!JSON (list Annotation), !JSON AnnotationSidecar}.
Implicit Types (w : World X).

(** X21. [createLibrary] files a new library under a fresh identifier,
    with the name, type and group given and without a Drive root, and
    returns it; [getLibrary] and [listLibraries] then show it, and the
    other tables are as before. When the identifier is taken the insert
    fails on the primary key and nothing is written. *)
Theorem createLibrary_creates w name type groupId id x1 t x2 :
  uuid (ext w) = (id, x1) ->
  Date_now x1 = (t, x2) ->
  let library := new_library_row id name type groupId (sqlite_datetime t) in
  (libraries (db w) !! id = None ->
   exists w' listed,
     createLibrary name type groupId w = (Returns (Some library), w')
     /\ Library.driveRootId library = None
     /\ libraries (db w') = <[id := library]> (libraries (db w))
     /\ getLibrary id w' = (Returns (Some library), w')
     /\ listLibraries w' = (Returns listed, w') /\ In library listed
     /\ items (db w') = items (db w)
     /\ attachments (db w') = attachments (db w))
  /\ (is_Some (libraries (db w) !! id) ->
      createLibrary name type groupId w
      = (Throws (unique_failed "libraries.id"), mkWorld (db w) x2 (drive_calls w))).
Proof.
  intros Hid Hnow library. split.
  - intros Hfresh. eexists _, _.
    unfold createLibrary, insert_library, getLibrary, listLibraries.
    st_unfold. st_with Hid. st_with Hnow.
    cbn [new_library_row Library.id]. st_with Hfresh.
    fold library. rewrite lookup_insert_eq.
    split; [reflexivity|]. st_simpl. rewrite lookup_insert_eq.
    split; [reflexivity|]. split; [reflexivity|].
    split; [reflexivity|]. split; [reflexivity|]. split; [|split; reflexivity].
    eapply Permutation_in; [apply array_sort_perm|].
    apply in_rows. exists id. apply lookup_insert_eq.
  - intros [old Hold].
    unfold createLibrary, insert_library. st_unfold. st_with Hid. st_with Hnow.
    cbn [new_library_row Library.id]. now rewrite Hold.
Qed.
End LibrariesMore.

Section ItemsWitnesses.
Import Scenario ItemScenario ListingScenario.

Lemma keyed_items_decide (table : gmap string ItemRow) :
  bool_decide (keyed ItemRow.id table) = true -> keyed ItemRow.id table.
Proof. apply bool_decide_eq_true_1. Qed.

(** Two papers are listed by title; the one that was deleted is listed
    no more. *)
Lemma listItems_lists_witness :
  listItems "lib-1" two_papers = (Returns [another; created], two_papers)
  /\ StronglySorted by_title [another; created].
Proof.
  assert (Hlist : listItems "lib-1" two_papers = (Returns [another; created], two_papers))
    by (vm_compute; reflexivity).
  split; [exact Hlist|]. exact (proj2 (proj2 (proj2 (listItems_lists _ _ _ _ Hlist)))).
Defined.

Lemma deleteItem_unlists_witness :
  listItems "lib-1" one_deleted = (Returns [another], one_deleted)
  /\ Item.id another <> "uuid-1".
Proof.
  assert (Hlist : listItems "lib-1" one_deleted = (Returns [another], one_deleted))
    by (vm_compute; reflexivity).
  split; [exact Hlist|].
  apply (deleteItem_unlists two_papers "uuid-1" "lib-1" [another] one_deleted);
    [|exact Hlist|now left].
  apply keyed_items_decide. vm_compute. reflexivity.
Defined.

Lemma unknown_item_id_witness :
  getItem "nonexistent" start = (Returns None, start)
  /\ updateItem "nonexistent" new_title start
     = (Throws (NotFoundError "Item not found: nonexistent"), start).
Proof.
  destruct (unknown_item_id start "nonexistent" new_title) as (Hget & Hupdate & _).
  - vm_compute. reflexivity.
  - split; [exact Hget|exact Hupdate].
Defined.

(** The group library of the tests. *)
Lemma createLibrary_creates_witness :
  exists library w',
    createLibrary "Team Lib" group (Some "group-1") (mkWorld (Build_Db ∅ ∅ ∅ ∅ ∅ ∅) outside [])
    = (Returns (Some library), w')
    /\ Library.groupId library = Some "group-1"
    /\ Library.driveRootId library = None.
Proof.
  edestruct (createLibrary_creates (mkWorld (Build_Db ∅ ∅ ∅ ∅ ∅ ∅) outside [])
               "Team Lib" group (Some "group-1")) as [Hnew _].
  - vm_compute; reflexivity.
  - vm_compute; reflexivity.
  - destruct Hnew as (w' & listed & Hcreate & Hroot & _); [vm_compute; reflexivity|].
    eexists _, w'. split; [exact Hcreate|]. split; [reflexivity|exact Hroot].
Defined.
End ItemsWitnesses.

(** ** Relations between the database before and after *)

Section Moves.
Context {X : Type}.
Context `{!IDriveService X, !ICacheService X, !IBackendApi X, !Platform X}.
Context `{!Formats}.
Context (R : Db -> Db -> Prop).
Hypothesis R_refl : forall d, R d d.
Hypothesis R_trans : forall d1 d2 d3, R d1 d2 -> R d2 d3 -> R d1 d3.

Lemma moves_ret {A} (a : A) : moves R (@ret (World X) A a).
Proof. intros w. apply R_refl. Qed.

Lemma moves_throw {A} e : moves R (@throw (World X) A e).
Proof. intros w. apply R_refl. Qed.

Lemma moves_gets {A} (f : World X -> A) : moves R (gets f).
Proof. intros w. apply R_refl. Qed.

Lemma moves_lift {A} (r : result A) : moves R (@lift_result (World X) A r).
Proof. intros w. apply R_refl. Qed.

Lemma moves_bind {A B} (m : ST (World X) A) (k : A -> ST (World X) B) :
  moves R m -> (forall a, moves R (k a)) -> moves R (bind m k).
Proof.
  intros Hm Hk w. unfold bind. specialize (Hm w).
  destruct (m w) as [[a|e] w']; cbn [snd] in *; [|assumption].
  eapply R_trans; [exact Hm|apply Hk].
Qed.

Lemma moves_try_catch {A} (m : ST (World X) A) handler :
  moves R m -> (forall e, moves R (handler e)) -> moves R (try_catch m handler).
Proof.
  intros Hm Hh w. unfold try_catch. specialize (Hm w).
  destruct (m w) as [[a|e] w']; cbn [snd] in *; [assumption|].
  eapply R_trans; [exact Hm|apply Hh].
Qed.

Lemma moves_external {A} (op : X -> (A + Rejection) * X) : moves R (external op).
Proof. intros w. unfold external. destruct (op (ext w)). apply R_refl. Qed.

Lemma moves_drive {A} call (op : X -> (A + Rejection) * X) : moves R (drive call op).
Proof. intros w. unfold drive. destruct (op (ext w)). apply R_refl. Qed.

Lemma moves_now_ms : moves R (now_ms (X:=X)).
Proof. intros w. unfold now_ms. destruct (Date_now (ext w)). apply R_refl. Qed.

Lemma moves_new_uuid : moves R (new_uuid (X:=X)).
Proof. intros w. unfold new_uuid. destruct (uuid (ext w)). apply R_refl. Qed.

Lemma moves_write f : (forall d, R d (f d)) -> moves R (write (X:=X) f).
Proof. intros Hf w. apply Hf. Qed.
End Moves.

Ltac moves :=
  repeat first
    [ apply moves_ret; assumption
    | apply moves_throw; assumption
    | apply moves_gets; assumption
    | apply moves_lift; assumption
    | apply moves_external; assumption
    | apply moves_drive; assumption
    | apply moves_now_ms; assumption
    | apply moves_new_uuid; assumption
    | apply moves_try_catch; [assumption| |intros ?]
    | apply moves_bind; [assumption| |intros ?]
    | match goal with
      | |- moves _ (match ?x with _ => _ end) => destruct x
      | |- moves _ (if ?x then _ else _) => destruct x
      end ].

(** ** More on saving annotations *)

Section SaveMore.
Context {X : Type}.
Context `{!IDriveService X, !ICacheService X, !IBackendApi X, !Platform X}.
Context `{!Formats}.
Context `{!JSON (list Author), !JSON (list string), !JSON JsonValue}.
Context `{!JSON (list Annotation), !JSON AnnotationSidecar}.
Implicit Types (w : World X).

(** X22. In a library without a Drive root (a personal library, or any
    library [createLibrary] made) [saveAnnotations] only saves locally:
    the row gets the annotations, a local version one higher and the
    dirty flag; no call goes to the Drive and nothing is queued. *)
Theorem saveAnnotations_without_drive w attachmentId (annotations : list Annotation)
    annRow annotationSet t x1 attachment itemRow item :
  annotation_set_of attachmentId (db w) = Some annRow ->
  rowToAnnotationSet annRow = Returns annotationSet ->
  Date_now (ext w) = (t, x1) ->
  attachments (db w) !! attachmentId = Some attachment ->
  items (db w) !! Attachment.itemId attachment = Some itemRow ->
  rowToItem itemRow = Returns item ->
  truthy (libraries (db w) !! Item.libraryId item ≫= Library.driveRootId) = false ->
  let saved :=
    saved_locally (stringify 0 annotations)
      (AnnotationSet.localVersion annotationSet + 1) (sqlite_datetime t) in
  saveAnnotations attachmentId annotations w
  = (Returns tt,
     mkWorld (with_annotation_sets (alter saved (AnnotationSet.id annotationSet)) (db w))
       x1 (drive_calls w))
  /\ (forall row, AnnotationSetRow.isDirty (saved row) = 1
                  /\ AnnotationSetRow.annotations (saved row) = stringify 0 annotations).
Proof.
  intros Hset Hparse Hnow Hatt Hitem Hread Hroot saved. split; [|now split].
  unfold saveAnnotations, upload_annotations, getAttachment, getItem, getLibrary.
  st_unfold. st_with Hset. st_with Hparse. st_with Hnow.
  st_with Hatt. st_with Hitem. st_with Hread. rewrite Hroot. reflexivity.
Qed.

(** X23. When the Drive rejects the call for the folder,
    [saveAnnotations] does not fail: the annotations are saved locally
    and stay dirty, and a pending upload of type [annotation] for the set
    is queued. The rejected call is the only call on the Drive. *)
Theorem saveAnnotations_queues_upload w attachmentId (annotations : list Annotation)
    annRow annotationSet t1 x1 attachment itemRow item library root t2 x2
    rejection x3 queueId x4 t3 x5 :
  annotation_set_of attachmentId (db w) = Some annRow ->
  rowToAnnotationSet annRow = Returns annotationSet ->
  Date_now (ext w) = (t1, x1) ->
  attachments (db w) !! attachmentId = Some attachment ->
  items (db w) !! Attachment.itemId attachment = Some itemRow ->
  rowToItem itemRow = Returns item ->
  libraries (db w) !! Item.libraryId item = Some library ->
  as_truthy (Library.driveRootId library) = Some root ->
  Date_now x1 = (t2, x2) ->
  ensureFolder (Some root) "annotations" x2 = (inr rejection, x3) ->
  uuid x3 = (queueId, x4) ->
  Date_now x4 = (t3, x5) ->
  upload_queue (db w) !! queueId = None ->
  let saved :=
    saved_locally (stringify 0 annotations)
      (AnnotationSet.localVersion annotationSet + 1) (sqlite_datetime t1) in
  exists w',
    saveAnnotations attachmentId annotations w = (Returns tt, w')
    /\ drive_calls w' = (drive_calls w ++ [EnsureFolder (Some root) "annotations"])%list
    /\ annotation_sets (db w')
       = alter saved (AnnotationSet.id annotationSet) (annotation_sets (db w))
    /\ upload_queue (db w')
       = <[queueId := new_upload_row queueId annotation (AnnotationSet.id annotationSet)
                        None (sqlite_datetime t3)]> (upload_queue (db w))
    /\ (forall row, AnnotationSetRow.isDirty (saved row) = 1).
Proof.
  intros Hset Hparse Hnow1 Hatt Hitem Hread Hlib Hroot Hnow2 Hfolder Hq Hnow3 Hfresh
    saved.
  apply as_truthy_Some in Hroot as [Hroot Htruthy].
  eexists. split; [|split; [|split; [|split]]].
  - unfold saveAnnotations, upload_annotations, getAttachment, getItem, getLibrary.
    st_unfold. st_with Hset. st_with Hparse. st_with Hnow1.
    st_with Hatt. st_with Hitem. st_with Hread. st_with Hlib.
    cbn [mbind option_bind]. rewrite Htruthy, Hroot. st_simpl.
    st_with Hnow2. st_with Hfolder. st_with Hq. st_with Hnow3.
    cbn [new_upload_row UploadQueueEntry.id]. st_with Hfresh. reflexivity.
  - reflexivity.
  - reflexivity.
  - reflexivity.
  - reflexivity.
Qed.

Lemma set_content_stays_refl id d : set_content_stays id d d.
Proof. intros row Hrow. eauto. Qed.

Lemma set_content_stays_trans id d1 d2 d3 :
  set_content_stays id d1 d2 -> set_content_stays id d2 d3 -> set_content_stays id d1 d3.
Proof.
  intros H12 H23 row Hrow.
  destruct (H12 _ Hrow) as (row2 & Hrow2 & Ha2 & Hb2).
  destruct (H23 _ Hrow2) as (row3 & Hrow3 & Ha3 & Hb3).
  exists row3. repeat split; congruence.
Qed.

(** An update of annotation sets that leaves the annotations and the
    attachment of a row alone. *)
Lemma set_content_stays_update id id' (f : AnnotationSetRow -> AnnotationSetRow) :
  (forall row, AnnotationSetRow.annotations (f row) = AnnotationSetRow.annotations row
               /\ AnnotationSetRow.attachmentId (f row) = AnnotationSetRow.attachmentId row) ->
  moves (set_content_stays id) (update_annotation_set (X:=X) id' f).
Proof.
  intros Hf w row Hrow. unfold update_annotation_set, write, modify. st_simpl.
  destruct (decide (id' = id)) as [->|Hne].
  - rewrite lookup_alter_eq, Hrow. eexists. split; [reflexivity|apply Hf].
  - rewrite lookup_alter_ne by assumption. eauto.
Qed.

Lemma set_content_stays_insert_upload id (row : UploadQueueEntry) :
  moves (set_content_stays id) (insert_upload (X:=X) row).
Proof.
  intros w. unfold insert_upload. st_unfold.
  destruct (upload_queue (db w) !! UploadQueueEntry.id row); st_simpl;
    [apply set_content_stays_refl|].
  intros r Hr. exists r. st_simpl. repeat split. exact Hr.
Qed.

Lemma set_content_stays_getItem id itemId :
  moves (set_content_stays id) (getItem (X:=X) itemId).
Proof.
  intros w. unfold getItem. st_unfold.
  destruct (items (db w) !! itemId) as [row|]; st_simpl;
    [destruct (rowToItem row)|]; apply set_content_stays_refl.
Qed.

Lemma set_content_stays_upload id attachmentId (annotations : list Annotation)
    annotationSet newVersion :
  moves (set_content_stays id)
    (upload_annotations (X:=X) attachmentId annotations annotationSet newVersion).
Proof.
  pose proof (set_content_stays_refl id) as Hrefl.
  pose proof (set_content_stays_trans id) as Htrans.
  unfold upload_annotations, reconcile, getAttachment, getLibrary, now_iso, current_user.
  apply moves_bind; [assumption|moves|intros attachment].
  destruct attachment as [attachment|]; [|moves].
  apply moves_bind; [assumption|apply set_content_stays_getItem|intros item].
  destruct item as [item|]; [|moves].
  apply moves_bind; [assumption|moves|intros library].
  destruct (negb _); [moves|].
  apply moves_bind; [assumption|moves|intros lastModified].
  apply moves_bind; [assumption|moves|intros user].
  apply moves_bind; [assumption|moves|intros folder].
  destruct (as_truthy _) as [fileId|].
  - apply moves_bind; [assumption|moves|intros sidecarData].
    apply moves_bind; [assumption|moves|intros updated].
    apply set_content_stays_update. intros row. split; reflexivity.
  - apply moves_bind; [assumption|moves|intros driveFile].
    apply set_content_stays_update. intros row. split; reflexivity.
Qed.

(** X24. Whatever the Drive answers, once [saveAnnotations] has found
    and read the annotation set its row holds the annotations that were
    saved: also when the sidecar that went to the Drive held the merge
    with remote annotations, the local row holds the saved ones only. *)
Theorem saveAnnotations_stores_saved w attachmentId (annotations : list Annotation)
    annRow annotationSet :
  annotation_set_of attachmentId (db w) = Some annRow ->
  rowToAnnotationSet annRow = Returns annotationSet ->
  annotation_sets (db w) !! AnnotationSetRow.id annRow = Some annRow ->
  exists row',
    annotation_sets (db (snd (saveAnnotations attachmentId annotations w)))
      !! AnnotationSetRow.id annRow = Some row'
    /\ AnnotationSetRow.annotations row' = stringify 0 annotations
    /\ AnnotationSetRow.attachmentId row' = AnnotationSetRow.attachmentId annRow.
Proof.
  intros Hset Hparse Hkeyed.
  assert (Hid : AnnotationSet.id annotationSet = AnnotationSetRow.id annRow).
  { unfold rowToAnnotationSet in Hparse.
    destruct (JSON_parse _); [|discriminate]. now injection Hparse as <-. }
  pose proof (set_content_stays_refl (AnnotationSetRow.id annRow)) as Hrefl.
  pose proof (set_content_stays_trans (AnnotationSetRow.id annRow)) as Htrans.
  unfold saveAnnotations. unfold bind at 1, gets at 1. rewrite Hset.
  unfold bind at 1, lift_result at 1. rewrite Hparse.
  unfold bind at 1, now_sql at 1, bind at 1, now_ms at 1.
  destruct (Date_now (ext w)) as [t x1]. unfold ret at 1.
  unfold bind at 1, update_annotation_set at 1, write, modify.
  match goal with
  | |- context [try_catch ?m ?h ?w1] =>
      assert (Hrest : moves (set_content_stays (AnnotationSetRow.id annRow))
                        (try_catch m h))
  end.
  { apply moves_try_catch; [assumption|apply set_content_stays_upload|intros e].
    apply moves_bind; [assumption|moves|intros u].
    apply moves_bind; [assumption|unfold now_sql; moves|intros now].
    apply set_content_stays_insert_upload. }
  match goal with
  | |- context [try_catch ?m ?h ?w1] =>
      destruct (Hrest w1 (saved_locally (stringify 0 annotations)
                            (AnnotationSet.localVersion annotationSet + 1)
                            (sqlite_datetime t) annRow))
        as (row' & Hrow' & Hann & Hatt)
  end.
  - st_simpl. now rewrite Hid, lookup_alter_eq, Hkeyed.
  - exists row'. split; [exact Hrow'|]. split; [exact Hann|exact Hatt].
Qed.
End SaveMore.

Section SaveMoreWitnesses.
Import Fixtures Scenario ConflictScenario QueueScenario.

(** Alice saves [h1] on her paper in a personal library. *)
Lemma saveAnnotations_without_drive_witness :
  exists w',
    saveAnnotations "att-1" [h1] PersonalScenario.world = (Returns tt, w')
    /\ drive_calls w' = []
    /\ upload_queue (db w') = ∅.
Proof.
  edestruct (saveAnnotations_without_drive PersonalScenario.world "att-1" [h1])
    as [Hsave _].
  1-7: vm_compute; reflexivity.
  eexists. split; [exact Hsave|]. split; reflexivity.
Defined.

(** Alice saves [h1] while the Drive cannot be reached. *)
Lemma saveAnnotations_queues_upload_witness :
  exists w',
    saveAnnotations "att-1" [h1] offline_world = (Returns tt, w')
    /\ drive_calls w' = [EnsureFolder (Some "root") "annotations"]
    /\ UploadQueueEntry.status <$> upload_queue (db w') !! "uuid-1" = Some pending
    /\ UploadQueueEntry.targetId <$> upload_queue (db w') !! "uuid-1" = Some "as-1".
Proof.
  edestruct (saveAnnotations_queues_upload offline_world "att-1" [h1])
    as (w' & Hsave & Hcalls & _ & Hqueue & _).
  1-13: vm_compute; reflexivity.
  exists w'. split; [exact Hsave|]. split; [exact Hcalls|].
  rewrite Hqueue, lookup_insert_eq. split; reflexivity.
Defined.

(** Alice saves [h1] while the Drive holds Bob's [n1]: both go to the
    Drive, her row keeps [h1] alone. *)
Lemma saveAnnotations_stores_saved_witness :
  exists row',
    annotation_sets (db (snd (saveAnnotations "att-1" [h1] world))) !! "as-1" = Some row'
    /\ AnnotationSetRow.annotations row' = print_annotations [h1]
    /\ Mock.text <$> assoc_get "f1"
         (Mock.drive_files (ext (snd (saveAnnotations "att-1" [h1] world))))
       = Some (print_sidecar sent_by_save).
Proof.
  destruct (saveAnnotations_stores_saved world "att-1" [h1] alice_set
              (AnnotationSet.mk "as-1" "att-1" [h1] (Some "f1") (Some "rev-1") 3 2 true
                 (Some "alice") "2024-01-01 09:00:00" "2024-01-01 09:30:00"))
    as (row' & Hrow' & Hann & _).
  1-3: vm_compute; reflexivity.
  exists row'. split; [exact Hrow'|]. split; [exact Hann|].
  vm_compute. reflexivity.
Defined.
End SaveMoreWitnesses.

(** ** Opening a PDF in the viewer *)

Section OpenMore.
Context {X : Type}.
Context `{!IDriveService X, !ICacheService X, !IBackendApi X, !Platform X}.
Context `{!ICacheValidation X}.
Context `{!Formats}.
Context `{!JSON (list Author), !JSON (list string), !JSON JsonValue}.
Context `{!JSON (list Annotation), !JSON AnnotationSidecar}.
Implicit Types (w : World X).

(** X25. What [openPdfForAnnotate] refuses. An attachment that does not
    exist: [NotFoundError]. A PDF that is neither in the cache nor on the
    Drive: [NotFoundError], and no call is made. A PDF that is not in the
    cache and whose download has another checksum than the one recorded:
    [IntegrityError], after the one download, with the database
    untouched. *)
Theorem openPdfForAnnotate_refuses w attachmentId :
  (attachments (db w) !! attachmentId = None ->
   openPdfForAnnotate attachmentId w
   = (Throws (NotFoundError "Attachment not found"), w))
  /\ (forall a,
        attachments (db w) !! attachmentId = Some a ->
        as_truthy (getPdfPath (Attachment.checksum a) (ext w)) = None ->
        as_truthy (Attachment.driveFileId a) = None ->
        openPdfForAnnotate attachmentId w
        = (Throws (NotFoundError "PDF not uploaded to Drive yet and not in cache"), w))
  /\ (forall a fileId x1 hash x2,
        attachments (db w) !! attachmentId = Some a ->
        as_truthy (getPdfPath (Attachment.checksum a) (ext w)) = None ->
        as_truthy (Attachment.driveFileId a) = Some fileId ->
        let localPath := allocatePath (Attachment.checksum a) (ext w) in
        downloadFile fileId localPath (ext w) = (inl tt, x1) ->
        computeSHA256 localPath x1 = (inl hash, x2) ->
        hash <> Attachment.checksum a ->
        openPdfForAnnotate attachmentId w
        = (Throws (IntegrityError "Downloaded file checksum mismatch"),
           mkWorld (db w) x2 (drive_calls w ++ [DownloadFile fileId localPath]))).
Proof.
  split; [|split].
  - intros Hnone. unfold openPdfForAnnotate, getAttachment. st_unfold.
    now rewrite Hnone.
  - intros a Ha Hcache Hfile.
    unfold openPdfForAnnotate, ensure_cached, getAttachment. st_unfold.
    st_with Ha. rewrite Hcache. st_simpl. rewrite Hfile. now destruct w.
  - intros a fileId x1 hash x2 Ha Hcache Hfile localPath Hdownload Hhash Hne.
    unfold openPdfForAnnotate, ensure_cached, getAttachment. st_unfold.
    st_with Ha. rewrite Hcache. st_simpl. rewrite Hfile. st_simpl.
    fold localPath. st_with Hdownload. st_with Hhash.
    replace (String.eqb hash (Attachment.checksum a)) with false
      by (symmetry; now apply String.eqb_neq).
    reflexivity.
Qed.

(** X26. Opening a PDF that is in the cache and valid, when the sidecar
    on the Drive is not at the recorded revision: the remote sidecar is
    downloaded, the viewer gets the merge of the local annotations with
    the remote ones, and the row of the set stores that merge with the
    revision and the version of the remote file. The row is not marked
    dirty and its local version stays. *)
Theorem openPdfForAnnotate_merges w attachmentId a path x1 annRow annotationSet fileId
    remoteMeta x2 remoteData x3 :
  attachments (db w) !! attachmentId = Some a ->
  as_truthy (getPdfPath (Attachment.checksum a) (ext w)) = Some path ->
  isValid path (Attachment.checksum a) (ext w) = (inl true, x1) ->
  annotation_set_of attachmentId (db w) = Some annRow ->
  rowToAnnotationSet annRow = Returns annotationSet ->
  as_truthy (AnnotationSet.driveFileId annotationSet) = Some fileId ->
  getFileMetadata fileId x1 = (inl remoteMeta, x2) ->
  Some (DriveFileMetadata.headRevisionId remoteMeta)
    <> AnnotationSet.driveRevision annotationSet ->
  downloadJSON fileId x2 = (inl remoteData, x3) ->
  let merged :=
    mergeAnnotations (AnnotationSet.annotations annotationSet)
      (AnnotationSidecar.annotations remoteData) in
  let stored :=
    merged_on_open (stringify 0 merged) (DriveFileMetadata.headRevisionId remoteMeta)
      (AnnotationSidecar.version remoteData) in
  openPdfForAnnotate attachmentId w
  = (Returns (ViewerSession.mk path merged (AnnotationSet.id annotationSet) attachmentId),
     mkWorld
       (with_annotation_sets (alter stored (AnnotationSet.id annotationSet)) (db w))
       x3 (drive_calls w ++ [GetFileMetadata fileId; DownloadJSON fileId]))
  /\ (forall row,
        AnnotationSetRow.isDirty (stored row) = AnnotationSetRow.isDirty row
        /\ AnnotationSetRow.localVersion (stored row) = AnnotationSetRow.localVersion row).
Proof.
  intros Ha Hcache Hvalid Hset Hparse Hfile Hmeta Hrev Hdown merged stored.
  split; [|now split].
  unfold openPdfForAnnotate, ensure_cached, refresh_annotations, getAttachment.
  st_unfold. st_with Ha. rewrite Hcache. st_simpl. st_with Hvalid.
  st_with Hset. st_with Hparse. rewrite Hfile. st_simpl. st_with Hmeta.
  rewrite bool_decide_eq_true_2 by assumption. st_simpl. st_with Hdown.
  fold merged. fold stored. now rewrite <- app_assoc.
Qed.

(** X27. Opening a PDF that is in the cache and valid, when the Drive
    cannot tell about the sidecar or has nothing new: if the call for the
    metadata is rejected, or the download of the sidecar is rejected, or
    the file is at the recorded revision, the viewer gets the local
    annotations and the database is left as it is. *)
Theorem openPdfForAnnotate_falls_back w attachmentId a path x1 annRow annotationSet
    fileId :
  attachments (db w) !! attachmentId = Some a ->
  as_truthy (getPdfPath (Attachment.checksum a) (ext w)) = Some path ->
  isValid path (Attachment.checksum a) (ext w) = (inl true, x1) ->
  annotation_set_of attachmentId (db w) = Some annRow ->
  rowToAnnotationSet annRow = Returns annotationSet ->
  as_truthy (AnnotationSet.driveFileId annotationSet) = Some fileId ->
  let session :=
    ViewerSession.mk path (AnnotationSet.annotations annotationSet)
      (AnnotationSet.id annotationSet) attachmentId in
  (forall rejection x2,
      getFileMetadata fileId x1 = (inr rejection, x2) ->
      openPdfForAnnotate attachmentId w
      = (Returns session, mkWorld (db w) x2 (drive_calls w ++ [GetFileMetadata fileId])))
  /\ (forall remoteMeta x2,
        getFileMetadata fileId x1 = (inl remoteMeta, x2) ->
        Some (DriveFileMetadata.headRevisionId remoteMeta)
        = AnnotationSet.driveRevision annotationSet ->
        openPdfForAnnotate attachmentId w
        = (Returns session, mkWorld (db w) x2 (drive_calls w ++ [GetFileMetadata fileId])))
  /\ (forall remoteMeta x2 rejection x3,
        getFileMetadata fileId x1 = (inl remoteMeta, x2) ->
        Some (DriveFileMetadata.headRevisionId remoteMeta)
        <> AnnotationSet.driveRevision annotationSet ->
        downloadJSON fileId x2 = (inr rejection, x3) ->
        openPdfForAnnotate attachmentId w
        = (Returns session,
           mkWorld (db w) x3
             (drive_calls w ++ [GetFileMetadata fileId; DownloadJSON fileId]))).
Proof.
  intros Ha Hcache Hvalid Hset Hparse Hfile session.
  split; [|split].
  - intros rejection x2 Hmeta.
    unfold openPdfForAnnotate, ensure_cached, refresh_annotations, getAttachment.
    st_unfold. st_with Ha. rewrite Hcache. st_simpl. st_with Hvalid.
    st_with Hset. st_with Hparse. rewrite Hfile. st_simpl. st_with Hmeta.
    reflexivity.
  - intros remoteMeta x2 Hmeta Hrev.
    unfold openPdfForAnnotate, ensure_cached, refresh_annotations, getAttachment.
    st_unfold. st_with Ha. rewrite Hcache. st_simpl. st_with Hvalid.
    st_with Hset. st_with Hparse. rewrite Hfile. st_simpl. st_with Hmeta.
    rewrite bool_decide_eq_false_2 by (intros Hne; now apply Hne). reflexivity.
  - intros remoteMeta x2 rejection x3 Hmeta Hrev Hdown.
    unfold openPdfForAnnotate, ensure_cached, refresh_annotations, getAttachment.
    st_unfold. st_with Ha. rewrite Hcache. st_simpl. st_with Hvalid.
    st_with Hset. st_with Hparse. rewrite Hfile. st_simpl. st_with Hmeta.
    rewrite bool_decide_eq_true_2 by assumption. st_simpl. st_with Hdown.
    now rewrite <- app_assoc.
Qed.
End OpenMore.

Section OpenWitnesses.
Import Fixtures Scenario ConflictScenario ViewerScenario.

(** An unknown attachment; the paper that was added offline and is gone
    from the cache; a download with another checksum. *)
Lemma openPdfForAnnotate_refuses_witness :
  openPdfForAnnotate "att-9" cached
  = (Throws (NotFoundError "Attachment not found"), cached)
  /\ openPdfForAnnotate "uuid-3" nowhere
     = (Throws (NotFoundError "PDF not uploaded to Drive yet and not in cache"), nowhere)
  /\ fst (openPdfForAnnotate "att-1" tampered)
     = Throws (IntegrityError "Downloaded file checksum mismatch").
Proof.
  destruct (openPdfForAnnotate_refuses cached "att-9") as (Hunknown & _).
  destruct (openPdfForAnnotate_refuses nowhere "uuid-3") as (_ & Hnowhere & _).
  destruct (openPdfForAnnotate_refuses tampered "att-1") as (_ & _ & Htampered).
  split; [|split].
  - apply Hunknown. vm_compute. reflexivity.
  - eapply Hnowhere; vm_compute; reflexivity.
  - erewrite Htampered; [reflexivity|vm_compute; reflexivity..|].
    vm_compute. discriminate.
Defined.

(** Alice opens her paper: the viewer shows her [h1] and Bob's [n1]. *)
Lemma openPdfForAnnotate_merges_witness :
  exists session w',
    openPdfForAnnotate "att-1" cached = (Returns session, w')
    /\ ViewerSession.annotations session = [h1; n1]
    /\ AnnotationSetRow.driveRevision <$> annotation_sets (db w') !! "as-1"
       = Some (Some "rev-2")
    /\ AnnotationSetRow.isDirty <$> annotation_sets (db w') !! "as-1" = Some 1.
Proof.
  edestruct (openPdfForAnnotate_merges cached "att-1") as [Hopen _].
  1-7: vm_compute; reflexivity.
  - vm_compute. discriminate.
  - vm_compute; reflexivity.
  - eexists _, _. split; [exact Hopen|]. vm_compute. repeat split.
Defined.

(** The same without the Drive: the viewer shows [h1]. *)
Lemma openPdfForAnnotate_falls_back_witness :
  exists session w',
    openPdfForAnnotate "att-1" cached_offline = (Returns session, w')
    /\ ViewerSession.annotations session = [h1]
    /\ db w' = db cached_offline.
Proof.
  edestruct (openPdfForAnnotate_falls_back cached_offline "att-1") as (Hoff & _).
  1-6: vm_compute; reflexivity.
  eexists _, _. split; [eapply Hoff; vm_compute; reflexivity|]. split; reflexivity.
Defined.
End OpenWitnesses.

(** * The BibTeX export *)

Lemma string_app_cons x (a b : string) : String x a ++ b = String x (a ++ b).
Proof. reflexivity. Qed.

Lemma replace_backslashes_app s1 s2 :
  replace_backslashes (s1 ++ s2) = replace_backslashes s1 ++ replace_backslashes s2.
Proof.
  induction s1 as [|c s1 IH]; [reflexivity|].
  rewrite string_app_cons. cbn [replace_backslashes].
  destruct (Ascii.eqb c backslash); rewrite IH; reflexivity.
Qed.

Lemma escape_specials_app s1 s2 :
  escape_specials (s1 ++ s2) = escape_specials s1 ++ escape_specials s2.
Proof.
  induction s1 as [|c s1 IH]; [reflexivity|].
  rewrite string_app_cons. cbn [escape_specials].
  destruct (bibtex_special c); rewrite IH; reflexivity.
Qed.

Lemma escape_specials_guarded s c before after :
  characters (escape_specials s) = (before ++ c :: after)%list ->
  bibtex_special c = true ->
  exists l, before = (l ++ [backslash])%list.
Proof.
  revert before. induction s as [|c0 s IH]; intros before E Hc.
  - destruct before; discriminate E.
  - cbn [escape_specials] in E. destruct (bibtex_special c0) eqn:E0.
    + cbn [characters] in E.
      destruct before as [|b1 [|b2 before]]; cbn in E.
      * injection E as <- _. discriminate Hc.
      * injection E as <- _ _. now exists [].
      * injection E as <- <- E. destruct (IH _ E Hc) as [l ->].
        now exists (backslash :: c0 :: l).
    + cbn [characters] in E. destruct before as [|b before]; cbn in E.
      * injection E as <- _. congruence.
      * injection E as <- E. destruct (IH _ E Hc) as [l ->].
        now exists (c0 :: l).
Qed.

(** X28. [escapeBibtex] works character by character: the escape of a
    concatenation is the concatenation of the escapes; a backslash
    becomes [\textbackslash\{\}] (the braces of the replacement are
    escaped by the second pass), a character of the class [&%$#_{}~^]
    gets a backslash in front, any other character stays. In the output
    every character of the class has a backslash right before it. *)
Theorem escapeBibtex_characters s1 s2 c :
  escapeBibtex (s1 ++ s2) = escapeBibtex s1 ++ escapeBibtex s2
  /\ escapeBibtex (String backslash "") = "\textbackslash\{\}"
  /\ (bibtex_special c = true -> escapeBibtex (String c "") = String backslash (String c ""))
  /\ (bibtex_special c = false -> c <> backslash -> escapeBibtex (String c "") = String c "")
  /\ (forall before after,
        characters (escapeBibtex s1) = (before ++ c :: after)%list ->
        bibtex_special c = true ->
        exists l, before = (l ++ [backslash])%list).
Proof.
  split; [|split; [|split; [|split]]].
  - unfold escapeBibtex. now rewrite replace_backslashes_app, escape_specials_app.
  - reflexivity.
  - intros Hc. unfold escapeBibtex. cbn [replace_backslashes].
    destruct (Ascii.eqb c backslash) eqn:E.
    + apply Ascii.eqb_eq in E. subst c. discriminate Hc.
    + cbn [escape_specials]. now rewrite Hc.
  - intros Hc Hb. unfold escapeBibtex. cbn [replace_backslashes].
    destruct (Ascii.eqb c backslash) eqn:E.
    + apply Ascii.eqb_eq in E. contradiction.
    + cbn [escape_specials]. now rewrite Hc.
  - intros before after. apply escape_specials_guarded.
Qed.

(** ** Cite keys *)

Lemma string_app_inv_head (a b c : string) : a ++ b = a ++ c -> b = c.
Proof. apply String.app_inj. Qed.

Lemma string_app_length (a b : string) :
  String.length (a ++ b) = (String.length a + String.length b)%nat.
Proof.
  induction a as [|x a IH]; [reflexivity|].
  rewrite string_app_cons. cbn [String.length]. now rewrite IH.
Qed.

Lemma fromCharCode_letter j :
  0 <= j <= 159 ->
  fromCharCode (96 + j) = Some (String (ascii_of_N (Z.to_N (96 + j))) "").
Proof.
  intros Hj. unfold fromCharCode.
  destruct (0 <=? 96 + j) eqn:E1; [|lia].
  destruct (96 + j <? 256) eqn:E2; [reflexivity|lia].
Qed.

Lemma candidate_Some base j :
  0 <= j <= 159 -> is_Some (candidate base j).
Proof.
  intros Hj. unfold candidate. destruct (j =? 0); [eauto|].
  rewrite fromCharCode_letter by lia. eauto.
Qed.

Lemma candidate_inj base i j k :
  0 <= i <= 159 -> 0 <= j <= 159 ->
  candidate base i = Some k -> candidate base j = Some k -> i = j.
Proof.
  intros Hi Hj. unfold candidate.
  destruct (i =? 0) eqn:Ei, (j =? 0) eqn:Ej; try lia.
  - rewrite fromCharCode_letter by lia. intros [= <-] [= E].
    apply (f_equal String.length) in E. rewrite string_app_length in E.
    cbn in E. lia.
  - rewrite fromCharCode_letter by lia. intros [= <-] [= E].
    apply (f_equal String.length) in E. rewrite string_app_length in E.
    cbn in E. lia.
  - rewrite !fromCharCode_letter by lia. intros [= <-] [= E].
    apply string_app_inv_head in E. injection E as E.
    apply (f_equal N_of_ascii) in E.
    rewrite !N_ascii_embedding in E by lia. lia.
Qed.

(** The loop, entered at [suffix] with the candidate of that suffix:
    it ends at the first candidate that is free, or all the candidates
    it was given are taken. *)
Lemma next_free_key_first base existingKeys n :
  forall suffix key,
    0 <= suffix -> suffix + Z.of_nat n <= 159 ->
    candidate base suffix = Some key ->
    match next_free_key n base suffix key existingKeys with
    | Some k =>
        exists j, suffix <= j <= suffix + Z.of_nat n
                  /\ candidate base j = Some k /\ (k ∉ existingKeys)
                  /\ forall i, suffix <= i < j ->
                       exists k', candidate base i = Some k' /\ k' ∈ existingKeys
    | None =>
        forall i, suffix <= i <= suffix + Z.of_nat n ->
          exists k', candidate base i = Some k' /\ k' ∈ existingKeys
    end.
Proof.
  induction n as [|n IH]; intros suffix key H0 Hn Hkey; cbn [next_free_key].
  - destruct (bool_decide (key ∈ existingKeys)) eqn:E.
    + apply bool_decide_eq_true_1 in E. intros i Hi.
      replace i with suffix by lia. eauto.
    + apply bool_decide_eq_false_1 in E. exists suffix.
      split; [lia|]. split; [exact Hkey|]. split; [exact E|]. intros i Hi. lia.
  - destruct (bool_decide (key ∈ existingKeys)) eqn:E.
    + apply bool_decide_eq_true_1 in E.
      rewrite fromCharCode_letter by lia.
      assert (Hnext : candidate base (suffix + 1)
                      = Some (base ++ String (ascii_of_N (Z.to_N (96 + (suffix + 1)))) "")).
      { unfold candidate. destruct (suffix + 1 =? 0) eqn:E1; [lia|].
        now rewrite fromCharCode_letter by lia. }
      specialize (IH (suffix + 1) _ ltac:(lia) ltac:(lia) Hnext).
      destruct (next_free_key n base (suffix + 1) _ existingKeys) as [k|].
      * destruct IH as (j & Hj & Hc & Hfree & Hbefore). exists j.
        split; [lia|]. split; [exact Hc|]. split; [exact Hfree|].
        intros i Hi. destruct (decide (i = suffix)) as [->|Hne]; [eauto|].
        apply Hbefore. lia.
      * intros i Hi. destruct (decide (i = suffix)) as [->|Hne]; [eauto|].
        apply IH. lia.
    + apply bool_decide_eq_false_1 in E. exists suffix.
      split; [lia|]. split; [exact Hkey|]. split; [exact E|]. intros i Hi. lia.
Qed.

(** One candidate more than the set has keys cannot all be taken. *)
Lemma candidates_not_all_taken base (existingKeys : gset string) :
  (size existingKeys <= MAX_KEYS)%nat ->
  ~ (forall i, 0 <= i <= Z.of_nat (size existingKeys) ->
       exists k, candidate base i = Some k /\ k ∈ existingKeys).
Proof.
  unfold MAX_KEYS. intros Hsize Hall.
  set (n := size existingKeys) in *.
  set (l := (fun i => default "" (candidate base i)) <$> seqZ 0 (Z.of_nat n + 1)).
  assert (Hnodup : base.NoDup l).
  { apply NoDup_fmap_2_strong; [|apply NoDup_seqZ].
    intros i j Hi Hj E. apply elem_of_seqZ in Hi, Hj.
    destruct (candidate_Some base i ltac:(lia)) as [ki Eki].
    destruct (candidate_Some base j ltac:(lia)) as [kj Ekj].
    rewrite Eki, Ekj in E. cbn in E. subst kj.
    apply (candidate_inj base i j ki); [lia|lia|assumption|assumption]. }
  assert (Hsub : (list_to_set l : gset string) ⊆ existingKeys).
  { intros k Hk. apply elem_of_list_to_set in Hk.
    apply list_elem_of_fmap in Hk as (i & -> & Hi). apply elem_of_seqZ in Hi.
    destruct (Hall i ltac:(lia)) as (k & -> & Hin). exact Hin. }
  apply subseteq_size in Hsub. rewrite size_list_to_set in Hsub by exact Hnodup.
  unfold l in Hsub. rewrite length_fmap, length_seqZ in Hsub. fold n in Hsub. lia.
Qed.

Lemma candidate_zero base : candidate base 0 = Some base.
Proof. reflexivity. Qed.

(** [generateCiteKey] returns a key that was free, and adds it. *)
Lemma generateCiteKey_fresh item (existingKeys : gset string) :
  (size existingKeys <= MAX_KEYS)%nat ->
  exists key suffix,
    generateCiteKey item existingKeys = Some (key, {[ key ]} ∪ existingKeys)
    /\ candidate (cite_key_base item) suffix = Some key
    /\ (key ∉ existingKeys).
Proof.
  intros Hsize. unfold generateCiteKey.
  assert (Hfuel : 0 + Z.of_nat (size existingKeys) <= 159)
    by (unfold MAX_KEYS in Hsize; lia).
  pose proof (next_free_key_first (cite_key_base item) existingKeys (size existingKeys)
                0 (cite_key_base item) (Z.le_refl 0) Hfuel (candidate_zero _)) as H.
  destruct (next_free_key _ _ _ _ _) as [k|].
  - destruct H as (j & _ & Hc & Hfree & _). exists k, j. auto.
  - exfalso. apply (candidates_not_all_taken (cite_key_base item) existingKeys Hsize).
    intros i Hi. apply H. lia.
Qed.

(** X29. With at most 159 keys in the set, [generateCiteKey] returns,
    and its key is the first candidate that is not in the set: the base
    (family name of the first author without white space, or Unknown,
    followed by the year, or nd) when that is free, otherwise the base
    with the first letter from a on that gives a free key. The key was
    not in the set and is added to it; nothing else is. *)
Theorem generateCiteKey_first_free item (existingKeys : gset string) :
  (size existingKeys <= MAX_KEYS)%nat ->
  exists key suffix,
    generateCiteKey item existingKeys = Some (key, {[ key ]} ∪ existingKeys)
    /\ 0 <= suffix <= Z.of_nat (size existingKeys)
    /\ candidate (cite_key_base item) suffix = Some key
    /\ (key ∉ existingKeys)
    /\ (forall j, 0 <= j < suffix ->
          exists taken,
            candidate (cite_key_base item) j = Some taken /\ taken ∈ existingKeys)
    /\ (cite_key_base item ∉ existingKeys -> key = cite_key_base item).
Proof.
  intros Hsize. unfold generateCiteKey.
  assert (Hfuel : 0 + Z.of_nat (size existingKeys) <= 159)
    by (unfold MAX_KEYS in Hsize; lia).
  pose proof (next_free_key_first (cite_key_base item) existingKeys (size existingKeys)
                0 (cite_key_base item) (Z.le_refl 0) Hfuel (candidate_zero _)) as H.
  destruct (next_free_key _ _ _ _ _) as [k|].
  - destruct H as (j & Hj & Hc & Hfree & Hbefore). exists k, j.
    split; [reflexivity|]. split; [lia|]. split; [exact Hc|]. split; [exact Hfree|].
    split; [exact Hbefore|].
    intros Hbase. destruct (decide (j = 0)) as [->|Hne].
    + rewrite candidate_zero in Hc. now injection Hc.
    + destruct (Hbefore 0 ltac:(lia)) as (k' & Hk' & Hin).
      rewrite candidate_zero in Hk'. injection Hk' as <-. contradiction.
  - exfalso. apply (candidates_not_all_taken (cite_key_base item) existingKeys Hsize).
    intros i Hi. apply H. lia.
Qed.

Lemma generateCiteKey_first_free_witness :
  exists key suffix,
    generateCiteKey CitationScenario.second CitationScenario.taken
    = Some (key, {[ key ]} ∪ CitationScenario.taken)
    /\ 0 <= suffix <= Z.of_nat (size CitationScenario.taken)
    /\ candidate (cite_key_base CitationScenario.second) suffix = Some key
    /\ (key ∉ CitationScenario.taken)
    /\ (forall j, 0 <= j < suffix ->
          exists taken,
            candidate (cite_key_base CitationScenario.second) j = Some taken
            /\ taken ∈ CitationScenario.taken)
    /\ (cite_key_base CitationScenario.second ∉ CitationScenario.taken
        -> key = cite_key_base CitationScenario.second).
Proof.
  apply (generateCiteKey_first_free CitationScenario.second CitationScenario.taken).
  vm_compute. lia.
Defined.

(** ** The export *)

Lemma export_entries_keys items :
  forall keys : gset string,
    (size keys + length items <= S MAX_KEYS)%nat ->
    List.Forall own_type items ->
    exists ks,
      export_entries items keys
      = Some (zip_with (fun item key => bibtex_entry (entry_type_of item) item key)
                items ks)
      /\ length ks = length items
      /\ base.NoDup ks
      /\ (forall k, k ∈ ks -> k ∉ keys)
      /\ Forall2 (fun item key =>
                    exists suffix, candidate (cite_key_base item) suffix = Some key)
           items ks.
Proof.
  induction items as [|item rest IH]; intros keys Hsize Hown.
  - exists []. cbn. split; [reflexivity|]. split; [reflexivity|].
    split; [constructor|]. split; [|constructor]. intros k Hk. inversion Hk.
  - cbn [length] in Hsize. cbn [export_entries].
    inversion Hown as [|? ? Hitem Hrest]; subst.
    destruct (generateCiteKey_fresh item keys ltac:(lia)) as (key & j & -> & Hc & Hfree).
    unfold itemToBibtex, bibtex_entry_type. unfold own_type in Hitem. rewrite Hitem.
    assert (Hgrown : size ({[ key ]} ∪ keys) = S (size keys)).
    { rewrite size_union by set_solver. now rewrite size_singleton. }
    destruct (IH ({[ key ]} ∪ keys) ltac:(lia) Hrest)
      as (ks & -> & Hlen & Hnodup & Hnew & Hall).
    exists (key :: ks). cbn. split; [reflexivity|]. split; [now rewrite Hlen|].
    split.
    { constructor; [|exact Hnodup]. intros Hin. apply (Hnew _ Hin). set_solver. }
    split.
    { intros k Hk. apply elem_of_cons in Hk as [->|Hk]; [exact Hfree|].
      intros Hin. apply (Hnew _ Hk). set_solver. }
    constructor; [eauto|exact Hall].
Qed.

(** X30. [exportBibtex] of a list with at most 160 items that are not
    deleted (their types no names of inherited members) returns the
    entries of those items, in their order, joined by an empty line;
    deleted items get no entry and no key. The entry of an item has the
    entry type of the table, [misc] for a type the table does not have,
    and carries a cite key derived from the item; no two entries of the
    export carry the same key. *)
Theorem exportBibtex_distinct_keys items :
  let live := List.filter is_live items in
  (length live <= S MAX_KEYS)%nat ->
  List.Forall own_type live ->
  exists keys,
    exportBibtex items
    = Some (String.concat (newline ++ newline)
              (zip_with (fun item key => bibtex_entry (entry_type_of item) item key)
                 live keys))
    /\ length keys = length live
    /\ base.NoDup keys
    /\ Forall2 (fun item key =>
                  Item.deleted item = false
                  /\ exists suffix, candidate (cite_key_base item) suffix = Some key)
         live keys.
Proof.
  intros live Hlen Hown. unfold exportBibtex. fold live.
  destruct (export_entries_keys live ∅) as (ks & -> & Hks & Hnodup & _ & Hall).
  { rewrite size_empty. cbn. exact Hlen. }
  { exact Hown. }
  exists ks. split; [reflexivity|]. split; [exact Hks|]. split; [exact Hnodup|].
  assert (Hlive : List.Forall (fun item => Item.deleted item = false) live).
  { apply List.Forall_forall. intros item Hin. unfold live in Hin.
    apply List.filter_In in Hin as [_ Hin]. unfold is_live in Hin.
    now destruct (Item.deleted item). }
  clear Hks Hnodup Hlen Hown. induction Hall as [|item k l ks Hk Hall IH]; [constructor|].
  inversion Hlive; subst. constructor; auto.
Qed.

Lemma exportBibtex_distinct_keys_witness :
  let items := [CitationScenario.first; CitationScenario.gone; CitationScenario.second;
                CitationScenario.anonymous] in
  exists keys,
    exportBibtex items
    = Some (String.concat (newline ++ newline)
              (zip_with (fun item key => bibtex_entry (entry_type_of item) item key)
                 (List.filter is_live items) keys))
    /\ length keys = length (List.filter is_live items)
    /\ base.NoDup keys
    /\ Forall2 (fun item key =>
                  Item.deleted item = false
                  /\ exists suffix, candidate (cite_key_base item) suffix = Some key)
         (List.filter is_live items) keys.
Proof.
  intros items. apply (exportBibtex_distinct_keys items).
  - vm_compute. lia.
  - vm_compute. repeat constructor.
Defined.

(** * Local edits on the day of the last sync *)

Lemma string_compare_app (p a b : string) :
  String.compare (p ++ a) (p ++ b) = String.compare a b.
Proof.
  induction p as [|c p IH]; [reflexivity|].
  rewrite !string_app_cons. cbn [String.compare].
  now rewrite ascii_compare_refl.
Qed.

(** The stamp that [datetime('now')] gives an edit, next to the cursor
    that [toISOString] gave the last sync: on the same day the texts
    agree up to the date, and then a space stands against a [T]. *)
Lemma same_day_stamp_not_greater (t_sync t_edit : Z) :
  t_sync / 86400000 = t_edit / 86400000 ->
  str_gt (sqlite_datetime (Formats := reference_formats) t_edit)
         (Date_toISOString (Formats := reference_formats) t_sync) = false.
Proof.
  intros Hday. unfold str_gt. cbn [sqlite_datetime Date_toISOString reference_formats].
  unfold date_part. rewrite Hday.
  destruct (civil_of_days (t_edit / 86400000)) as [[y m] d].
  now rewrite string_compare_app.
Qed.

Section DrainCounts.
Context {X : Type}.
Context `{!IDriveService X, !ICacheService X, !IBackendApi X, !Platform X}.
Context `{!Formats}.
Context `{!JSON (list Author), !JSON (list string), !JSON JsonValue}.
Context `{!JSON (list Annotation), !JSON AnnotationSidecar}.

(** The drain counts errors and nothing else. *)
Lemma process_upload_counts (upload : UploadQueueEntry) (s : SyncResult * World X) :
  let r' := fst (snd (process_upload upload s)) in
  SyncResult.pulled r' = SyncResult.pulled (fst s)
  /\ SyncResult.conflicts r' = SyncResult.conflicts (fst s)
  /\ SyncResult.pushed r' = SyncResult.pushed (fst s).
Proof.
  destruct s as [r w]. unfold process_upload, record_failure. st_unfold. st_simpl.
  destruct (run_handler upload w) as [[[]|err] wh]; st_simpl; [auto|].
  destruct (UploadQueueEntry.maxRetries upload <=? UploadQueueEntry.retryCount upload + 1);
    st_simpl; [auto|].
  destruct (Date_now (ext wh)) as [now x1]. st_simpl. auto.
Qed.

Lemma for_each_uploads_counts (uploads : list UploadQueueEntry)
    (s : SyncResult * World X) :
  let r' := fst (snd (for_each uploads process_upload s)) in
  SyncResult.pulled r' = SyncResult.pulled (fst s)
  /\ SyncResult.conflicts r' = SyncResult.conflicts (fst s)
  /\ SyncResult.pushed r' = SyncResult.pushed (fst s).
Proof.
  cbv zeta. revert s. induction uploads as [|upload rest IH]; intros s.
  { cbn [for_each]. unfold ret. cbn [fst snd]. auto. }
  cbn [for_each]. unfold bind.
  pose proof (process_upload_counts upload s) as Hstep. cbv zeta in Hstep.
  destruct (process_upload upload s) as [[[]|e] s1]; cbn [fst snd] in *; [|exact Hstep].
  destruct Hstep as (H1 & H2 & H3), (IH s1) as (I1 & I2 & I3).
  rewrite I1, I2, I3. auto.
Qed.

Lemma processUploadQueue_counts (s : SyncResult * World X) :
  let r' := fst (snd (processUploadQueue s)) in
  SyncResult.pulled r' = SyncResult.pulled (fst s)
  /\ SyncResult.conflicts r' = SyncResult.conflicts (fst s)
  /\ SyncResult.pushed r' = SyncResult.pushed (fst s).
Proof.
  cbv zeta. destruct s as [r w].
  unfold processUploadQueue, bind, on_snd, gets. cbn [fst snd].
  apply (for_each_uploads_counts (pending_uploads (db w)) (r, w)).
Qed.
End DrainCounts.

Section SameDayEdit.
Context {X : Type}.
Context `{!IDriveService X, !ICacheService X, !IBackendApi X, !Platform X}.
Context `{!JSON (list Author), !JSON (list string), !JSON JsonValue}.
Context `{!JSON (list Annotation), !JSON AnnotationSidecar}.
#[local] Existing Instance reference_formats.
Implicit Types (w : World X) (r : SyncResult) (remote local : ItemRow).

(** C1. The pass does not keep every item that was modified after the
    last sync. The cursor is the text of [toISOString] and an edit is
    stamped by [datetime('now')]; the pass compares the two texts. Let
    the last sync have been at the instant [t_sync], the local row have
    been edited at the later instant [t_edit] of the same day (UTC), and
    let the backend report one item, of the same id and a strictly
    greater version. Then the pull counts the item as pulled and not as a
    conflict, and overwrites the row: at the end of the pass the row has
    the title, the other descriptive fields and the version of the remote
    item, and the pass returns with [pulled] at 1. *)
Theorem syncLoop_overwrites_same_day_edit w remote local t_sync t_edit x1 :
  items (db w) !! ItemRow.id remote = Some local ->
  ItemRow.version local < ItemRow.version remote ->
  last_sync (db w) = Date_toISOString t_sync ->
  ItemRow.modifiedAt local = sqlite_datetime t_edit ->
  t_sync < t_edit ->
  t_sync / 86400000 = t_edit / 86400000 ->
  getChanges (last_sync (db w)) (ext w) = (inl [remote], x1) ->
  (forall r,
      pull (last_sync (db w)) (r, w)
      = (Returns tt,
         (count_pulled r,
          mkWorld (with_items (alter (overwritten_by remote) (ItemRow.id remote)) (db w))
            x1 (drive_calls w)))
      /\ SyncResult.conflicts (count_pulled r) = SyncResult.conflicts r)
  /\ items (db (snd (syncLoop w))) !! ItemRow.id remote
     = Some (overwritten_by remote local)
  /\ ItemRow.title (overwritten_by remote local) = ItemRow.title remote
  /\ ItemRow.version (overwritten_by remote local) = ItemRow.version remote
  /\ exists result,
       fst (syncLoop w) = Returns result /\ SyncResult.pulled result = 1.
Proof.
  intros Hlocal Hnewer Hcursor Hstamp Hlater Hday Hchanges.
  assert (Hclean : str_gt (ItemRow.modifiedAt local) (last_sync (db w)) = false).
  { rewrite Hcursor, Hstamp. now apply same_day_stamp_not_greater. }
  assert (Hpull : forall r,
             pull (last_sync (db w)) (r, w)
             = (Returns tt,
                (count_pulled r,
                 mkWorld (with_items (alter (overwritten_by remote) (ItemRow.id remote))
                            (db w))
                   x1 (drive_calls w)))).
  { intros r. unfold pull, try_catch. unfold bind at 1, on_snd at 1, external at 1.
    cbn [fst snd]. rewrite Hchanges. cbn [of_rejection fst snd].
    cbn [for_each]. unfold pull_item. st_unfold. st_simpl. rewrite Hlocal.
    replace (ItemRow.version local <? ItemRow.version remote) with true
      by (symmetry; now apply Z.ltb_lt).
    rewrite Hclean. reflexivity. }
  split; [intros r; split; [apply Hpull|reflexivity]|].
  pose proof (sync_pass_phases (SyncResult.mk 0 0 0 0) w) as Hpass. cbv zeta in Hpass.
  rewrite Hpull in Hpass. cbn [snd] in Hpass.
  set (s1 := (count_pulled (SyncResult.mk 0 0 0 0),
              mkWorld (with_items (alter (overwritten_by remote) (ItemRow.id remote))
                         (db w)) x1 (drive_calls w))) in *.
  pose proof (push_keeps_items (last_sync (db w)) s1) as Hpush.
  destruct (push_items_count (local_changes (last_sync (db w)) (db (snd s1)))
              (fst s1) (snd s1)) as (r2 & w2 & Hrun & _ & Hpulled2 & _).
  assert (Hs2 : push (last_sync (db w)) s1 = (Returns tt, (r2, w2))).
  { unfold push. unfold bind at 1, on_snd at 1, gets at 1. cbn [fst snd]. exact Hrun. }
  rewrite Hs2 in Hpass, Hpush. cbn [snd] in Hpass, Hpush.
  pose proof (processUploadQueue_keeps_items (r2, w2)) as Hdrain.
  pose proof (processUploadQueue_counts (r2, w2)) as Hcount. cbv zeta in Hcount.
  set (s3 := snd (processUploadQueue (r2, w2))) in *.
  pose proof (keeps_counting_on_snd items _ commit_cursor_keeps_items s3) as Hcommit.
  rewrite <- Hpass in Hcommit.
  assert (Hresult : fst (snd (sync_pass (SyncResult.mk 0 0 0 0, w))) = fst s3).
  { rewrite Hpass. unfold on_snd. now destruct (commit_cursor (snd s3)). }
  unfold syncLoop.
  destruct (sync_pass (SyncResult.mk 0 0 0 0, w)) as [out [result w']].
  cbn [fst snd] in *.
  split.
  { rewrite Hcommit, Hdrain, Hpush. subst s1. cbn [snd db items with_items].
    now rewrite lookup_alter_eq, Hlocal. }
  split; [reflexivity|]. split; [reflexivity|].
  exists result. split; [reflexivity|].
  rewrite Hresult. destruct Hcount as (Hp & _). rewrite Hp. cbn [fst].
  rewrite Hpulled2. reflexivity.
Qed.
End SameDayEdit.

Section SameDayWitness.
Import Scenario ItemScenario SameDayScenario.

(** Alice's edit of eleven o'clock, made an hour after her last sync, is
    overwritten by Bob's version 3: the paper has Bob's title, her title
    is gone, and the pass reports no conflict. An edit made the next day
    would have been found. *)
Lemma syncLoop_overwrites_same_day_edit_witness :
  last_sync (db world) = "2024-01-01T10:00:00.001Z"
  /\ (exists row,
        items (db world) !! "uuid-1" = Some row
        /\ ItemRow.title row = Some "Updated"
        /\ ItemRow.version row = 2
        /\ ItemRow.modifiedAt row = "2024-01-01 11:00:00")
  /\ fst (syncLoop world) = Returns (SyncResult.mk 1 1 0 0)
  /\ (exists row,
        items (db (snd (syncLoop world))) !! "uuid-1" = Some row
        /\ ItemRow.title row = Some "Bob's title"
        /\ ItemRow.version row = 3)
  /\ str_gt "2024-01-02 11:00:00" "2024-01-01T10:00:00.001Z" = true.
Proof.
  split; [vm_compute; reflexivity|].
  split; [eexists; vm_compute; repeat split|].
  split; [vm_compute; reflexivity|].
  split; [|vm_compute; reflexivity].
  edestruct (syncLoop_overwrites_same_day_edit world bobs_version
               (updated_item_row new_title created "2024-01-01 11:00:00" created_row)
               1704103200001 1704106800000)
    as (_ & Hrow & Htitle & Hversion & _).
  - vm_compute; reflexivity.
  - vm_compute; reflexivity.
  - vm_compute; reflexivity.
  - vm_compute; reflexivity.
  - lia.
  - vm_compute; reflexivity.
  - vm_compute; reflexivity.
  - eexists. split; [exact Hrow|]. split; [exact Htitle|exact Hversion].
Defined.
End SameDayWitness.
